(** * beads_viewer: the adaptive graph-analytics engine of pkg/analysis

    A shallow embedding of
      - pkg/analysis/graph.go               (NewAnalyzer, Analyze, computeHeights)
      - pkg/analysis/betweenness_approx.go  (ApproxBetweenness, sampleNodes,
                                             singleSourceBetweenness,
                                             RecommendSampleSize)
      - the analysis configuration          (ConfigForSize and friends)
    together with the properties the specification states about them.

    Conventions of the embedding.
      - Go [int] and [int64] are [Z]; the one product that can leave the
        64-bit range is wrapped explicitly ([wrap64]).
      - Go [float64] has two models.  Module [Betweenness] computes the
        scores over the exact rationals [Q], with the operations of the
        source in the order of the source, without rounding and without
        infinities; it serves the properties that do not depend on
        rounding.  Module [Betweenness64] is the same code over IEEE
        binary64 (the primitive floats, specified by [SpecFloat]), as is
        the density of Analyze; the properties about the values of the
        scores are stated there.
      - Go maps are stdpp [gmap]s, a read of an absent key gives the zero
        value of the element type.
      - [time.Duration] is a number of nanoseconds. *)

From Stdlib Require Import ZArith QArith Qabs Lqa Lia.
From Stdlib Require Floats Uint63.
From stdpp Require Import base option list gmap strings sorting.

Local Open Scope Z_scope.

(** ** Numeric helpers *)

Definition wrap64 (z : Z) : Z := (z + 2 ^ 63) mod 2 ^ 64 - 2 ^ 63.

(** [float64(i)] for an integer [i]. *)
Definition float64 (i : Z) : Q := inject_Z i.

Definition Qltb (x y : Q) : bool := negb (Qle_bool y x).
Definition Qgtb (x y : Q) : bool := Qltb y x.

(** ** float64 as IEEE binary64 *)

Module Float64.
Import PrimFloat.

(** [float64(i)] for an [int] [i]: the binary64 value nearest to [i]
    (for [i] in the 64-bit range, its least value excepted). *)
Definition of_int (i : Z) : float :=
  if i <? 0 then (- of_uint63 (Uint63.of_Z (- i)))%float
  else of_uint63 (Uint63.of_Z i).

(** A read of a map of floats: the zero value for an absent key. *)
Definition get {K} `{Countable K} (m : gmap K float) (k : K) : float :=
  default 0%float (m !! k).

End Float64.

(** ** Analysis configuration *)

Module Config.

Definition BetweennessMode := string.
Definition BetweennessExact : BetweennessMode := "exact"%string.
Definition BetweennessApproximate : BetweennessMode := "approximate"%string.
Definition BetweennessSkip : BetweennessMode := "skip"%string.

Definition Duration := Z.
Definition Millisecond : Duration := 1000000.
Definition Second : Duration := 1000 * Millisecond.

Record AnalysisConfig := {
  ComputeBetweenness : bool;
  BetweennessTimeout : Duration;
  BetweennessSkipReason : string;
  BetweennessMode_ : BetweennessMode;
  BetweennessSampleSize : Z;
  BetweennessIsApproximate : bool;
  ComputePageRank : bool;
  PageRankTimeout : Duration;
  PageRankSkipReason : string;
  ComputeHITS : bool;
  HITSTimeout : Duration;
  HITSSkipReason : string;
  ComputeCycles : bool;
  CyclesTimeout : Duration;
  MaxCyclesToStore : Z;
  CyclesSkipReason : string;
  ComputeEigenvector : bool;
  ComputeCriticalPath : bool
}.

(** RecommendSampleSize, betweenness_approx.go.  Go's [/] on [int]
    truncates toward zero: [Z.quot]. *)
Definition RecommendSampleSize (nodeCount edgeCount : Z) : Z :=
  if nodeCount <? 100 then nodeCount
  else if nodeCount <? 500 then
    let minSample := 50 in
    let sample := Z.quot nodeCount 5 in
    if sample >? minSample then sample else minSample
  else if nodeCount <? 2000 then 100
  else 200.

Definition density (nodeCount edgeCount : Z) : Q :=
  if nodeCount >? 1
  then (float64 edgeCount / float64 (wrap64 (nodeCount * (nodeCount - 1))))%Q
  else 0%Q.

Definition ConfigForSize (nodeCount edgeCount : Z) : AnalysisConfig :=
  let density := density nodeCount edgeCount in
  if nodeCount <? 100 then
    {| ComputeBetweenness := true; BetweennessMode_ := BetweennessExact;
       BetweennessTimeout := 2 * Second;
       BetweennessSkipReason := EmptyString; BetweennessSampleSize := 0;
       BetweennessIsApproximate := false;
       ComputePageRank := true; PageRankTimeout := 2 * Second;
       PageRankSkipReason := EmptyString;
       ComputeHITS := true; HITSTimeout := 2 * Second; HITSSkipReason := EmptyString;
       ComputeCycles := true; CyclesTimeout := 2 * Second;
       MaxCyclesToStore := 1000; CyclesSkipReason := EmptyString;
       ComputeEigenvector := true; ComputeCriticalPath := true |}
  else if nodeCount <? 500 then
    {| ComputeBetweenness := true; BetweennessMode_ := BetweennessExact;
       BetweennessTimeout := 500 * Millisecond;
       BetweennessSkipReason := EmptyString; BetweennessSampleSize := 0;
       BetweennessIsApproximate := false;
       ComputePageRank := true; PageRankTimeout := 500 * Millisecond;
       PageRankSkipReason := EmptyString;
       ComputeHITS := true; HITSTimeout := 500 * Millisecond;
       HITSSkipReason := EmptyString;
       ComputeCycles := true; CyclesTimeout := 500 * Millisecond;
       MaxCyclesToStore := 100; CyclesSkipReason := EmptyString;
       ComputeEigenvector := true; ComputeCriticalPath := true |}
  else if nodeCount <? 2000 then
    let cfg :=
      {| ComputeBetweenness := false; BetweennessMode_ := EmptyString;
         BetweennessTimeout := 0;
         BetweennessSkipReason := EmptyString; BetweennessSampleSize := 0;
         BetweennessIsApproximate := false;
         ComputePageRank := true; PageRankTimeout := 300 * Millisecond;
         PageRankSkipReason := EmptyString;
         ComputeHITS := true; HITSTimeout := 300 * Millisecond;
         HITSSkipReason := EmptyString;
         ComputeCycles := true; CyclesTimeout := 300 * Millisecond;
         MaxCyclesToStore := 50; CyclesSkipReason := EmptyString;
         ComputeEigenvector := true; ComputeCriticalPath := true |} in
    if Qltb density (1 # 100) then
      {| ComputeBetweenness := true;
         BetweennessMode_ := BetweennessApproximate;
         BetweennessSampleSize := RecommendSampleSize nodeCount edgeCount;
         BetweennessTimeout := 500 * Millisecond;
         BetweennessSkipReason := BetweennessSkipReason cfg;
         BetweennessIsApproximate := BetweennessIsApproximate cfg;
         ComputePageRank := ComputePageRank cfg;
         PageRankTimeout := PageRankTimeout cfg;
         PageRankSkipReason := PageRankSkipReason cfg;
         ComputeHITS := ComputeHITS cfg; HITSTimeout := HITSTimeout cfg;
         HITSSkipReason := HITSSkipReason cfg;
         ComputeCycles := ComputeCycles cfg;
         CyclesTimeout := CyclesTimeout cfg;
         MaxCyclesToStore := MaxCyclesToStore cfg;
         CyclesSkipReason := CyclesSkipReason cfg;
         ComputeEigenvector := ComputeEigenvector cfg;
         ComputeCriticalPath := ComputeCriticalPath cfg |}
    else
      {| ComputeBetweenness := false;
         BetweennessMode_ := BetweennessSkip;
         BetweennessSkipReason := "graph too dense (density > 0.01)";
         BetweennessSampleSize := BetweennessSampleSize cfg;
         BetweennessTimeout := BetweennessTimeout cfg;
         BetweennessIsApproximate := BetweennessIsApproximate cfg;
         ComputePageRank := ComputePageRank cfg;
         PageRankTimeout := PageRankTimeout cfg;
         PageRankSkipReason := PageRankSkipReason cfg;
         ComputeHITS := ComputeHITS cfg; HITSTimeout := HITSTimeout cfg;
         HITSSkipReason := HITSSkipReason cfg;
         ComputeCycles := ComputeCycles cfg;
         CyclesTimeout := CyclesTimeout cfg;
         MaxCyclesToStore := MaxCyclesToStore cfg;
         CyclesSkipReason := CyclesSkipReason cfg;
         ComputeEigenvector := ComputeEigenvector cfg;
         ComputeCriticalPath := ComputeCriticalPath cfg |}
  else
    let hits := Qltb density (1 # 1000) in
    {| ComputeBetweenness := true;
       BetweennessMode_ := BetweennessApproximate;
       BetweennessSampleSize := RecommendSampleSize nodeCount edgeCount;
       BetweennessTimeout := 500 * Millisecond;
       BetweennessSkipReason := EmptyString; BetweennessIsApproximate := false;
       ComputePageRank := true; PageRankTimeout := 200 * Millisecond;
       PageRankSkipReason := EmptyString;
       ComputeHITS := hits;
       HITSTimeout := if hits then 200 * Millisecond else 0;
       HITSSkipReason := if hits then EmptyString else "graph too large and dense";
       ComputeCycles := false; CyclesTimeout := 0;
       CyclesSkipReason := "graph too large (>2000 nodes)";
       MaxCyclesToStore := 10;
       ComputeEigenvector := true; ComputeCriticalPath := true |}.

(** DefaultConfig. *)
Definition DefaultConfig : AnalysisConfig :=
  {| ComputeBetweenness := true; BetweennessMode_ := BetweennessExact;
     BetweennessTimeout := 500 * Millisecond;
     BetweennessSkipReason := EmptyString; BetweennessSampleSize := 0;
     BetweennessIsApproximate := false;
     ComputePageRank := true; PageRankTimeout := 500 * Millisecond;
     PageRankSkipReason := EmptyString;
     ComputeHITS := true; HITSTimeout := 500 * Millisecond;
     HITSSkipReason := EmptyString;
     ComputeCycles := true; CyclesTimeout := 500 * Millisecond;
     MaxCyclesToStore := 100; CyclesSkipReason := EmptyString;
     ComputeEigenvector := true; ComputeCriticalPath := true |}.

(** FullAnalysisConfig. *)
Definition FullAnalysisConfig : AnalysisConfig :=
  {| ComputeBetweenness := true; BetweennessMode_ := BetweennessExact;
     BetweennessTimeout := 30 * Second;
     BetweennessSkipReason := EmptyString; BetweennessSampleSize := 0;
     BetweennessIsApproximate := false;
     ComputePageRank := true; PageRankTimeout := 30 * Second;
     PageRankSkipReason := EmptyString;
     ComputeHITS := true; HITSTimeout := 30 * Second;
     HITSSkipReason := EmptyString;
     ComputeCycles := true; CyclesTimeout := 30 * Second;
     MaxCyclesToStore := 10000; CyclesSkipReason := EmptyString;
     ComputeEigenvector := true; ComputeCriticalPath := true |}.

Record SkippedMetric := { Name : string; Reason : string }.

(** SkippedMetrics: one entry per disabled metric, appended in the order
    Betweenness, PageRank, HITS, Cycles. *)
Definition SkippedMetrics (c : AnalysisConfig) : list SkippedMetric :=
  let skipped := [] in
  let skipped :=
    if negb (ComputeBetweenness c)
    then skipped ++ [ {| Name := "Betweenness";
                         Reason := BetweennessSkipReason c |} ]
    else skipped in
  let skipped :=
    if negb (ComputePageRank c)
    then skipped ++ [ {| Name := "PageRank";
                         Reason := PageRankSkipReason c |} ]
    else skipped in
  let skipped :=
    if negb (ComputeHITS c)
    then skipped ++ [ {| Name := "HITS"; Reason := HITSSkipReason c |} ]
    else skipped in
  let skipped :=
    if negb (ComputeCycles c)
    then skipped ++ [ {| Name := "Cycles"; Reason := CyclesSkipReason c |} ]
    else skipped in
  skipped.

End Config.

(** ** The graph library (gonum [simple.DirectedGraph])

    The library is an external collaborator; its directed graph is modelled
    by its node set and its edge set.  Iterators ([Nodes], [From], [To])
    yield their elements in an unspecified order, here the order of
    [elements]. *)

Module Gonum.

Record DirectedGraph := {
  nodes : gset Z;
  edges : gset (Z * Z)
}.

Definition NewDirectedGraph : DirectedGraph := {| nodes := ∅; edges := ∅ |}.

(** [g.NewNode()]: an id that is not in use, one above the largest id
    handed out so far (0 for the empty graph). *)
Definition NewNode (g : DirectedGraph) : Z :=
  foldr Z.max (-1) (elements (nodes g)) + 1.

(** [g.AddNode(n)] panics on an id that is already in use. *)
Definition AddNode (g : DirectedGraph) (n : Z) : option DirectedGraph :=
  if decide (n ∈ nodes g) then None
  else Some {| nodes := {[n]} ∪ nodes g; edges := edges g |}.

(** [g.SetEdge(g.NewEdge(u, v))] panics on a self edge; it adds the end
    points that are not yet nodes. *)
Definition SetEdge (g : DirectedGraph) (u v : Z) : option DirectedGraph :=
  if decide (u = v) then None
  else Some {| nodes := {[u; v]} ∪ nodes g; edges := {[(u, v)]} ∪ edges g |}.

Definition NodesOf (g : DirectedGraph) : list Z := elements (nodes g).

Definition HasEdgeFromTo (g : DirectedGraph) (u v : Z) : Prop :=
  (u, v) ∈ edges g.

(** [g.From(u)]: the successors of [u]; [g.To(v)]: its predecessors. *)
Definition From (g : DirectedGraph) (u : Z) : list Z :=
  filter (λ v, (u, v) ∈ edges g) (NodesOf g).

Definition To (g : DirectedGraph) (v : Z) : list Z :=
  filter (λ u, (u, v) ∈ edges g) (NodesOf g).

Definition EdgesLen (g : DirectedGraph) : Z := Z.of_nat (size (edges g)).



(** What [topo.Sort] promises: either an order of all the nodes in which
    every edge u -> v has u before v, or an error, and an error only on a
    graph with a directed cycle.  [None] stands for the error. *)
Definition topo_order (g : DirectedGraph) (sorted : list Z) : Prop :=
  NoDup sorted ∧
  (∀ n, n ∈ sorted ↔ n ∈ nodes g) ∧
  (∀ i j u v, sorted !! i = Some u → sorted !! j = Some v →
     HasEdgeFromTo g u v → (i < j)%nat).


(** [path.DijkstraFrom(source, g)] on a graph without weights uses unit
    cost for every edge: the distance to a node is the number of edges on a
    shortest path, absent when the node is not reachable.  Computed here
    layer by layer. *)
Definition bfsLayer (g : DirectedGraph) (d : nat)
    (seen : gmap Z nat) (frontier : list Z) : gmap Z nat * list Z :=
  foldl (λ st v,
           match st.1 !! v with
           | Some _ => st
           | None => (<[v := d]> st.1, st.2 ++ [v])
           end)
        (seen, []) (frontier ≫= From g).

Fixpoint bfs (g : DirectedGraph) (fuel d : nat)
    (seen : gmap Z nat) (frontier : list Z) : gmap Z nat :=
  match fuel with
  | O => seen
  | S fuel' =>
      let '(seen', next) := bfsLayer g d seen frontier in
      match next with
      | [] => seen'
      | _ => bfs g fuel' (S d) seen' next
      end
  end.

Definition DijkstraFrom (source : Z) (g : DirectedGraph) : gmap Z nat :=
  bfs g (size (nodes g)) 1 {[source := 0%nat]} [source].

(** [pt.To(nid)]: the weight of the shortest path, [None] for +Inf. *)
Definition WeightTo (pt : gmap Z nat) (nid : Z) : option Q :=
  (λ d, float64 (Z.of_nat d)) <$> pt !! nid.

End Gonum.

(** ** Issues (package model) *)

Module Model.

(** Modelled from the spec: the declarations of package model (Issue,
    Dependency and the dependency kinds) are not among the sources.  The
    specification describes an issue as a stable string identifier with a
    list of (dependency-id, dependency-kind) pairs; the tests build
    dependencies with the fields IssueID, DependsOnID and Type and name
    the kinds DepBlocks, DepRelated and DepParentChild.  A kind is a
    string; the specification spells two of them "related" and
    "parent-child". *)
Definition DependencyType := string.
Definition DepBlocks : DependencyType := "blocks"%string.
Definition DepRelated : DependencyType := "related"%string.
Definition DepParentChild : DependencyType := "parent-child"%string.

(** Modelled from the spec: a dependency link, with the fields the tests
    set.  The list of an issue holds pointers; a nil entry is not
    modelled. *)
Record Dependency := {
  IssueID : string;
  DependsOnID : string;
  Type_ : DependencyType
}.

(** Modelled from the spec: a work-item record; of its fields the
    analyzer reads the id and the dependencies. *)
Record Issue := {
  ID : string;
  Dependencies : list Dependency
}.

End Model.

(** ** graph.go *)

Module Analysis.
Import Gonum Model.

Definition getQ {K} `{Countable K} (m : gmap K Q) (k : K) : Q :=
  default 0%Q (m !! k).
Definition getIDs (m : gmap Z (list Z)) (k : Z) : list Z :=
  default [] (m !! k).
Definition getString (m : gmap Z string) (k : Z) : string :=
  default EmptyString (m !! k).

Record GraphStats := {
  PageRank : gmap string Q;
  Betweenness : gmap string Q;
  OutDegree : gmap string Z;
  InDegree : gmap string Z;
  CriticalPathScore : gmap string Q;
  Cycles : list (list string);
  Density : PrimFloat.float;
  TopologicalOrder : list string
}.

Record Analyzer := {
  g : DirectedGraph;
  idToNode : gmap string Z;
  nodeToID : gmap Z string;
  issueMap : gmap string Issue
}.

(** NewAnalyzer, "1. Add Nodes". *)
Fixpoint addNodes (issues : list Issue) (a : Analyzer) : option Analyzer :=
  match issues with
  | [] => Some a
  | issue :: rest =>
      let n := NewNode (g a) in
      g' ← AddNode (g a) n;
      addNodes rest
        {| g := g';
           idToNode := <[ID issue := n]> (idToNode a);
           nodeToID := <[n := ID issue]> (nodeToID a);
           issueMap := <[ID issue := issue]> (issueMap a) |}
  end.

(** NewAnalyzer, the inner loop over [issue.Dependencies]. *)
Fixpoint addDependencies (idToNode : gmap string Z) (u : Z)
    (deps : list Dependency) (g : DirectedGraph) : option DirectedGraph :=
  match deps with
  | [] => Some g
  | dep :: rest =>
      match idToNode !! DependsOnID dep with
      | Some v => g' ← SetEdge g u v; addDependencies idToNode u rest g'
      | None => addDependencies idToNode u rest g
      end
  end.

(** NewAnalyzer, "2. Add Edges". *)
Fixpoint addEdges (idToNode : gmap string Z)
    (issues : list Issue) (g : DirectedGraph) : option DirectedGraph :=
  match issues with
  | [] => Some g
  | issue :: rest =>
      match idToNode !! ID issue with
      | None => addEdges idToNode rest g
      | Some u =>
          g' ← addDependencies idToNode u (Dependencies issue) g;
          addEdges idToNode rest g'
      end
  end.

Definition NewAnalyzer (issues : list Issue) : option Analyzer :=
  a ← addNodes issues
        {| g := NewDirectedGraph; idToNode := ∅; nodeToID := ∅;
           issueMap := ∅ |};
  g' ← addEdges (idToNode a) issues (g a);
  Some {| g := g'; idToNode := idToNode a; nodeToID := nodeToID a;
          issueMap := issueMap a |}.

(** computeHeights: the loop over the successors of [u]. *)
Definition maxChild (heights : gmap Z Q) (maxChildHeight : Q) (v : Z) : Q :=
  match heights !! v with
  | Some h => if Qgtb h maxChildHeight then h else maxChildHeight
  | None => maxChildHeight
  end.

(** computeHeights: one iteration of the loop over [sorted], from its last
    element to its first. *)
Definition heightStep (a : Analyzer)
    (st : gmap Z Q * gmap string Q) (uid : Z) : gmap Z Q * gmap string Q :=
  let maxChildHeight := foldl (maxChild st.1) 0%Q (From (g a) uid) in
  let heights := <[uid := (1 + maxChildHeight)%Q]> st.1 in
  (heights, <[getString (nodeToID a) uid := getQ heights uid]> st.2).

Definition heightsOf (a : Analyzer) (sorted : list Z)
  : gmap Z Q * gmap string Q :=
  foldl (heightStep a) (∅, ∅) (reverse sorted).

(** computeHeights; [sorted] is what its call of [topo.Sort] returned. *)
Definition computeHeights (a : Analyzer) (sorted : list Z) : gmap string Q :=
  (heightsOf a sorted).2.

(** What Analyze gets from the library: the maps of [network.PageRank] and
    [network.Betweenness] (as the sequence of entries a [range] yields),
    the cycles of [topo.DirectedCyclesIn], and the results of the two calls
    of [topo.Sort] (the one of Analyze and the one of computeHeights).
    The record stands for a run in which these calls returned;
    [network.PageRank] panics on a graph without nodes, and [Analyze]
    is reached only when NewAnalyzer returned. *)
Record Library := {
  pageRank : list (Z * Q);
  betweenness : list (Z * Q);
  directedCyclesIn : list (list Z);
  topoSort : option (list Z);
  topoSortHeights : list Z
}.

Definition degreeStep (a : Analyzer)
    (st : gmap string Z * gmap string Z) (n : Z)
  : gmap string Z * gmap string Z :=
  let id := getString (nodeToID a) n in
  (<[id := Z.of_nat (length (To (g a) n))]> st.1,
   <[id := Z.of_nat (length (From (g a) n))]> st.2).

Definition renameScores (a : Analyzer) (scores : list (Z * Q))
  : gmap string Q :=
  foldl (λ m e, <[getString (nodeToID a) e.1 := e.2]> m) ∅ scores.

Definition Analyze (a : Analyzer) (lib : Library) : GraphStats :=
  let degrees := foldl (degreeStep a) (∅, ∅) (NodesOf (g a)) in
  let pr := renameScores a (pageRank lib) in
  let bw := renameScores a (betweenness lib) in
  let cycles := map (map (getString (nodeToID a))) (directedCyclesIn lib) in
  let order :=
    match topoSort lib with
    | Some sorted => map (getString (nodeToID a)) (reverse sorted)
    | None => []
    end in
  let critical :=
    match topoSort lib with
    | Some _ => computeHeights a (topoSortHeights lib)
    | None => ∅
    end in
  let n := Float64.of_int (Z.of_nat (size pr)) in
  let e := Float64.of_int (EdgesLen (g a)) in
  {| PageRank := pr;
     Betweenness := bw;
     OutDegree := degrees.2;
     InDegree := degrees.1;
     CriticalPathScore := critical;
     Cycles := cycles;
     Density := if PrimFloat.ltb PrimFloat.one n
                then PrimFloat.div e
                       (PrimFloat.mul n (PrimFloat.sub n PrimFloat.one))
                else PrimFloat.zero;
     TopologicalOrder := order |}.

(** The part of a topological order the height pass relies on, stated so
    that it is inherited by the tail of the list. *)
Definition descends (g : DirectedGraph) (l : list Z) : Prop :=
  NoDup l ∧
  (∀ u v, u ∈ l → v ∈ From g u → v ∈ l) ∧
  (∀ i j u v, l !! i = Some u → l !! j = Some v →
     HasEdgeFromTo g u v → (i < j)%nat).

(** The recurrence of the critical-path height, for the nodes of [l]. *)
Definition height_recurrence (g : DirectedGraph) (l : list Z)
    (H : gmap Z Q) : Prop :=
  (∀ u, is_Some (H !! u) ↔ u ∈ l) ∧
  (∀ u, u ∈ l → H !! u = Some (1 + foldl (maxChild H) 0 (From g u))%Q).

End Analysis.

(** ** betweenness_approx.go *)

Module Betweenness.
Import Gonum Analysis.

Record BetweennessResult := {
  Scores : gmap Z Q;
  Mode : Config.BetweennessMode;
  SampleSize : Z;
  TotalNodes : Z;
  TimedOut : bool
}.

(** The scratch state of one single-source pass: the four maps
    [sigma], [dist], [delta] and [pred]. *)
Record Scratch := {
  sigma : gmap Z Q;
  dist : gmap Z Q;
  delta : gmap Z Q;
  pred : gmap Z (list Z)
}.

Definition emptyScratch : Scratch :=
  {| sigma := ∅; dist := ∅; delta := ∅; pred := ∅ |}.

Record nodeWithDist := { id : Z; dist_ : Q }.

(** sampleNodes.  The source draws from a generator seeded with the clock;
    [rnd i] is the raw value behind the i-th draw, [Intn] reduces it to
    the requested range. *)
Definition Intn (rnd : nat → Z) (i : nat) (n : Z) : nat :=
  Z.to_nat (rnd i mod n).

Definition swap (l : list Z) (i j : nat) : list Z :=
  match l !! i, l !! j with
  | Some x, Some y => <[i := y]> (<[j := x]> l)
  | _, _ => l
  end.

Definition shuffleStep (rnd : nat → Z) (shuffled : list Z) (i : nat)
  : list Z :=
  let j := (i + Intn rnd i (Z.of_nat (length shuffled) - Z.of_nat i))%nat in
  swap shuffled i j.

(** [shuffled[:k]] panics for a negative [k]. *)
Definition sampleNodes (rnd : nat → Z) (nodes : list Z) (k : Z)
  : option (list Z) :=
  if decide (Z.of_nat (length nodes) ≤ k) then Some nodes
  else
    let shuffled := foldl (shuffleStep rnd) nodes (seq 0 (Z.to_nat k)) in
    if decide (k < 0) then None else Some (take (Z.to_nat k) shuffled).

(** singleSourceBetweenness, the first loop: every node gets sigma 0,
    dist -1, delta 0 and no predecessors. *)
Definition initStep (s : Scratch) (nid : Z) : Scratch :=
  {| sigma := <[nid := 0%Q]> (sigma s);
     dist := <[nid := (-1)%Q]> (dist s);
     delta := <[nid := 0%Q]> (delta s);
     pred := <[nid := []]> (pred s) |}.

Definition setSource (sourceID : Z) (s : Scratch) : Scratch :=
  {| sigma := <[sourceID := 1%Q]> (sigma s);
     dist := <[sourceID := 0%Q]> (dist s);
     delta := delta s;
     pred := pred s |}.

(** "First, compute distances using Dijkstra result". *)
Definition distStep (pt : gmap Z nat) (sourceID : Z)
    (st : gmap Z Q * list nodeWithDist) (nid : Z)
  : gmap Z Q * list nodeWithDist :=
  match WeightTo pt nid with
  | None => st
  | Some d =>
      if decide (nid = sourceID) then st
      else (<[nid := d]> st.1, st.2 ++ [{| id := nid; dist_ := d |}])
  end.

(** [sort.Slice(stack, ...)] orders the stack by distance; the order of
    nodes at the same distance is unspecified, here that of a merge sort.
    The properties below use of it only that the result is a permutation
    of the stack in non-decreasing distance. *)
Definition distLe (x y : nodeWithDist) : Prop := (dist_ x <= dist_ y)%Q.

#[global] Instance distLe_dec x y : Decision (distLe x y).
Proof.
  unfold distLe. destruct (Qlt_le_dec (dist_ y) (dist_ x)) as [H | H].
  - right. intros H'. apply (Qlt_not_le _ _ H), H'.
  - left. exact H.
Defined.

Definition sortSlice (stack : list nodeWithDist) : list nodeWithDist :=
  merge_sort distLe stack.

(** "Find all predecessors that are on a shortest path". *)
Definition predStep (dist : gmap Z Q) (nid : Z) (nodeDist : Q)
    (pred : gmap Z (list Z)) (predID : Z) : gmap Z (list Z) :=
  let predDist := getQ dist predID in
  if Qltb predDist 0 then pred
  else if Qeq_bool (predDist + 1) nodeDist
       then <[nid := getIDs pred nid ++ [predID]]> pred
       else pred.

(** "Build sigma and predecessors", one node of the stack. *)
Definition sigmaStep (g : DirectedGraph) (sourceID : Z)
    (s : Scratch) (nd : nodeWithDist) : Scratch :=
  let nid := id nd in
  let nodeDist := dist_ nd in
  let pred1 := foldl (predStep (dist s) nid nodeDist) (pred s) (To g nid) in
  if decide (0 < length (getIDs pred1 nid))%nat then
    {| sigma :=
         foldl (λ sg p, <[nid := (getQ sg nid + getQ sg p)%Q]> sg)
               (sigma s) (getIDs pred1 nid);
       dist := dist s; delta := delta s; pred := pred1 |}
  else if decide (nid ≠ sourceID) then
    if decide (sourceID ∈ To g nid) then
      {| sigma := <[nid := 1%Q]> (sigma s);
         dist := dist s; delta := delta s;
         pred := <[nid := [sourceID]]> pred1 |}
    else
      {| sigma := sigma s; dist := dist s; delta := delta s; pred := pred1 |}
  else
    {| sigma := sigma s; dist := dist s; delta := delta s; pred := pred1 |}.

(** "Accumulation", the loop over the predecessors of [nid]. *)
Definition deltaStep (sigma : gmap Z Q) (nid : Z)
    (delta : gmap Z Q) (pid : Z) : gmap Z Q :=
  if Qgtb (getQ sigma nid) 0 then
    <[pid := (getQ delta pid
              + (getQ sigma pid / getQ sigma nid) * (1 + getQ delta nid))%Q]>
      delta
  else delta.

(** "Accumulation", one node of the stack. *)
Definition accumulateStep (sourceID : Z)
    (st : Scratch * gmap Z Q) (nid : Z) : Scratch * gmap Z Q :=
  let s := st.1 in
  let bc := st.2 in
  if Qeq_bool (getQ (sigma s) nid) 0 then st
  else
    let delta' := foldl (deltaStep (sigma s) nid) (delta s)
                        (getIDs (pred s) nid) in
    ({| sigma := sigma s; dist := dist s; delta := delta'; pred := pred s |},
     if decide (nid ≠ sourceID)
     then <[nid := (getQ bc nid + getQ delta' nid)%Q]> bc
     else bc).

(** The pass from the initialised scratch maps [s0] on; [pt] is the result
    of the shortest-path query and [nodes] the node list.  [buildPhase] is
    the pass up to and including "Build sigma and predecessors", [passFrom]
    adds the accumulation and returns the scratch maps as the pass leaves
    them and the accumulator [bc]. *)
Definition passStack (pt : gmap Z nat) (sourceID : Z) (nodes : list Z)
    (s : Scratch) : Scratch * list nodeWithDist :=
  let r := foldl (distStep pt sourceID) (dist s, []) nodes in
  ({| sigma := sigma s; dist := r.1; delta := delta s; pred := pred s |},
   sortSlice r.2).

Definition buildPhase (s0 : Scratch) (g : DirectedGraph) (pt : gmap Z nat)
    (sourceID : Z) (nodes : list Z) : Scratch * list nodeWithDist :=
  let r := passStack pt sourceID nodes (setSource sourceID s0) in
  (foldl (sigmaStep g sourceID) r.1 r.2, r.2).

Definition passFrom (s0 : Scratch) (g : DirectedGraph) (pt : gmap Z nat)
    (sourceID : Z) (nodes : list Z) (bc : gmap Z Q) : Scratch * gmap Z Q :=
  let r := buildPhase s0 g pt sourceID nodes in
  foldl (accumulateStep sourceID) (r.1, bc) (reverse (id <$> r.2)).

Definition singleSourceBetweenness (g : DirectedGraph) (source : Z)
    (bc : gmap Z Q) : gmap Z Q :=
  let nodes := NodesOf g in
  (passFrom (foldl initStep emptyScratch nodes) g (DijkstraFrom source g)
            source nodes bc).2.

(** ApproxBetweenness.  [exact] is the result of [network.Betweenness(g)],
    [rnd] the random source of sampleNodes. *)
Definition ApproxBetweenness (exact : DirectedGraph → gmap Z Q)
    (rnd : nat → Z) (g : DirectedGraph) (sampleSize : Z)
  : option BetweennessResult :=
  let nodes := NodesOf g in
  let n := Z.of_nat (length nodes) in
  if decide (n = 0) then
    Some {| Scores := ∅; Mode := Config.BetweennessApproximate;
            SampleSize := sampleSize; TotalNodes := n; TimedOut := false |}
  else if decide (n ≤ sampleSize) then
    Some {| Scores := exact g; Mode := Config.BetweennessExact;
            SampleSize := n; TotalNodes := n; TimedOut := false |}
  else
    pivots ← sampleNodes rnd nodes sampleSize;
    let partialBC :=
      foldl (λ bc pivot, singleSourceBetweenness g pivot bc) ∅ pivots in
    let scale := (float64 n / float64 sampleSize)%Q in
    Some {| Scores := (λ x, x * scale)%Q <$> partialBC;
            Mode := Config.BetweennessApproximate;
            SampleSize := sampleSize; TotalNodes := n; TimedOut := false |}.

(** *** Vocabulary of the properties *)

(** The nodes a pass puts on its stack: those with a finite distance,
    the source excepted, in the order of the node list. *)
Definition stackOf (pt : gmap Z nat) (sourceID : Z) (nodes : list Z)
  : list nodeWithDist :=
  omap (λ nid, if decide (nid = sourceID) then None
               else (λ d, {| id := nid; dist_ := d |}) <$> WeightTo pt nid)
       nodes.

(** The sum of the values of a map over a list of keys. *)
Definition sumOver (m : gmap Z Q) (l : list Z) : Q :=
  foldr (λ k acc, (getQ m k + acc)%Q) 0%Q l.

(** A path count: zero or at least one. *)
Definition countLike (x : Q) : Prop := (x == 0 ∨ 1 <= x)%Q.

(** What holds of the scratch maps when the sigma loop has handled the
    nodes [done] of the stack: distances [D] and the dependencies are
    untouched, every sigma is a path count, the source has sigma 1, a node
    not yet handled has sigma 0 and no predecessors, and for a handled node
    with a non-zero sigma the sigmas of its predecessors add up to its own,
    all its predecessors being the source or nodes handled before it. *)
Definition buildInv (sourceID : Z) (D δ0 : gmap Z Q)
    (done : list nodeWithDist) (s : Scratch) : Prop :=
  dist s = D ∧ delta s = δ0 ∧
  (∀ k, countLike (getQ (sigma s) k)) ∧
  sigma s !! sourceID = Some 1%Q ∧
  (∀ k, k ∉ id <$> done → k ≠ sourceID →
     getQ (sigma s) k = 0%Q ∧ getIDs (pred s) k = []) ∧
  (∀ i nd, done !! i = Some nd →
     (¬ (getQ (sigma s) (id nd) == 0)%Q →
      (sumOver (sigma s) (getIDs (pred s) (id nd))
       == getQ (sigma s) (id nd))%Q) ∧
     (∀ p, p ∈ getIDs (pred s) (id nd) →
        p = sourceID ∨ p ∈ id <$> take i done)).

(** The length of a list as a score. *)
Definition lenQ {A} (l : list A) : Q := float64 (Z.of_nat (length l)).

(** What holds of the scratch maps during the accumulation when the nodes
    [pre] of the stack are still to come: sigma and the predecessors are
    those of the sigma loop, no dependency is negative, and the
    dependencies of the source and of the nodes to come add up to at most
    [j]. *)
Definition accInv (sourceID : Z) (σ : gmap Z Q) (π : gmap Z (list Z))
    (pre : list nodeWithDist) (j : Q) (s : Scratch) : Prop :=
  sigma s = σ ∧ pred s = π ∧
  (∀ k, 0 <= getQ (delta s) k)%Q ∧
  (sumOver (delta s) (sourceID :: (id <$> pre)) <= j)%Q.


(** *** The pooled single-source pass *)



End Betweenness.

(** ** betweenness_approx.go in binary64 *)

(** The sampled path of ApproxBetweenness with the arithmetic of the
    source: every [float64] is an IEEE binary64 value, every operation
    rounds to nearest, comparisons are those of the standard (a NaN
    compares false).  The functions are those of module [Betweenness],
    line by line; sampleNodes and the shortest-path query do no
    floating-point arithmetic and are shared. *)
Module Betweenness64.
Import PrimFloat Gonum Analysis.

Record BetweennessResult := {
  Scores : gmap Z float;
  Mode : Config.BetweennessMode;
  SampleSize : Z;
  TotalNodes : Z;
  TimedOut : bool
}.

Record Scratch := {
  sigma : gmap Z float;
  dist : gmap Z float;
  delta : gmap Z float;
  pred : gmap Z (list Z)
}.

Definition emptyScratch : Scratch :=
  {| sigma := ∅; dist := ∅; delta := ∅; pred := ∅ |}.

Record nodeWithDist := { id : Z; dist_ : float }.

(** [pt.To(nid)]: the weight of the shortest path, the number of its
    edges as a float; [None] for +Inf. *)
Definition WeightTo (pt : gmap Z nat) (nid : Z) : option float :=
  (λ d, Float64.of_int (Z.of_nat d)) <$> pt !! nid.

Definition initStep (s : Scratch) (nid : Z) : Scratch :=
  {| sigma := <[nid := 0%float]> (sigma s);
     dist := <[nid := (-1)%float]> (dist s);
     delta := <[nid := 0%float]> (delta s);
     pred := <[nid := []]> (pred s) |}.

Definition setSource (sourceID : Z) (s : Scratch) : Scratch :=
  {| sigma := <[sourceID := 1%float]> (sigma s);
     dist := <[sourceID := 0%float]> (dist s);
     delta := delta s;
     pred := pred s |}.

Definition distStep (pt : gmap Z nat) (sourceID : Z)
    (st : gmap Z float * list nodeWithDist) (nid : Z)
  : gmap Z float * list nodeWithDist :=
  match WeightTo pt nid with
  | None => st
  | Some d =>
      if decide (nid = sourceID) then st
      else (<[nid := d]> st.1, st.2 ++ [{| id := nid; dist_ := d |}])
  end.

(** [sort.Slice] with [stack[i].dist < stack[j].dist]; as in module
    [Betweenness] the order among equal distances is that of a merge
    sort. *)
Definition distLe (x y : nodeWithDist) : Prop :=
  (dist_ x <=? dist_ y)%float = true.

#[global] Instance distLe_dec x y : Decision (distLe x y).
Proof. unfold distLe. apply _. Defined.

Definition sortSlice (stack : list nodeWithDist) : list nodeWithDist :=
  merge_sort distLe stack.

Definition predStep (dist : gmap Z float) (nid : Z) (nodeDist : float)
    (pred : gmap Z (list Z)) (predID : Z) : gmap Z (list Z) :=
  let predDist := Float64.get dist predID in
  if (predDist <? 0)%float then pred
  else if (predDist + 1 =? nodeDist)%float
       then <[nid := getIDs pred nid ++ [predID]]> pred
       else pred.

Definition sigmaStep (g : DirectedGraph) (sourceID : Z)
    (s : Scratch) (nd : nodeWithDist) : Scratch :=
  let nid := id nd in
  let nodeDist := dist_ nd in
  let pred1 := foldl (predStep (dist s) nid nodeDist) (pred s) (To g nid) in
  if decide (0 < length (getIDs pred1 nid))%nat then
    {| sigma :=
         foldl (λ sg p,
                  <[nid := (Float64.get sg nid + Float64.get sg p)%float]> sg)
               (sigma s) (getIDs pred1 nid);
       dist := dist s; delta := delta s; pred := pred1 |}
  else if decide (nid ≠ sourceID) then
    if decide (sourceID ∈ To g nid) then
      {| sigma := <[nid := 1%float]> (sigma s);
         dist := dist s; delta := delta s;
         pred := <[nid := [sourceID]]> pred1 |}
    else
      {| sigma := sigma s; dist := dist s; delta := delta s; pred := pred1 |}
  else
    {| sigma := sigma s; dist := dist s; delta := delta s; pred := pred1 |}.

(** [delta[pid] += (sigma[pid] / sigma[nid]) * (1 + delta[nid])] under
    the guard [sigma[nid] > 0]. *)
Definition deltaStep (sigma : gmap Z float) (nid : Z)
    (delta : gmap Z float) (pid : Z) : gmap Z float :=
  if (0 <? Float64.get sigma nid)%float then
    <[pid := (Float64.get delta pid
              + (Float64.get sigma pid / Float64.get sigma nid)
                * (1 + Float64.get delta nid))%float]>
      delta
  else delta.

(** One node of the accumulation: skipped when [sigma[nid] == 0];
    [bc[nid] += delta[nid]] for a node other than the source. *)
Definition accumulateStep (sourceID : Z)
    (st : Scratch * gmap Z float) (nid : Z) : Scratch * gmap Z float :=
  let s := st.1 in
  let bc := st.2 in
  if (Float64.get (sigma s) nid =? 0)%float then st
  else
    let delta' := foldl (deltaStep (sigma s) nid) (delta s)
                        (getIDs (pred s) nid) in
    ({| sigma := sigma s; dist := dist s; delta := delta'; pred := pred s |},
     if decide (nid ≠ sourceID)
     then <[nid := (Float64.get bc nid + Float64.get delta' nid)%float]> bc
     else bc).

Definition passStack (pt : gmap Z nat) (sourceID : Z) (nodes : list Z)
    (s : Scratch) : Scratch * list nodeWithDist :=
  let r := foldl (distStep pt sourceID) (dist s, []) nodes in
  ({| sigma := sigma s; dist := r.1; delta := delta s; pred := pred s |},
   sortSlice r.2).

Definition buildPhase (s0 : Scratch) (g : DirectedGraph) (pt : gmap Z nat)
    (sourceID : Z) (nodes : list Z) : Scratch * list nodeWithDist :=
  let r := passStack pt sourceID nodes (setSource sourceID s0) in
  (foldl (sigmaStep g sourceID) r.1 r.2, r.2).

Definition passFrom (s0 : Scratch) (g : DirectedGraph) (pt : gmap Z nat)
    (sourceID : Z) (nodes : list Z) (bc : gmap Z float)
  : Scratch * gmap Z float :=
  let r := buildPhase s0 g pt sourceID nodes in
  foldl (accumulateStep sourceID) (r.1, bc) (reverse (id <$> r.2)).

Definition singleSourceBetweenness (g : DirectedGraph) (source : Z)
    (bc : gmap Z float) : gmap Z float :=
  let nodes := NodesOf g in
  (passFrom (foldl initStep emptyScratch nodes) g (DijkstraFrom source g)
            source nodes bc).2.

(** ApproxBetweenness; [partialBC[id] *= scale] with
    [scale := float64(n) / float64(sampleSize)]. *)
Definition ApproxBetweenness (exact : DirectedGraph → gmap Z float)
    (rnd : nat → Z) (g : DirectedGraph) (sampleSize : Z)
  : option BetweennessResult :=
  let nodes := NodesOf g in
  let n := Z.of_nat (length nodes) in
  if decide (n = 0) then
    Some {| Scores := ∅; Mode := Config.BetweennessApproximate;
            SampleSize := sampleSize; TotalNodes := n; TimedOut := false |}
  else if decide (n ≤ sampleSize) then
    Some {| Scores := exact g; Mode := Config.BetweennessExact;
            SampleSize := n; TotalNodes := n; TimedOut := false |}
  else
    pivots ← Betweenness.sampleNodes rnd nodes sampleSize;
    let partialBC :=
      foldl (λ bc pivot, singleSourceBetweenness g pivot bc) ∅ pivots in
    let scale := (Float64.of_int n / Float64.of_int sampleSize)%float in
    Some {| Scores := (λ x, x * scale)%float <$> partialBC;
            Mode := Config.BetweennessApproximate;
            SampleSize := sampleSize; TotalNodes := n; TimedOut := false |}.

(** *** Vocabulary of the properties *)

(** The sign of a binary64 value is [b], or the value is a NaN. *)
Definition signIs (b : bool) (x : SpecFloat.spec_float) : Prop :=
  match x with
  | SpecFloat.S754_nan => True
  | SpecFloat.S754_zero b' | SpecFloat.S754_infinity b'
  | SpecFloat.S754_finite b' _ _ => b' = b
  end.

(** A float that is +0, positive (finite or infinite) or a NaN. *)
Definition notNeg (x : float) : Prop := signIs false (FloatOps.Prim2SF x).

End Betweenness64.

(** * Properties *)

(** ** Numeric helpers *)

Lemma Qltb_lt x y : Qltb x y = true <-> (x < y)%Q.
Proof.
  unfold Qltb. rewrite negb_true_iff.
  destruct (Qle_bool y x) eqn:E.
  - apply Qle_bool_iff in E. split; [discriminate | intros H; lra].
  - split; [intros _ | reflexivity].
    destruct (Qlt_le_dec x y) as [H | H]; [exact H |].
    apply Qle_bool_iff in H. congruence.
Qed.

Lemma Qltb_ge x y : Qltb x y = false <-> (y <= x)%Q.
Proof.
  unfold Qltb. rewrite negb_false_iff. apply Qle_bool_iff.
Qed.

(** ** The configuration selector *)

Section ConfigFacts.
Import Config.

(** C3 (counterexample): a graph of 10 nodes is a small graph (fewer than
    100 nodes), yet it gets sample size 10, the node count itself, and not
    the floor of 50. *)
Lemma RecommendSampleSize_small_not_50 :
  10 < 100 /\ RecommendSampleSize 10 0 = 10 /\ RecommendSampleSize 10 0 <> 50.
Proof. split; [lia | split; [reflexivity | discriminate]]. Qed.

(** C3 (amended): RecommendSampleSize is a step function of the node count
    only: the node count itself below 100 (sampling every node, that is the
    exact algorithm), max(nodeCount/5, 50) from 100 to 499, a flat 100 from
    500 to 1999 and a flat 200 from 2000 on. *)
Theorem RecommendSampleSize_steps (nodeCount edgeCount : Z) :
  RecommendSampleSize nodeCount edgeCount =
    if decide (nodeCount < 100) then nodeCount
    else if decide (nodeCount < 500) then Z.max (nodeCount / 5) 50
    else if decide (nodeCount < 2000) then 100
    else 200.
Proof.
  unfold RecommendSampleSize.
  repeat case_decide;
    repeat match goal with
           | |- context [?a <? ?b] => destruct (Z.ltb_spec a b); try lia
           end; try reflexivity.
  rewrite Z.quot_div_nonneg by lia.
  destruct (Z.gtb_spec (nodeCount / 5) 50); lia.
Qed.

(** C4: ConfigForSize 50 100 selects exact betweenness; ConfigForSize 1500
    1000 (density below 0.01) selects approximate betweenness with sample
    size 100; ConfigForSize 1500 50000 (density above 0.01) skips
    betweenness with a non-empty reason; and throughout the large tier
    (500 to 1999 nodes) betweenness is approximate with sample size 100
    exactly when the density is below 0.01 and is skipped with a non-empty
    reason otherwise. *)
Theorem ConfigForSize_large_tier :
  BetweennessMode_ (ConfigForSize 50 100) = BetweennessExact /\
  ((density 1500 1000 < 1 # 100)%Q /\
   BetweennessMode_ (ConfigForSize 1500 1000) = BetweennessApproximate /\
   BetweennessSampleSize (ConfigForSize 1500 1000) = 100) /\
  ((1 # 100 < density 1500 50000)%Q /\
   BetweennessMode_ (ConfigForSize 1500 50000) = BetweennessSkip /\
   BetweennessSkipReason (ConfigForSize 1500 50000) <> EmptyString) /\
  forall nodeCount edgeCount : Z,
    500 <= nodeCount < 2000 ->
    let cfg := ConfigForSize nodeCount edgeCount in
    ((density nodeCount edgeCount < 1 # 100)%Q <->
       BetweennessMode_ cfg = BetweennessApproximate) /\
    (BetweennessMode_ cfg = BetweennessApproximate ->
       BetweennessSampleSize cfg = 100) /\
    (~ (density nodeCount edgeCount < 1 # 100)%Q ->
       BetweennessMode_ cfg = BetweennessSkip /\
       ComputeBetweenness cfg = false /\
       BetweennessSkipReason cfg <> EmptyString).
Proof.
  split; [reflexivity |].
  split; [split; [reflexivity | split; reflexivity] |].
  split; [split; [reflexivity | split; [reflexivity | discriminate]] |].
  intros n e [Hlo Hhi] cfg. subst cfg. unfold ConfigForSize.
  destruct (Z.ltb_spec n 100); [lia |].
  destruct (Z.ltb_spec n 500); [lia |].
  destruct (Z.ltb_spec n 2000); [| lia].
  destruct (Qltb (density n e) (1 # 100)) eqn:E; cbn.
  - apply Qltb_lt in E. split; [tauto |]. split; [| tauto].
    intros _. unfold RecommendSampleSize.
    destruct (Z.ltb_spec n 100); [lia |].
    destruct (Z.ltb_spec n 500); [lia |].
    destruct (Z.ltb_spec n 2000); [reflexivity | lia].
  - apply Qltb_ge in E. split; [| split].
    + split; [intros; lra | discriminate].
    + discriminate.
    + intros _. repeat split; discriminate.
Qed.

(** C5: whenever ConfigForSize selects approximate betweenness, the sample
    size it records is at least 1 and strictly below the node count. *)
Theorem ConfigForSize_sample_in_range (nodeCount edgeCount : Z) :
  0 <= nodeCount -> 0 <= edgeCount ->
  BetweennessMode_ (ConfigForSize nodeCount edgeCount)
    = BetweennessApproximate ->
  1 <= BetweennessSampleSize (ConfigForSize nodeCount edgeCount) < nodeCount.
Proof.
  intros _ _. unfold ConfigForSize, RecommendSampleSize.
  destruct (Z.ltb_spec nodeCount 100); [discriminate |].
  destruct (Z.ltb_spec nodeCount 500); [discriminate |].
  destruct (Z.ltb_spec nodeCount 2000).
  - destruct (Qltb _ _); cbn; [lia | discriminate].
  - cbn. lia.
Qed.

Lemma ConfigForSize_large_tier_witness :
  500 <= 1500 < 2000 /\
  BetweennessMode_ (ConfigForSize 1500 1000) = BetweennessApproximate /\
  BetweennessSampleSize (ConfigForSize 1500 1000) = 100.
Proof.
  split; [lia |].
  destruct ConfigForSize_large_tier as (_ & _ & _ & H).
  destruct (H 1500 1000 ltac:(lia)) as (H1 & H2 & _).
  split; [apply H1; reflexivity | apply H2, H1; reflexivity].
Defined.

Lemma ConfigForSize_sample_in_range_witness :
  1 <= BetweennessSampleSize (ConfigForSize 1500 1000) < 1500.
Proof.
  apply (ConfigForSize_sample_in_range 1500 1000); [lia | lia | reflexivity].
Defined.

End ConfigFacts.

(** ** NewAnalyzer *)

Section NewAnalyzerFacts.
Import Gonum Model Analysis.

Lemma SetEdge_edges g u v g' :
  SetEdge g u v = Some g' → edges g' = {[(u, v)]} ∪ edges g.
Proof. unfold SetEdge. case_decide; [done |]. by intros [= <-]. Qed.

Lemma addDependencies_edges m u deps : ∀ g g',
  addDependencies m u deps g = Some g' →
  ∀ x y, (x, y) ∈ edges g' ↔
    (x, y) ∈ edges g ∨
    (x = u ∧ ∃ d, d ∈ deps ∧ m !! DependsOnID d = Some y).
Proof.
  induction deps as [| dep deps IH]; intros g0 g' Hg x y; cbn in Hg.
  - injection Hg as <-. split; [auto |]. intros [? | (_ & d & Hd & _)]; [done |].
    by apply elem_of_nil in Hd.
  - destruct (m !! DependsOnID dep) as [v |] eqn:Ev.
    + destruct (SetEdge g0 u v) as [g1 |] eqn:E1; [| done]. cbn in Hg.
      rewrite (IH _ _ Hg), (SetEdge_edges _ _ _ _ E1).
      rewrite elem_of_union, elem_of_singleton. split.
      * intros [[[= -> ->] | ?] | (-> & d & Hd & Hy)]; [| by left |].
        -- right. split; [done |]. exists dep. split; [left | done].
        -- right. split; [done |]. exists d. split; [by right | done].
      * intros [? | (-> & d & Hd & Hy)]; [by left; right |].
        apply elem_of_cons in Hd as [-> | Hd].
        -- left; left. congruence.
        -- right. eauto.
    + rewrite (IH _ _ Hg). split.
      * intros [? | (-> & d & Hd & Hy)]; [by left |].
        right. split; [done |]. exists d. split; [by right | done].
      * intros [? | (-> & d & Hd & Hy)]; [by left |].
        apply elem_of_cons in Hd as [-> | Hd]; [congruence |].
        right. eauto.
Qed.

Lemma addEdges_edges m issues : ∀ g g',
  addEdges m issues g = Some g' →
  ∀ x y, (x, y) ∈ edges g' ↔
    (x, y) ∈ edges g ∨
    ∃ i d, i ∈ issues ∧ d ∈ Dependencies i ∧
           m !! ID i = Some x ∧ m !! DependsOnID d = Some y.
Proof.
  induction issues as [| issue issues IH]; intros g0 g' Hg x y; cbn in Hg.
  - injection Hg as <-. split; [auto |].
    intros [? | (i & d & Hi & _)]; [done |]. by apply elem_of_nil in Hi.
  - destruct (m !! ID issue) as [u |] eqn:Eu.
    + destruct (addDependencies m u (Dependencies issue) g0) as [g1 |] eqn:E1;
        [| done].
      cbn in Hg. rewrite (IH _ _ Hg), (addDependencies_edges _ _ _ _ _ E1).
      split.
      * intros [[? | (-> & d & Hd & Hy)] | (i & d & Hi & Hd & Hx & Hy)].
        -- by left.
        -- right. exists issue, d. split; [left | done].
        -- right. exists i, d. split; [by right | done].
      * intros [? | (i & d & Hi & Hd & Hx & Hy)]; [by left; left |].
        apply elem_of_cons in Hi as [-> | Hi].
        -- left; right. split; [congruence | eauto].
        -- right. eauto 10.
    + rewrite (IH _ _ Hg). split.
      * intros [? | (i & d & Hi & Hd & Hx & Hy)]; [by left |].
        right. exists i, d. split; [by right | done].
      * intros [? | (i & d & Hi & Hd & Hx & Hy)]; [by left |].
        apply elem_of_cons in Hi as [-> | Hi]; [congruence |].
        right. eauto 10.
Qed.

Lemma AddNode_edges g n g' : AddNode g n = Some g' → edges g' = edges g.
Proof. unfold AddNode. case_decide; [done |]. by intros [= <-]. Qed.

Lemma addNodes_spec issues : ∀ a a',
  addNodes issues a = Some a' →
  edges (g a') = edges (g a) ∧
  ∀ s, is_Some (idToNode a' !! s) ↔
       is_Some (idToNode a !! s) ∨ ∃ i, i ∈ issues ∧ ID i = s.
Proof.
  induction issues as [| issue issues IH]; intros a a' Ha; cbn in Ha.
  - injection Ha as <-. split; [done |]. intros s. split; [auto |].
    intros [? | (i & Hi & _)]; [done |]. by apply elem_of_nil in Hi.
  - destruct (AddNode (g a) (NewNode (g a))) as [g1 |] eqn:E1; [| done].
    cbn in Ha. apply IH in Ha as [He Hs]. cbn in He, Hs. split.
    + by rewrite He, (AddNode_edges _ _ _ E1).
    + intros s. rewrite Hs, lookup_insert_is_Some. split.
      * intros [[<- | [_ ?]] | (i & Hi & <-)].
        -- right. exists issue. split; [left | done].
        -- by left.
        -- right. exists i. split; [by right | done].
      * intros [? | (i & Hi & <-)].
        -- destruct (decide (ID issue = s)); [by left; left | by left; right].
        -- apply elem_of_cons in Hi as [-> | Hi]; [by left; left |].
           right. eauto.
Qed.

Lemma AddNode_nodes g n g' :
  AddNode g n = Some g' → (n ∉ nodes g) ∧ nodes g' = {[n]} ∪ nodes g.
Proof. unfold AddNode. case_decide; [done |]. by intros [= <-]. Qed.

Lemma SetEdge_nodes g u v g' :
  SetEdge g u v = Some g' → nodes g' = {[u; v]} ∪ nodes g.
Proof. unfold SetEdge. case_decide; [done |]. by intros [= <-]. Qed.


Lemma addDependencies_nodes m u deps : ∀ g g',
  addDependencies m u deps g = Some g' → nodes g ⊆ nodes g'.
Proof.
  induction deps as [| dep deps IH]; intros g0 g' Hg; cbn in Hg.
  - by injection Hg as <-.
  - destruct (m !! DependsOnID dep) as [v |]; [| by eapply IH].
    destruct (SetEdge g0 u v) as [g1 |] eqn:E1; [| done]. cbn in Hg.
    apply IH in Hg. apply SetEdge_nodes in E1. rewrite E1 in Hg.
    intros x Hx. apply Hg, elem_of_union. by right.
Qed.

Lemma addEdges_nodes m issues : ∀ g g',
  addEdges m issues g = Some g' → nodes g ⊆ nodes g'.
Proof.
  induction issues as [| issue issues IH]; intros g0 g' Hg; cbn in Hg.
  - by injection Hg as <-.
  - destruct (m !! ID issue) as [u |]; [| by eapply IH].
    destruct (addDependencies m u (Dependencies issue) g0) as [g1 |] eqn:E1;
      [| done].
    cbn in Hg. apply IH in Hg. apply addDependencies_nodes in E1.
    intros x Hx. by apply Hg, E1.
Qed.


(** NewAnalyzer returns an analyzer unless an issue depends on its own
    id (the graph library refuses self edges). *)
Lemma NewNode_fresh g : NewNode g ∉ nodes g.
Proof.
  unfold NewNode. intros Hin. apply elem_of_elements in Hin.
  assert (∀ (l : list Z) x, x ∈ l → x ≤ foldr Z.max (-1) l) as Hmax.
  { induction l as [| y l IH]; intros x Hx; [by apply elem_of_nil in Hx |].
    cbn. apply elem_of_cons in Hx as [-> | Hx]; [lia |].
    specialize (IH x Hx). lia. }
  specialize (Hmax _ _ Hin). lia.
Qed.

Lemma addNodes_total issues : ∀ a,
  (∀ s n, idToNode a !! s = Some n → n ∈ nodes (g a)) →
  (∀ s1 s2 n, idToNode a !! s1 = Some n → idToNode a !! s2 = Some n →
     s1 = s2) →
  ∃ a', addNodes issues a = Some a' ∧
    ∀ s1 s2 n, idToNode a' !! s1 = Some n → idToNode a' !! s2 = Some n →
      s1 = s2.
Proof.
  induction issues as [| issue issues IH]; intros a Hval Hinj; cbn.
  - by exists a.
  - pose proof (NewNode_fresh (g a)) as Hfresh.
    unfold AddNode. destruct (decide (NewNode (g a) ∈ nodes (g a))); [done |].
    cbn. apply IH; cbn.
    + intros s n' [[_ <-] | [_ Hs]]%lookup_insert_Some.
      * apply elem_of_union. left. by apply elem_of_singleton.
      * apply elem_of_union. right. by eapply Hval.
    + intros s1 s2 n' [[<- <-] | [Hne1 H1]]%lookup_insert_Some
                      [[<- Heq] | [Hne2 H2]]%lookup_insert_Some.
      * done.
      * exfalso. apply Hfresh. by eapply Hval.
      * exfalso. apply Hfresh. rewrite Heq. by eapply Hval.
      * by eapply Hinj.
Qed.

Lemma addDependencies_total m u deps : ∀ g,
  (∀ d v, d ∈ deps → m !! DependsOnID d = Some v → v ≠ u) →
  is_Some (addDependencies m u deps g).
Proof.
  induction deps as [| dep deps IH]; intros g0 Hne; cbn; [by eexists |].
  destruct (m !! DependsOnID dep) as [v |] eqn:Ev.
  - unfold SetEdge. destruct (decide (u = v)) as [-> | _].
    + exfalso. by apply (Hne dep v); [left | |].
    + cbn. apply IH. intros d w Hd. apply Hne. by right.
  - apply IH. intros d w Hd. apply Hne. by right.
Qed.

Lemma addEdges_total m issues : ∀ g,
  (∀ s1 s2 n, m !! s1 = Some n → m !! s2 = Some n → s1 = s2) →
  (∀ i d, i ∈ issues → d ∈ Dependencies i → DependsOnID d ≠ ID i) →
  is_Some (addEdges m issues g).
Proof.
  induction issues as [| issue issues IH]; intros g0 Hinj Hself; cbn;
    [by eexists |].
  assert (∀ i d, i ∈ issues → d ∈ Dependencies i → DependsOnID d ≠ ID i)
    as Hself' by (intros i d Hi; apply Hself; by right).
  destruct (m !! ID issue) as [u |] eqn:Eu; [| by apply IH].
  destruct (addDependencies_total m u (Dependencies issue) g0) as [g1 ->].
  - intros d v Hd Hv ->. apply (Hself issue d); [left | done |].
    by eapply Hinj.
  - cbn. by apply IH.
Qed.

Lemma NewAnalyzer_total issues :
  (∀ i d, i ∈ issues → d ∈ Dependencies i → DependsOnID d ≠ ID i) →
  is_Some (NewAnalyzer issues).
Proof.
  intros Hself. unfold NewAnalyzer.
  destruct (addNodes_total issues
              {| g := NewDirectedGraph; idToNode := ∅; nodeToID := ∅;
                 issueMap := ∅ |}) as (a & -> & Hinj).
  - cbn. intros s n Hs. by rewrite lookup_empty in Hs.
  - cbn. intros s1 s2 n Hs. by rewrite lookup_empty in Hs.
  - cbn. destruct (addEdges_total (idToNode a) issues (g a) Hinj Hself)
      as [g1 ->].
    by eexists.
Qed.

(** C1 (counterexample): issue A declares one dependency, of kind
    "related", on issue B.  No dependency of kind "depends-on" is declared
    anywhere, yet the graph has the edge from A's node (0) to B's node
    (1). *)
Lemma NewAnalyzer_related_edge :
  let issues :=
    [ {| ID := "A";
         Dependencies := [ {| IssueID := "A"; DependsOnID := "B";
                              Type_ := DepRelated |} ] |};
      {| ID := "B"; Dependencies := [] |} ]%string in
  ∃ a, NewAnalyzer issues = Some a ∧
       idToNode a !! "A"%string = Some 0 ∧
       idToNode a !! "B"%string = Some 1 ∧
       HasEdgeFromTo (g a) 0 1 ∧
       ¬ ∃ iu d, iu ∈ issues ∧ d ∈ Dependencies iu ∧
                 Type_ d = "depends-on"%string.
Proof.
  intros issues. eexists. split; [vm_compute; reflexivity |].
  split; [by vm_compute |]. split; [by vm_compute |]. split.
  - unfold HasEdgeFromTo. cbn [g edges]. by vm_compute.
  - intros (iu & d & Hi & Hd & Ht). unfold issues in Hi.
    repeat (apply elem_of_cons in Hi as [-> | Hi]); cbn in Hd.
    + repeat (apply elem_of_cons in Hd as [-> | Hd]); [discriminate Ht |].
      by apply elem_of_nil in Hd.
    + by apply elem_of_nil in Hd.
    + by apply elem_of_nil in Hi.
Qed.

(** C1 (amended): in the graph NewAnalyzer builds there is an edge u -> v
    if and only if some issue with node u declares a dependency, of
    whatever kind, on the id of an issue of the list with node v. *)
Theorem NewAnalyzer_edges (issues : list Issue) (a : Analyzer) :
  NewAnalyzer issues = Some a →
  ∀ u v, HasEdgeFromTo (g a) u v ↔
    ∃ iu iv d, iu ∈ issues ∧ iv ∈ issues ∧ d ∈ Dependencies iu ∧
               DependsOnID d = ID iv ∧
               idToNode a !! ID iu = Some u ∧
               idToNode a !! ID iv = Some v.
Proof.
  unfold NewAnalyzer, HasEdgeFromTo. intros Ha u v.
  destruct (addNodes issues _) as [a1 |] eqn:E1; [| done]. cbn in Ha.
  destruct (addEdges (idToNode a1) issues (g a1)) as [g1 |] eqn:E2; [| done].
  injection Ha as <-. cbn.
  apply addNodes_spec in E1 as [He Hs]. cbn in He, Hs.
  rewrite (addEdges_edges _ _ _ _ E2), He. split.
  - intros [H | (i & d & Hi & Hd & Hx & Hy)]; [by apply not_elem_of_empty in H |].
    assert (is_Some (idToNode a1 !! DependsOnID d)) as Hv by eauto.
    apply Hs in Hv as [[? Hv] | (iv & Hiv & Hid)];
      [by rewrite lookup_empty in Hv |].
    exists i, iv, d. rewrite Hid. done.
  - intros (iu & iv & d & Hiu & Hiv & Hd & Hid & Hu & Hv).
    right. exists iu, d. rewrite Hid. done.
Qed.

Lemma NewAnalyzer_edges_witness :
  let issues :=
    [ {| ID := "A";
         Dependencies := [ {| IssueID := "A"; DependsOnID := "B";
                              Type_ := DepBlocks |} ] |};
      {| ID := "B"; Dependencies := [] |} ]%string in
  ∃ a, NewAnalyzer issues = Some a ∧ HasEdgeFromTo (g a) 0 1.
Proof.
  intros issues. eexists. split; [vm_compute; reflexivity |].
  eapply (NewAnalyzer_edges issues); [vm_compute; reflexivity |].
  eexists _, _, _.
  split; [left |]. split; [right; left |]. split; [left |].
  split; [reflexivity |]. split; by vm_compute.
Defined.

End NewAnalyzerFacts.

(** ** computeHeights *)

Section HeightsFacts.
Import Gonum Model Analysis.

Lemma elem_of_NodesOf g n : n ∈ NodesOf g ↔ n ∈ nodes g.
Proof. unfold NodesOf. apply elem_of_elements. Qed.

Lemma NoDup_NodesOf g : NoDup (NodesOf g).
Proof. unfold NodesOf. apply NoDup_elements. Qed.

Lemma elem_of_From g u v :
  v ∈ From g u ↔ HasEdgeFromTo g u v ∧ v ∈ nodes g.
Proof.
  unfold From, NodesOf, HasEdgeFromTo.
  rewrite list_elem_of_filter, elem_of_elements. done.
Qed.

Lemma elem_of_To g u v :
  u ∈ To g v ↔ HasEdgeFromTo g u v ∧ u ∈ nodes g.
Proof.
  unfold To, NodesOf, HasEdgeFromTo.
  rewrite list_elem_of_filter, elem_of_elements. done.
Qed.

Lemma topo_order_descends g sorted : topo_order g sorted → descends g sorted.
Proof.
  intros (Hnd & Hn & Hi). split; [done |]. split; [| done].
  intros u v _ Hv. apply Hn. by apply elem_of_From in Hv as [_ ?].
Qed.

Lemma descends_cons g u l :
  descends g (u :: l) →
  descends g l ∧ (u ∉ l) ∧ (∀ v, v ∈ From g u → v ∈ l).
Proof.
  intros (Hnd & Hc & Hi). apply NoDup_cons in Hnd as [Hu Hnd].
  assert (∀ x v, x ∈ u :: l → v ∈ From g x → v ≠ u) as Hne.
  { intros x v Hx Hv ->. apply list_elem_of_lookup in Hx as [i Hx].
    apply elem_of_From in Hv as [Hv _].
    specialize (Hi i 0%nat x u Hx eq_refl Hv). lia. }
  split; [| split; [done |]].
  - split; [done |]. split.
    + intros x v Hx Hv.
      assert (v ∈ u :: l) as Hin by (apply (Hc x); [by right | done]).
      apply elem_of_cons in Hin as [-> | ?]; [| done].
      exfalso. apply (Hne x u); [by right | done | done].
    + intros i j x v Hx Hv He.
      specialize (Hi (S i) (S j) x v Hx Hv He). lia.
  - intros v Hv.
    assert (v ∈ u :: l) as Hin by (apply (Hc u); [left | done]).
    apply elem_of_cons in Hin as [-> | ?]; [| done].
    exfalso. apply (Hne u u); [left | done | done].
Qed.

Lemma maxChild_agree (H H' : gmap Z Q) l : ∀ acc,
  (∀ v, v ∈ l → H !! v = H' !! v) →
  foldl (maxChild H) acc l = foldl (maxChild H') acc l.
Proof.
  induction l as [| v l IH]; intros acc Hag; [done |]. cbn.
  unfold maxChild at 2 4. rewrite (Hag v) by left.
  apply IH. intros w Hw. apply Hag. by right.
Qed.

Lemma heightsOf_cons a u l :
  heightsOf a (u :: l) = heightStep a (heightsOf a l) u.
Proof. unfold heightsOf. by rewrite reverse_cons, foldl_app. Qed.

Lemma heightsOf_recurrence a l :
  descends (g a) l → height_recurrence (g a) l (heightsOf a l).1.
Proof.
  induction l as [| u l IH]; intros Hd.
  - split; intros u; cbn.
    + rewrite lookup_empty, elem_of_nil. split; [by intros [] | done].
    + by intros ?%elem_of_nil.
  - apply descends_cons in Hd as (Hd & Hu & Hsucc).
    destruct (IH Hd) as [Hdom Hrec].
    rewrite heightsOf_cons. unfold heightStep. cbn [fst].
    set (H := (heightsOf a l).1) in *.
    assert (∀ w, w ∈ l → ∀ v, v ∈ From (g a) w →
              <[u := (1 + foldl (maxChild H) 0 (From (g a) u))%Q]> H !! v
              = H !! v) as Hfr.
    { intros w Hw v Hv. apply lookup_insert_ne. intros <-.
      apply Hu. destruct Hd as (_ & Hc & _). by apply (Hc w). }
    split.
    + intros w. rewrite lookup_insert_is_Some', Hdom, elem_of_cons.
      split; intros [-> | ?]; auto.
    + intros w Hw. apply elem_of_cons in Hw as [-> | Hw].
      * rewrite lookup_insert_eq. do 2 f_equal. apply maxChild_agree.
        intros v Hv. symmetry. apply lookup_insert_ne. intros <-.
        by apply Hu, Hsucc.
      * rewrite lookup_insert_ne by (by intros <-).
        rewrite (Hrec w Hw). do 2 f_equal. apply maxChild_agree.
        intros v Hv. symmetry. by apply (Hfr w).
Qed.

(** The recurrence has one solution only. *)
Lemma height_recurrence_unique g l l' H H' :
  descends g l → (∀ u, u ∈ l ↔ u ∈ l') →
  height_recurrence g l H → height_recurrence g l' H' → H = H'.
Proof.
  intros Hd Hll [Hdom Hrec] [Hdom' Hrec'].
  assert (∀ u, u ∈ l → H !! u = H' !! u) as Hin.
  { assert (∀ u, u ∈ l → u ∈ l') as Hsub by (intros; by apply Hll).
    clear Hll Hdom Hdom'.
    induction l as [| u l IH]; [by intros ? ?%elem_of_nil |].
    apply descends_cons in Hd as (Hd & Hu & Hsucc).
    assert (∀ w, w ∈ l → H !! w = H' !! w) as IH'.
    { apply IH; [done | | ].
      - intros w Hw. apply Hrec. by right.
      - intros w Hw. apply Hsub. by right. }
    intros w [-> | Hw]%elem_of_cons; [| by apply IH'].
    rewrite Hrec by left. rewrite Hrec' by (apply Hsub; left).
    do 2 f_equal. apply maxChild_agree. intros v Hv. by apply IH', Hsucc. }
  apply map_eq. intros u. destruct (decide (u ∈ l)) as [Hu | Hu]; [auto |].
  assert (H !! u = None) as ->.
  { apply eq_None_not_Some. by rewrite Hdom. }
  symmetry. apply eq_None_not_Some. by rewrite Hdom', <- Hll.
Qed.

(** The accumulator of the successor loop is the largest height among the
    successors (0 when there are none). *)
Lemma maxChild_is_max (H : gmap Z Q) l : ∀ acc,
  (∀ v, v ∈ l → is_Some (H !! v)) →
  let m := foldl (maxChild H) acc l in
  (acc <= m)%Q ∧
  (∀ v h, v ∈ l → H !! v = Some h → (h <= m)%Q) ∧
  (m = acc ∨ ∃ v, v ∈ l ∧ H !! v = Some m).
Proof.
  induction l as [| v l IH]; intros acc Hs; cbn.
  - split; [lra |]. split; [by intros ? ? ?%elem_of_nil | by left].
  - destruct (Hs v) as [h Hh]; [left |].
    assert (∀ w, w ∈ l → is_Some (H !! w)) as Hs'
      by (intros; apply Hs; by right).
    assert ((acc <= maxChild H acc v)%Q ∧ (h <= maxChild H acc v)%Q ∧
            (maxChild H acc v = acc ∨ maxChild H acc v = h)) as (Ha & Hb & Hc).
    { unfold maxChild, Qgtb. rewrite Hh. destruct (Qltb acc h) eqn:E.
      - apply Qltb_lt in E. split; [lra |]. split; [lra | by right].
      - apply Qltb_ge in E. split; [lra |]. split; [lra | by left]. }
    destruct (IH (maxChild H acc v) Hs') as (Hle & Hmax & Hwit).
    split; [lra |]. split.
    + intros w hw [-> | Hw]%elem_of_cons Hhw; [| by eapply Hmax].
      rewrite Hh in Hhw. injection Hhw as <-. lra.
    + destruct Hwit as [Hm | (w & Hw & Hm)].
      * destruct Hc as [Hc | Hc]; rewrite Hm, Hc; [by left |].
        right. exists v. split; [left | done].
      * right. exists w. split; [by right | done].
Qed.

Lemma computeHeights_lookup a l :
  NoDup l →
  (∀ u v, u ∈ l → v ∈ l →
     getString (nodeToID a) u = getString (nodeToID a) v → u = v) →
  (∀ u, u ∈ l →
     (heightsOf a l).2 !! getString (nodeToID a) u = (heightsOf a l).1 !! u) ∧
  (∀ s, is_Some ((heightsOf a l).2 !! s) →
     ∃ u, u ∈ l ∧ getString (nodeToID a) u = s).
Proof.
  induction l as [| u l IH]; intros Hnd Hinj.
  - split; [by intros ? ?%elem_of_nil |].
    intros s [? Hs]. cbn in Hs. by rewrite lookup_empty in Hs.
  - apply NoDup_cons in Hnd as [Hu Hnd].
    destruct (IH Hnd) as [Hl Hk].
    { intros ????; apply Hinj; by right. }
    rewrite heightsOf_cons. unfold heightStep. cbn [fst snd]. split.
    + intros w [-> | Hw]%elem_of_cons.
      * rewrite !lookup_insert_eq. unfold getQ. by rewrite lookup_insert_eq.
      * rewrite !lookup_insert_ne; [by apply Hl | by intros -> |].
        intros Heq. apply Hinj in Heq; [by subst | left | by right].
    + intros s Hs. apply lookup_insert_is_Some' in Hs as [<- | Hs].
      * exists u. split; [left | done].
      * destruct (Hk s Hs) as (w & Hw & <-). exists w. split; [by right | done].
Qed.

End HeightsFacts.
Section CriticalPath.
Import Gonum Model Analysis.

Lemma heightsOf_topo a sorted :
  topo_order (g a) sorted →
  height_recurrence (g a) sorted (heightsOf a sorted).1 ∧
  (∀ u, u ∈ nodes (g a) → ∀ v, v ∈ From (g a) u →
     is_Some ((heightsOf a sorted).1 !! v)).
Proof.
  intros Ht. pose proof (heightsOf_recurrence a sorted
                           (topo_order_descends _ _ Ht)) as Hr.
  split; [done |]. intros u Hu v Hv. apply Hr.
  destruct Ht as (_ & Hn & _). apply Hn.
  by apply elem_of_From in Hv as [_ ?].
Qed.

Lemma chain_topo_order :
  topo_order {| nodes := {[0; 1; 2]}; edges := {[(0, 1); (1, 2)]} |} [0; 1; 2].
Proof.
  split; [| split].
  - apply NoDup_ListNoDup. repeat constructor; cbn; intros H; lia.
  - intros n. cbn. rewrite !elem_of_cons, elem_of_nil.
    rewrite !elem_of_union, !elem_of_singleton. tauto.
  - unfold HasEdgeFromTo. cbn. intros i j u v Hi Hj He.
    apply elem_of_union in He as [He | He];
      apply elem_of_singleton in He; injection He as -> ->;
      destruct i as [| [| [| i]]]; destruct j as [| [| [| j]]];
      simplify_eq/=; lia.
Qed.

(** C6: on an acyclic graph, for every topological order [sorted] that
    topo.Sort may return, the height of every node u is 1 + m where m is
    the largest height among the nodes v with an edge u -> v (each of them
    has a height, none exceeds m and one attains it), and the height is 1
    when u has no outgoing edge; a second topological order gives the same
    heights, and the same returned map when distinct nodes carry distinct
    issue ids; on the chain A -> B -> C the returned heights are A = 3,
    B = 2, C = 1 for every topological order. *)
Theorem computeHeights_critical_path :
  (∀ (a : Analyzer) (sorted sorted' : list Z),
     topo_order (g a) sorted → topo_order (g a) sorted' →
     let H := (heightsOf a sorted).1 in
     (∀ u, u ∈ nodes (g a) →
        ∃ m, H !! u = Some (1 + m)%Q ∧
             (∀ v, v ∈ From (g a) u →
                ∃ h, H !! v = Some h ∧ (h <= m)%Q) ∧
             (From (g a) u ≠ [] →
                ∃ v, v ∈ From (g a) u ∧ H !! v = Some m) ∧
             (From (g a) u = [] → m = 0%Q ∧ H !! u = Some 1%Q)) ∧
     (heightsOf a sorted').1 = H ∧
     ((∀ u v, u ∈ nodes (g a) → v ∈ nodes (g a) →
         getString (nodeToID a) u = getString (nodeToID a) v → u = v) →
      computeHeights a sorted' = computeHeights a sorted ∧
      ∀ u, u ∈ nodes (g a) →
        computeHeights a sorted !! getString (nodeToID a) u = H !! u)) ∧
  (let issues :=
     [ {| ID := "A";
          Dependencies := [ {| IssueID := "A"; DependsOnID := "B";
                               Type_ := DepBlocks |} ] |};
       {| ID := "B";
          Dependencies := [ {| IssueID := "B"; DependsOnID := "C";
                               Type_ := DepBlocks |} ] |};
       {| ID := "C"; Dependencies := [] |} ]%string in
   ∃ a, NewAnalyzer issues = Some a ∧
        topo_order (g a) [0; 1; 2] ∧
        ∀ sorted, topo_order (g a) sorted →
          computeHeights a sorted =
            {[ "A"%string := 3%Q; "B"%string := 2%Q; "C"%string := 1%Q ]}).
Proof.
  assert (∀ (a : Analyzer) (sorted sorted' : list Z),
     topo_order (g a) sorted → topo_order (g a) sorted' →
     (heightsOf a sorted').1 = (heightsOf a sorted).1 ∧
     ((∀ u v, u ∈ nodes (g a) → v ∈ nodes (g a) →
         getString (nodeToID a) u = getString (nodeToID a) v → u = v) →
      computeHeights a sorted' = computeHeights a sorted ∧
      ∀ u, u ∈ nodes (g a) →
        computeHeights a sorted !! getString (nodeToID a) u
        = (heightsOf a sorted).1 !! u)) as Hindep.
  { intros a sorted sorted' Ht Ht'.
    destruct (heightsOf_topo a sorted Ht) as [Hr _].
    destruct (heightsOf_topo a sorted' Ht') as [Hr' _].
    assert ((heightsOf a sorted').1 = (heightsOf a sorted).1) as Heq.
    { eapply height_recurrence_unique; [| | exact Hr' | exact Hr].
      - by apply topo_order_descends.
      - destruct Ht as (_ & Hn & _), Ht' as (_ & Hn' & _).
        intros u. by rewrite Hn, Hn'. }
    split; [done |]. intros Hinj.
    destruct Ht as (Hnd & Hn & _), Ht' as (Hnd' & Hn' & _).
    destruct (computeHeights_lookup a sorted Hnd) as [Hl Hk].
    { intros u v ?%Hn ?%Hn. by apply Hinj. }
    destruct (computeHeights_lookup a sorted' Hnd') as [Hl' Hk'].
    { intros u v ?%Hn' ?%Hn'. by apply Hinj. }
    split; [| intros u ?%Hn; by apply Hl].
    unfold computeHeights. apply map_eq. intros s.
    destruct ((heightsOf a sorted').2 !! s) as [x |] eqn:E.
    - destruct (Hk' s) as (u & Hu & <-); [by eexists |].
      rewrite Hl' in E by done. rewrite Hl by (by apply Hn, Hn').
      by rewrite <- Heq.
    - destruct ((heightsOf a sorted).2 !! s) as [y |] eqn:E'; [| done].
      destruct (Hk s) as (u & Hu & <-); [by eexists |].
      rewrite Hl in E' by done. rewrite Hl' in E by (by apply Hn', Hn).
      rewrite Heq in E. congruence. }
  split.
  - intros a sorted sorted' Ht Ht' H. split; [| by apply Hindep].
    destruct (heightsOf_topo a sorted Ht) as [[Hdom Hrec] Hsucc].
    fold H in Hdom, Hrec, Hsucc.
    intros u Hu. exists (foldl (maxChild H) 0%Q (From (g a) u)).
    assert (u ∈ sorted) as Hus by (by apply Ht).
    destruct (maxChild_is_max H (From (g a) u) 0%Q (Hsucc u Hu))
      as (Hle & Hmax & Hwit).
    split; [by apply Hrec |]. split; [| split].
    + intros v Hv. destruct (Hsucc u Hu v Hv) as [h Hh].
      exists h. split; [done |]. by eapply Hmax.
    + intros Hne. destruct Hwit as [Hm | ?]; [| done]. exfalso.
      destruct (From (g a) u) as [| v l] eqn:E; [done |].
      destruct (Hsucc u Hu v) as [h Hh]; [rewrite E; left |].
      assert (v ∈ sorted) as Hvs by (apply Hdom; by eexists).
      pose proof (Hrec v Hvs) as Hv. rewrite Hh in Hv. injection Hv as ->.
      assert (0 <= foldl (maxChild H) 0 (From (g a) v))%Q as H0.
      { destruct (maxChild_is_max H (From (g a) v) 0%Q) as (? & _); [| done].
        apply Hsucc, Ht, Hvs. }
      specialize (Hmax v _ ltac:(left) Hh). rewrite Hm in Hmax. lra.
    + intros E. rewrite Hrec by done. by rewrite E.
  - intros issues.
    set (a := {| g := {| nodes := {[0; 1; 2]};
                         edges := {[(0, 1); (1, 2)]} |};
                 idToNode := {[ "A"%string := 0; "B"%string := 1;
                                "C"%string := 2 ]};
                 nodeToID := {[ 0 := "A"%string; 1 := "B"%string;
                                2 := "C"%string ]};
                 issueMap := list_to_map ((λ i, (ID i, i)) <$> issues) |}).
    assert (topo_order (g a) [0; 1; 2]) as Hchain by apply chain_topo_order.
    exists a. split; [by vm_compute |]. split; [done |].
    intros sorted Ht.
    destruct (Hindep a [0; 1; 2] sorted Hchain Ht) as [_ Hc].
    destruct Hc as [-> _]; [| by vm_compute].
    cbn [a g nodes nodeToID]. intros u v Hu Hv.
    assert (∀ w : Z, w ∈ ({[0; 1; 2]} : gset Z) → w = 0 ∨ w = 1 ∨ w = 2)
      as Hcases
      by (intros w; rewrite !elem_of_union, !elem_of_singleton; tauto).
    destruct (Hcases u Hu) as [-> | [-> | ->]];
      destruct (Hcases v Hv) as [-> | [-> | ->]]; by vm_compute.
Qed.

Lemma computeHeights_critical_path_witness :
  let a := {| g := {| nodes := {[0; 1; 2]}; edges := {[(0, 1); (1, 2)]} |};
              idToNode := ∅;
              nodeToID := {[ 0 := "A"%string; 1 := "B"%string;
                             2 := "C"%string ]};
              issueMap := ∅ |} in
  topo_order (g a) [0; 1; 2] ∧
  (heightsOf a [0; 1; 2]).1 !! 0 = Some 3%Q.
Proof.
  intros a. split; [apply chain_topo_order |].
  destruct computeHeights_critical_path as [H _].
  destruct (H a [0; 1; 2] [0; 1; 2] chain_topo_order chain_topo_order)
    as (Hrec & _).
  destruct (Hrec 0) as (m & -> & _ & Hw & _); [by vm_compute |].
  destruct Hw as (v & Hv & Hm); [by vm_compute |].
  f_equal. vm_compute in Hv.
  apply list_elem_of_singleton in Hv as ->.
  vm_compute in Hm. by injection Hm as <-.
Defined.

End CriticalPath.

(** ** Analyze *)

Section AnalyzeFacts.
Import Gonum Model Analysis.



Lemma degrees_spec a l : ∀ n, n ∈ l →
  ∃ n', n' ∈ l ∧
    getString (nodeToID a) n' = getString (nodeToID a) n ∧
    (foldl (degreeStep a) (∅, ∅) l).1 !! getString (nodeToID a) n
      = Some (Z.of_nat (length (To (g a) n'))) ∧
    (foldl (degreeStep a) (∅, ∅) l).2 !! getString (nodeToID a) n
      = Some (Z.of_nat (length (From (g a) n'))).
Proof.
  induction l as [| x l IH] using rev_ind; intros n Hn.
  - by apply elem_of_nil in Hn.
  - rewrite foldl_snoc. unfold degreeStep at 1 3. cbn [fst snd].
    destruct (decide (getString (nodeToID a) x = getString (nodeToID a) n))
      as [Heq | Hne].
    + exists x. rewrite Heq, !lookup_insert_eq.
      split; [apply elem_of_app; right; left | done].
    + apply elem_of_app in Hn as [Hn | Hn%list_elem_of_singleton];
        [| by subst].
      destruct (IH n Hn) as (n' & Hn' & Hid & Hin & Hout).
      exists n'. rewrite !lookup_insert_ne by done.
      split; [apply elem_of_app; by left | done].
Qed.

Lemma renameScores_spec a l :
  (∀ n x, (n, x) ∈ l →
     is_Some (renameScores a l !! getString (nodeToID a) n)) ∧
  (∀ s x, renameScores a l !! s = Some x →
     ∃ n, (n, x) ∈ l ∧ getString (nodeToID a) n = s).
Proof.
  unfold renameScores.
  induction l as [| [m y] l [IH1 IH2]] using rev_ind.
  - split; [by intros ? ? ?%elem_of_nil |].
    intros s x Hs. cbn in Hs. by rewrite lookup_empty in Hs.
  - rewrite foldl_snoc. cbn [fst snd]. split.
    + intros n x Hn. apply lookup_insert_is_Some'.
      apply elem_of_app in Hn as [Hn | Hn%list_elem_of_singleton].
      * right. by eapply IH1.
      * left. by injection Hn as -> ->.
    + intros s x Hs. apply lookup_insert_Some in Hs as [[<- <-] | [Hne Hs]].
      * exists m. split; [apply elem_of_app; right; left | done].
      * destruct (IH2 s x Hs) as (n & Hn & <-).
        exists n. split; [apply elem_of_app; by left | done].
Qed.




End AnalyzeFacts.

(** ** ApproxBetweenness: the exact fallback *)

Section FallbackFacts.
Import Gonum Analysis Betweenness.

(** C2: when the sample size is at least the node count, ApproxBetweenness
    returns the scores of the exact routine network.Betweenness (of which
    only this is assumed: on a graph without nodes it returns the empty
    map); on a non-empty graph it reports the exact mode and the node
    count as sample size. *)
Theorem ApproxBetweenness_fallback
    (exact : DirectedGraph → gmap Z Q) (rnd : nat → Z)
    (g : DirectedGraph) (sampleSize : Z) :
  (∀ g', NodesOf g' = [] → exact g' = ∅) →
  Z.of_nat (length (NodesOf g)) ≤ sampleSize →
  ∃ r, ApproxBetweenness exact rnd g sampleSize = Some r ∧
       Scores r = exact g ∧
       (NodesOf g ≠ [] →
          Mode r = Config.BetweennessExact ∧
          SampleSize r = Z.of_nat (length (NodesOf g))).
Proof.
  intros Hexact Hk. unfold ApproxBetweenness.
  destruct (decide (Z.of_nat (length (NodesOf g)) = 0)) as [H0 | H0].
  - eexists. split; [done |]. cbn.
    assert (NodesOf g = []) as Hnil.
    { apply length_zero_iff_nil. lia. }
    split; [by rewrite Hexact | done].
  - destruct (decide (Z.of_nat (length (NodesOf g)) ≤ sampleSize)); [| lia].
    eexists. split; [done |]. by cbn.
Qed.

Lemma ApproxBetweenness_fallback_witness :
  let g := {| nodes := {[0; 1; 2]};
              edges := {[(1, 0); (0, 1); (2, 0); (0, 2)]} |} in
  let exact := λ g', foldl (λ bc s, singleSourceBetweenness g' s bc) ∅
                           (NodesOf g') in
  Z.of_nat (length (NodesOf g)) ≤ 3 ∧
  ∃ r, ApproxBetweenness exact (λ _, 0) g 3 = Some r ∧ Scores r = exact g.
Proof.
  intros g exact. split; [by vm_compute |].
  destruct (ApproxBetweenness_fallback exact (λ _, 0) g 3)
    as (r & Hr & Hs & _).
  - intros g' Hnil. unfold exact. by rewrite Hnil.
  - by vm_compute.
  - by exists r.
Defined.

End FallbackFacts.

(** ** The single-source pass *)

Section PassFacts.
Import Gonum Analysis Betweenness.

#[local] Instance distLe_trans : Transitive distLe.
Proof. intros x y z. unfold distLe. lra. Qed.

#[local] Instance distLe_total : Total distLe.
Proof.
  intros x y. unfold distLe.
  destruct (Qlt_le_dec (dist_ y) (dist_ x)); [right; lra | by left].
Qed.

Lemma sortSlice_perm l : sortSlice l ≡ₚ l.
Proof. apply merge_sort_Permutation. Qed.

Lemma sortSlice_sorted l : StronglySorted distLe (sortSlice l).
Proof. apply StronglySorted_merge_sort; apply _. Qed.

(** *** Initialisation *)

Lemma init_lookup nodes : ∀ s0 k, k ∈ nodes →
  let s := foldl initStep s0 nodes in
  sigma s !! k = Some 0%Q ∧ dist s !! k = Some (-1)%Q ∧
  delta s !! k = Some 0%Q ∧ pred s !! k = Some [].
Proof.
  induction nodes as [| n nodes IH] using rev_ind; intros s0 k Hk.
  - by apply elem_of_nil in Hk.
  - cbn zeta. rewrite foldl_snoc. unfold initStep at 1 3 5 7. cbn.
    destruct (decide (n = k)) as [-> | Hne].
    + by rewrite !lookup_insert_eq.
    + rewrite !lookup_insert_ne by done. apply IH.
      apply elem_of_app in Hk as [? | ?%list_elem_of_singleton]; [done |].
      by subst.
Qed.

Lemma init_lookup_notin nodes : ∀ s0 k, k ∉ nodes →
  let s := foldl initStep s0 nodes in
  sigma s !! k = sigma s0 !! k ∧ dist s !! k = dist s0 !! k ∧
  delta s !! k = delta s0 !! k ∧ pred s !! k = pred s0 !! k.
Proof.
  induction nodes as [| n nodes IH] using rev_ind; intros s0 k Hk.
  - done.
  - cbn zeta. rewrite foldl_snoc. unfold initStep at 1 3 5 7. cbn.
    apply not_elem_of_app in Hk as [Hk Hn].
    apply not_elem_of_cons in Hn as [Hn _].
    rewrite !lookup_insert_ne by done. by apply IH.
Qed.

(** The scratch maps of the source after its first loop. *)
Lemma fresh_init nodes sourceID k :
  let s := setSource sourceID (foldl initStep emptyScratch nodes) in
  sigma s !! sourceID = Some 1%Q ∧
  dist s !! sourceID = Some 0%Q ∧
  (k ≠ sourceID → getQ (sigma s) k = 0%Q) ∧
  getQ (delta s) k = 0%Q ∧
  getIDs (pred s) k = [] ∧
  (k ≠ sourceID → k ∈ nodes → dist s !! k = Some (-1)%Q).
Proof.
  cbn. rewrite !lookup_insert_eq. split; [done |]. split; [done |].
  destruct (decide (k ∈ nodes)) as [Hk | Hk].
  - destruct (init_lookup nodes emptyScratch k Hk) as (Hs & Hd & Hdl & Hp).
    split; [| split; [| split]].
    + intros Hne. unfold getQ. by rewrite lookup_insert_ne, Hs.
    + unfold getQ. by rewrite Hdl.
    + unfold getIDs. by rewrite Hp.
    + intros Hne _. by rewrite lookup_insert_ne.
  - destruct (init_lookup_notin nodes emptyScratch k Hk)
      as (Hs & Hd & Hdl & Hp).
    split; [| split; [| split]].
    + intros Hne. unfold getQ. by rewrite lookup_insert_ne, Hs.
    + unfold getQ. by rewrite Hdl.
    + unfold getIDs. by rewrite Hp.
    + done.
Qed.

(** *** The distance loop and the stack *)

Lemma distPhase_spec pt sourceID nodes : ∀ d0 st0,
  foldl (distStep pt sourceID) (d0, st0) nodes =
    (foldl (λ d nd, <[id nd := dist_ nd]> d) d0 (stackOf pt sourceID nodes),
     st0 ++ stackOf pt sourceID nodes).
Proof.
  induction nodes as [| n nodes IH]; intros d0 st0; cbn.
  - by rewrite app_nil_r.
  - unfold distStep at 2. unfold stackOf. cbn.
    destruct (WeightTo pt n) as [d |]; cbn.
    + destruct (decide (n = sourceID)); cbn.
      * apply IH.
      * rewrite IH. by rewrite <- app_assoc.
    + destruct (decide (n = sourceID)); apply IH.
Qed.

Lemma stackOf_ids pt sourceID nodes nd :
  nd ∈ stackOf pt sourceID nodes →
  id nd ∈ nodes ∧ id nd ≠ sourceID ∧ WeightTo pt (id nd) = Some (dist_ nd).
Proof.
  unfold stackOf. rewrite list_elem_of_omap. intros (n & Hn & Hnd).
  destruct (decide (n = sourceID)); [done |].
  destruct (WeightTo pt n) as [d |] eqn:E; [| done].
  injection Hnd as <-. by cbn.
Qed.

Lemma stackOf_NoDup pt sourceID nodes :
  NoDup nodes → NoDup (id <$> stackOf pt sourceID nodes).
Proof.
  induction 1 as [| n nodes Hn Hnd IH]; [constructor |].
  unfold stackOf. cbn. fold (stackOf pt sourceID nodes).
  destruct (decide (n = sourceID)); [done |].
  destruct (WeightTo pt n) as [d |]; [| done]. cbn.
  apply NoDup_cons. split; [| done].
  intros (nd & Hid & Hin)%list_elem_of_fmap.
  apply stackOf_ids in Hin as (Hin & _). cbn in Hid. by subst.
Qed.

Lemma distFold_lookup (stack : list nodeWithDist) : ∀ d0 : gmap Z Q,
  NoDup (id <$> stack) →
  let d := foldl (λ d nd, <[id nd := dist_ nd]> d) d0 stack in
  (∀ nd, nd ∈ stack → d !! id nd = Some (dist_ nd)) ∧
  (∀ k, k ∉ id <$> stack → d !! k = d0 !! k).
Proof.
  induction stack as [| x stack IH] using rev_ind; intros d0 Hnd.
  - split; [by intros ? ?%elem_of_nil | done].
  - cbn zeta. rewrite foldl_snoc. rewrite fmap_app in Hnd.
    apply NoDup_app in Hnd as (Hnd & Hx & _).
    destruct (IH d0 Hnd) as [Hin Hout]. split.
    + intros nd [Hnd' | ->%list_elem_of_singleton]%elem_of_app.
      * rewrite lookup_insert_ne; [by apply Hin |].
        intros Heq. apply (Hx (id nd)).
        -- apply list_elem_of_fmap. by exists nd.
        -- rewrite <- Heq. cbn. left.
      * apply lookup_insert_eq.
    + intros k Hk. rewrite fmap_app in Hk.
      apply not_elem_of_app in Hk as [Hk Hkx].
      apply not_elem_of_cons in Hkx as [Hkx _].
      rewrite lookup_insert_ne by done. by apply Hout.
Qed.

(** *** Sums over keys *)

Lemma getQ_insert_eq (m : gmap Z Q) k x : getQ (<[k := x]> m) k = x.
Proof. unfold getQ. by rewrite lookup_insert_eq. Qed.

Lemma getQ_insert_ne (m : gmap Z Q) k k' x :
  k ≠ k' → getQ (<[k := x]> m) k' = getQ m k'.
Proof. intros. unfold getQ. by rewrite lookup_insert_ne. Qed.

Lemma getIDs_insert_eq (m : gmap Z (list Z)) k l :
  getIDs (<[k := l]> m) k = l.
Proof. unfold getIDs. by rewrite lookup_insert_eq. Qed.

Lemma sumOver_nil m : sumOver m [] = 0%Q.
Proof. reflexivity. Qed.

Lemma sumOver_cons m k l : sumOver m (k :: l) = (getQ m k + sumOver m l)%Q.
Proof. reflexivity. Qed.

Lemma sumOver_app m l1 l2 :
  (sumOver m (l1 ++ l2) == sumOver m l1 + sumOver m l2)%Q.
Proof.
  induction l1 as [| k l1 IH].
  - rewrite app_nil_l, sumOver_nil. lra.
  - rewrite <- app_comm_cons, !sumOver_cons, IH. lra.
Qed.

Lemma sumOver_agree m m' l :
  (∀ k, k ∈ l → getQ m k == getQ m' k)%Q → (sumOver m l == sumOver m' l)%Q.
Proof.
  induction l as [| k l IH]; intros H; [reflexivity |].
  rewrite !sumOver_cons, (H k) by left. rewrite IH; [lra |].
  intros; apply H; by right.
Qed.

Lemma sumOver_nonneg m l :
  (∀ k, 0 <= getQ m k)%Q → (0 <= sumOver m l)%Q.
Proof.
  intros H. induction l as [| k l IH]; [rewrite sumOver_nil; lra |].
  rewrite sumOver_cons. specialize (H k). lra.
Qed.

Lemma sumOver_elem_le m l k :
  (∀ k, 0 <= getQ m k)%Q → k ∈ l → (getQ m k <= sumOver m l)%Q.
Proof.
  intros H. induction l as [| k' l IH]; [by intros ?%elem_of_nil |].
  rewrite sumOver_cons. intros [-> | Hk]%elem_of_cons.
  - pose proof (sumOver_nonneg m l H). lra.
  - specialize (IH Hk). specialize (H k'). lra.
Qed.

Lemma sumOver_insert_notin m l p x :
  p ∉ l → (sumOver (<[p := x]> m) l == sumOver m l)%Q.
Proof.
  intros Hp. apply sumOver_agree. intros k Hk.
  rewrite getQ_insert_ne; [lra | by intros ->].
Qed.

Lemma sumOver_insert_in m l p x :
  NoDup l → p ∈ l →
  (sumOver (<[p := x]> m) l == sumOver m l - getQ m p + x)%Q.
Proof.
  induction 1 as [| k l Hk Hnd IH]; [by intros ?%elem_of_nil |].
  rewrite !sumOver_cons. intros [-> | Hp]%elem_of_cons.
  - rewrite getQ_insert_eq, sumOver_insert_notin by done. lra.
  - rewrite getQ_insert_ne by (by intros ->). rewrite IH by done. lra.
Qed.

Lemma countLike_0 : countLike 0.
Proof. left. lra. Qed.

Lemma countLike_1 : countLike 1.
Proof. right. lra. Qed.

Lemma countLike_plus x y : countLike x → countLike y → countLike (x + y).
Proof. unfold countLike. intros [? | ?] [? | ?]; [left | right ..]; lra. Qed.

Lemma countLike_nonneg x : countLike x → (0 <= x)%Q.
Proof. intros [? | ?]; lra. Qed.

(** *** The predecessor loop and the sigma loop *)

Lemma predFold_spec (D : gmap Z Q) nid nodeDist l : ∀ pred0,
  let pred1 := foldl (predStep D nid nodeDist) pred0 l in
  (∀ k, k ≠ nid → pred1 !! k = pred0 !! k) ∧
  (∀ p, p ∈ getIDs pred1 nid ↔
        p ∈ getIDs pred0 nid ∨
        (p ∈ l ∧ Qltb (getQ D p) 0 = false ∧
         Qeq_bool (getQ D p + 1) nodeDist = true)).
Proof.
  induction l as [| x l IH] using rev_ind; intros pred0; cbn zeta.
  - split; [done |]. intros p. split; [auto |].
    intros [? | [?%elem_of_nil _]]; done.
  - rewrite foldl_snoc. destruct (IH pred0) as [Hne Hin].
    set (pred1 := foldl (predStep D nid nodeDist) pred0 l) in *.
    unfold predStep at 1 2.
    destruct (Qltb (getQ D x) 0) eqn:E1;
      [| destruct (Qeq_bool (getQ D x + 1) nodeDist) eqn:E2].
    + split; [done |]. intros p. rewrite Hin, elem_of_app.
      rewrite list_elem_of_singleton. split.
      * intros [? | (? & ? & ?)]; [by left | right; auto].
      * intros [? | ([? | ->] & ? & ?)]; [by left | right; auto | congruence].
    + split.
      * intros k Hk. rewrite lookup_insert_ne by done. by apply Hne.
      * intros p. unfold getIDs at 1. rewrite lookup_insert_eq. cbn.
        rewrite !elem_of_app, Hin, list_elem_of_singleton. split.
        -- intros [[? | (? & ? & ?)] | ->]; [by left | right; auto ..].
        -- intros [? | ([? | ->] & ? & ?)];
             [by left; left | left; right; auto | by right].
    + split; [done |]. intros p. rewrite Hin, elem_of_app.
      rewrite list_elem_of_singleton. split.
      * intros [? | (? & ? & ?)]; [by left | right; auto].
      * intros [? | ([? | ->] & ? & ?)]; [by left | right; auto | congruence].
Qed.

Lemma sigmaFold_spec nid ps : ∀ σ : gmap Z Q,
  nid ∉ ps →
  let σ' := foldl (λ sg p, <[nid := (getQ sg nid + getQ sg p)%Q]> sg) σ ps in
  (getQ σ' nid == getQ σ nid + sumOver σ ps)%Q ∧
  (ps ≠ [] → is_Some (σ' !! nid)) ∧
  (∀ k, k ≠ nid → σ' !! k = σ !! k).
Proof.
  induction ps as [| p ps IH] using rev_ind; intros σ Hnid; cbn zeta.
  - rewrite sumOver_nil. split; [cbn; lra | done].
  - rewrite foldl_snoc. apply not_elem_of_app in Hnid as [Hnid Hp].
    apply not_elem_of_cons in Hp as [Hp _].
    destruct (IH σ Hnid) as (Hsum & _ & Hne). split; [| split].
    + rewrite getQ_insert_eq, Hsum, sumOver_app, sumOver_cons, sumOver_nil.
      unfold getQ at 2. rewrite (Hne p) by done. fold (getQ σ p). lra.
    + intros _. rewrite lookup_insert_eq. by eexists.
    + intros k Hk. rewrite lookup_insert_ne by done. by apply Hne.
Qed.

Lemma countLike_proper x y : (x == y)%Q → countLike x → countLike y.
Proof. unfold countLike. intros Heq [? | ?]; [left | right]; lra. Qed.

Lemma countLike_sumOver m l :
  (∀ k, countLike (getQ m k)) → countLike (sumOver m l).
Proof.
  intros H. induction l as [| k l IH]; [apply countLike_0 |].
  rewrite sumOver_cons. by apply countLike_plus.
Qed.

(** *** The pass on fresh scratch maps, up to the sigma loop *)

Section FreshPass.
Context (g : DirectedGraph) (pt : gmap Z nat) (sourceID : Z).

Let ns := NodesOf g.
Let s1 := setSource sourceID (foldl initStep emptyScratch ns).
Let stack := sortSlice (stackOf pt sourceID ns).
Let D := foldl (λ d nd, <[id nd := dist_ nd]> d) (dist s1)
               (stackOf pt sourceID ns).

Lemma passStack_fresh :
  passStack pt sourceID ns s1 =
    ({| sigma := sigma s1; dist := D; delta := delta s1; pred := pred s1 |},
     stack).
Proof. unfold passStack. by rewrite distPhase_spec. Qed.

Lemma stack_elem nd :
  nd ∈ stack ↔ nd ∈ stackOf pt sourceID ns.
Proof. unfold stack. by rewrite sortSlice_perm. Qed.

Lemma stack_ids nd :
  nd ∈ stack → id nd ∈ nodes g ∧ id nd ≠ sourceID.
Proof.
  intros (Hin & Hne & _)%stack_elem%stackOf_ids.
  by apply elem_of_NodesOf in Hin.
Qed.

Lemma stack_NoDup : NoDup (id <$> stack).
Proof.
  unfold stack. rewrite sortSlice_perm.
  apply stackOf_NoDup, NoDup_NodesOf.
Qed.

Lemma stack_length : sourceID ∈ nodes g →
  (S (length stack) ≤ length ns)%nat.
Proof.
  intros Hsrc.
  assert (NoDup (sourceID :: (id <$> stack))) as Hnd.
  { apply NoDup_cons. split; [| apply stack_NoDup].
    intros (nd & Hid & Hin)%list_elem_of_fmap.
    apply stack_ids in Hin as [_ Hne]. by subst. }
  assert (sourceID :: (id <$> stack) ⊆ ns) as Hsub.
  { intros k [-> | (nd & -> & Hin)%list_elem_of_fmap]%elem_of_cons.
    - by apply elem_of_NodesOf.
    - apply elem_of_NodesOf. by apply stack_ids in Hin as [? _]. }
  pose proof (submseteq_length _ _ (NoDup_submseteq _ _ Hnd Hsub)) as Hlen.
  cbn in Hlen. by rewrite length_fmap in Hlen.
Qed.

Lemma D_source : D !! sourceID = Some 0%Q.
Proof.
  unfold D.
  destruct (distFold_lookup (stackOf pt sourceID ns) (dist s1))
    as [_ Hout]; [apply stackOf_NoDup, NoDup_NodesOf |].
  rewrite Hout.
  - apply (fresh_init ns sourceID sourceID).
  - intros (nd & Hid & Hin)%list_elem_of_fmap.
    apply stackOf_ids in Hin as (_ & Hne & _). by subst.
Qed.

Lemma D_stack nd : nd ∈ stack → D !! id nd = Some (dist_ nd).
Proof.
  intros Hin%stack_elem. unfold D.
  destruct (distFold_lookup (stackOf pt sourceID ns) (dist s1))
    as [Hl _]; [apply stackOf_NoDup, NoDup_NodesOf |].
  by apply Hl.
Qed.

Lemma D_other k :
  k ∈ nodes g → k ≠ sourceID → k ∉ id <$> stack → D !! k = Some (-1)%Q.
Proof.
  intros Hk Hne Hout. unfold D.
  destruct (distFold_lookup (stackOf pt sourceID ns) (dist s1))
    as [_ Hl]; [apply stackOf_NoDup, NoDup_NodesOf |].
  rewrite Hl.
  - apply (fresh_init ns sourceID k); [done |]. by apply elem_of_NodesOf.
  - intros Hin. apply Hout. unfold stack. by rewrite sortSlice_perm.
Qed.

Lemma buildInv_init :
  buildInv sourceID D (delta s1) []
    {| sigma := sigma s1; dist := D; delta := delta s1; pred := pred s1 |}.
Proof.
  split; [done |]. split; [done |]. cbn [sigma pred].
  split; [| split; [| split]].
  - intros k. destruct (decide (k = sourceID)) as [-> | Hne].
    + unfold getQ.
      destruct (fresh_init ns sourceID sourceID) as (Hs & _).
      fold s1 in Hs. rewrite Hs. apply countLike_1.
    + destruct (fresh_init ns sourceID k) as (_ & _ & Hs & _).
      fold s1 in Hs. rewrite Hs by done. apply countLike_0.
  - apply (fresh_init ns sourceID sourceID).
  - intros k _ Hne.
    destruct (fresh_init ns sourceID k) as (_ & _ & Hs & _ & Hp & _).
    split; [by apply Hs | exact Hp].
  - intros i nd Hi. by rewrite lookup_nil in Hi.
Qed.

Lemma elem_of_fmap_take (i : nat) (l : list nodeWithDist) p :
  p ∈ id <$> take i l → p ∈ id <$> l.
Proof.
  intros (nd & -> & Hin)%list_elem_of_fmap. apply list_elem_of_fmap.
  exists nd. split; [done |]. by apply (subseteq_take i).
Qed.

(** A step of the sigma loop that changes the maps at the handled node
    only keeps the invariant. *)
Lemma buildInv_extend done nd s s' :
  id nd ≠ sourceID → id nd ∉ id <$> done →
  buildInv sourceID D (delta s1) done s →
  dist s' = D → delta s' = delta s1 →
  (∀ k, k ≠ id nd → sigma s' !! k = sigma s !! k) →
  (∀ k, k ≠ id nd → pred s' !! k = pred s !! k) →
  countLike (getQ (sigma s') (id nd)) →
  (¬ (getQ (sigma s') (id nd) == 0)%Q →
   (sumOver (sigma s) (getIDs (pred s') (id nd))
    == getQ (sigma s') (id nd))%Q) →
  (∀ p, p ∈ getIDs (pred s') (id nd) →
     p = sourceID ∨ p ∈ id <$> done) →
  buildInv sourceID D (delta s1) (done ++ [nd]) s'.
Proof.
  intros Hw_src Hw_done (Hd & Hdl & Hcl & Hsrc & Hfresh & Hdone)
         Hd' Hdl' Hσ Hπ Hclw Hsum Hpreds.
  assert (∀ k, k ≠ id nd → getQ (sigma s') k = getQ (sigma s) k) as HσQ.
  { intros k Hk. unfold getQ. by rewrite Hσ. }
  assert (∀ k, k ≠ id nd → getIDs (pred s') k = getIDs (pred s) k) as HπL.
  { intros k Hk. unfold getIDs. by rewrite Hπ. }
  assert (∀ ps, (∀ p, p ∈ ps → p = sourceID ∨ p ∈ id <$> done) →
            (sumOver (sigma s') ps == sumOver (sigma s) ps)%Q) as Hsame.
  { intros ps Hps. apply sumOver_agree. intros p Hp.
    rewrite HσQ; [lra |]. intros ->.
    destruct (Hps _ Hp) as [? | ?]; done. }
  split; [done |]. split; [done |]. split; [| split; [| split]].
  - intros k. destruct (decide (k = id nd)) as [-> | Hk]; [done |].
    rewrite HσQ by done. apply Hcl.
  - by rewrite Hσ.
  - intros k Hk Hks. rewrite fmap_app in Hk.
    apply not_elem_of_app in Hk as [Hk Hkw].
    apply not_elem_of_cons in Hkw as [Hkw _]. cbn in Hkw.
    rewrite HσQ, HπL by done. by apply Hfresh.
  - intros i nd0 [[Hi Hnd0] | [-> ->]]%lookup_snoc_Some.
    + assert (id nd0 ≠ id nd) as Hne.
      { intros Heq. apply Hw_done. rewrite <- Heq.
        apply list_elem_of_fmap. exists nd0. split; [done |].
        by eapply list_elem_of_lookup_2. }
      destruct (Hdone i nd0 Hnd0) as [Hs Hp].
      rewrite HσQ, HπL by done. rewrite take_app_le by lia. split; [| done].
      intros Hnz. rewrite Hsame; [by apply Hs |].
      intros p Hin. destruct (Hp p Hin) as [? | ?]; [by left |].
      right. by eapply elem_of_fmap_take.
    + rewrite take_app_length. split; [| done].
      intros Hnz. rewrite Hsame by done. by apply Hsum.
Qed.

Lemma buildInv_step done nd todo s :
  stack = done ++ nd :: todo →
  buildInv sourceID D (delta s1) done s →
  buildInv sourceID D (delta s1) (done ++ [nd]) (sigmaStep g sourceID s nd).
Proof.
  intros Hstack Hinv.
  pose proof Hinv as (Hd & Hdl & Hcl & Hsrc & Hfresh & Hdone).
  assert (nd ∈ stack) as Hnd_in.
  { rewrite Hstack. apply elem_of_app. right. left. }
  destruct (stack_ids nd Hnd_in) as [Hw_nodes Hw_src].
  pose proof stack_NoDup as Hnodup.
  rewrite Hstack, fmap_app, fmap_cons in Hnodup.
  apply NoDup_app in Hnodup as (_ & Hdisj & _).
  assert (id nd ∉ id <$> done) as Hw_done.
  { intros Hin. apply (Hdisj _ Hin). left. }
  destruct (Hfresh _ Hw_done Hw_src) as [Hσw Hπw].
  pose proof (sortSlice_sorted (stackOf pt sourceID ns)) as Hsorted.
  fold stack in Hsorted. rewrite Hstack in Hsorted.
  apply StronglySorted_app_1_r, StronglySorted_inv in Hsorted as [_ Hle].
  rewrite Forall_forall in Hle.
  destruct (predFold_spec D (id nd) (dist_ nd) (To g (id nd)) (pred s))
    as [Hπne Hπin].
  assert (∀ p, p ∈ getIDs (foldl (predStep D (id nd) (dist_ nd)) (pred s)
                             (To g (id nd))) (id nd) →
            p = sourceID ∨ p ∈ id <$> done) as Hpreds.
  { intros p [Hp | (Hp & Hneg & Heq)]%Hπin;
      [rewrite Hπw in Hp; by apply elem_of_nil in Hp |].
    destruct (decide (p = sourceID)) as [| Hps]; [by left | right].
    apply elem_of_To in Hp as [_ Hp].
    destruct (decide (p ∈ id <$> stack)) as [Hin | Hout].
    - apply list_elem_of_fmap in Hin as (nd' & -> & Hnd').
      unfold getQ in Hneg, Heq. rewrite (D_stack nd' Hnd') in Hneg, Heq.
      cbn in Hneg, Heq. apply Qeq_bool_iff in Heq.
      rewrite Hstack in Hnd'. apply elem_of_app in Hnd' as [Hnd' | Hnd'].
      + apply list_elem_of_fmap. by exists nd'.
      + exfalso. assert (distLe nd nd') as Hdl'.
        { apply elem_of_cons in Hnd' as [-> | Hnd'];
            [unfold distLe; lra | by apply Hle]. }
        unfold distLe in Hdl'. lra.
    - exfalso. unfold getQ in Hneg. rewrite (D_other p Hp Hps Hout) in Hneg.
      by vm_compute in Hneg. }
  assert (id nd ∉ getIDs (foldl (predStep D (id nd) (dist_ nd)) (pred s)
                            (To g (id nd))) (id nd)) as Hself.
  { intros [? | ?]%Hpreds; done. }
  unfold sigmaStep. rewrite Hd.
  set (pred1 := foldl (predStep D (id nd) (dist_ nd)) (pred s)
                      (To g (id nd))) in *.
  destruct (decide (0 < length (getIDs pred1 (id nd)))%nat) as [Hlen | Hlen].
  - destruct (sigmaFold_spec (id nd) (getIDs pred1 (id nd)) (sigma s) Hself)
      as (Hsum & _ & Hσne).
    apply buildInv_extend with (s := s); cbn [sigma dist delta pred];
      try done.
    + apply (countLike_proper _ _ (Qeq_sym _ _ Hsum)).
      apply countLike_plus; [apply Hcl | by apply countLike_sumOver].
    + intros _. rewrite Hsum, Hσw. lra.
  - destruct (decide (id nd ≠ sourceID)) as [_ | ?]; [| done].
    assert (getIDs pred1 (id nd) = []) as Hnil.
    { destruct (getIDs pred1 (id nd)); [done | cbn in Hlen; lia]. }
    destruct (decide (sourceID ∈ To g (id nd))) as [Hdirect | Hdirect].
    + apply buildInv_extend with (s := s); cbn [sigma dist delta pred];
        try done.
      * intros k Hk. by rewrite lookup_insert_ne.
      * intros k Hk. rewrite lookup_insert_ne by done. by apply Hπne.
      * rewrite getQ_insert_eq. apply countLike_1.
      * intros _. rewrite getIDs_insert_eq.
        rewrite sumOver_cons, sumOver_nil, getQ_insert_eq.
        unfold getQ. rewrite Hsrc. cbn. lra.
      * intros p. rewrite getIDs_insert_eq.
        intros ->%list_elem_of_singleton. by left.
    + apply buildInv_extend with (s := s); cbn [sigma dist delta pred];
        try done.
      intros Hnz. exfalso. apply Hnz. rewrite Hσw. lra.
Qed.

Lemma buildInv_all : ∀ todo done s,
  stack = done ++ todo →
  buildInv sourceID D (delta s1) done s →
  buildInv sourceID D (delta s1) stack (foldl (sigmaStep g sourceID) s todo).
Proof.
  induction todo as [| nd todo IH]; intros done s Hstack Hinv.
  - rewrite app_nil_r in Hstack. by subst.
  - cbn. apply (IH (done ++ [nd])).
    + by rewrite <- app_assoc.
    + by eapply buildInv_step.
Qed.

(** The state of the fresh pass when the accumulation starts. *)
Lemma buildPhase_fresh :
  let r := buildPhase (foldl initStep emptyScratch ns) g pt sourceID ns in
  r.2 = stack ∧ buildInv sourceID D (delta s1) stack r.1.
Proof.
  unfold buildPhase. fold s1. rewrite passStack_fresh. cbn. split; [done |].
  apply (buildInv_all stack []); [done | apply buildInv_init].
Qed.

End FreshPass.

Section Accumulation.
Import Gonum Analysis Betweenness.

Lemma lenQ_nil {A} : lenQ (@nil A) = 0%Q.
Proof. reflexivity. Qed.

Lemma lenQ_snoc {A} (l : list A) x : (lenQ (l ++ [x]) == lenQ l + 1)%Q.
Proof.
  unfold lenQ, float64. rewrite length_app, Nat2Z.inj_add, inject_Z_plus.
  reflexivity.
Qed.

Lemma lenQ_nonneg {A} (l : list A) : (0 <= lenQ l)%Q.
Proof.
  unfold lenQ, float64. change 0%Q with (inject_Z 0).
  rewrite <- Zle_Qle. lia.
Qed.

Lemma lenQ_le {A B} (l : list A) (k : list B) :
  (length l ≤ length k)%nat → (lenQ l <= lenQ k)%Q.
Proof. intros H. unfold lenQ, float64. rewrite <- Zle_Qle. lia. Qed.

Lemma deltaFold_spec (σ : gmap Z Q) w ps : ∀ δ : gmap Z Q,
  w ∉ ps → (0 < getQ σ w)%Q →
  let δ' := foldl (deltaStep σ w) δ ps in
  (∀ k, k ∉ ps → δ' !! k = δ !! k) ∧
  ((∀ k, 0 <= getQ σ k)%Q → (∀ k, 0 <= getQ δ k)%Q →
   ∀ k, (0 <= getQ δ' k)%Q) ∧
  (∀ L, NoDup L → (∀ p, p ∈ ps → p ∈ L) →
     (sumOver δ' L ==
      sumOver δ L + (sumOver σ ps / getQ σ w) * (1 + getQ δ w))%Q).
Proof.
  intros δ Hw Hpos.
  induction ps as [| p ps IH] using rev_ind; cbn zeta.
  - split; [done |]. split; [done |]. intros L _ _.
    change (foldl (deltaStep σ w) δ []) with δ.
    rewrite sumOver_nil. unfold Qdiv. ring.
  - apply not_elem_of_app in Hw as [Hw Hwp].
    apply not_elem_of_cons in Hwp as [Hwp _].
    destruct (IH Hw) as (Hout & Hnn & Hsum).
    rewrite foldl_snoc.
    set (δ' := foldl (deltaStep σ w) δ ps) in *.
    assert (getQ δ' w = getQ δ w) as Hδw.
    { unfold getQ. by rewrite Hout. }
    unfold deltaStep. unfold Qgtb.
    assert (Qltb 0 (getQ σ w) = true) as -> by (by apply Qltb_lt).
    split; [| split].
    + intros k Hk. apply not_elem_of_app in Hk as [Hk Hkp].
      apply not_elem_of_cons in Hkp as [Hkp _].
      rewrite lookup_insert_ne by done. by apply Hout.
    + intros Hσ Hδ k. specialize (Hnn Hσ Hδ).
      destruct (decide (p = k)) as [-> | Hne].
      * rewrite getQ_insert_eq.
        assert (0 <= getQ σ k / getQ σ w)%Q.
        { apply Qle_shift_div_l; [done |]. specialize (Hσ k). lra. }
        pose proof (Hnn k). pose proof (Hnn w).
        assert (0 <= (getQ σ k / getQ σ w) * (1 + getQ δ' w))%Q
          by (apply Qmult_le_0_compat; lra).
        lra.
      * rewrite getQ_insert_ne by done. apply Hnn.
    + intros L HL Hps.
      assert (p ∈ L) as HpL by (apply Hps, elem_of_app; right; left).
      assert (∀ q, q ∈ ps → q ∈ L) as Hps'
        by (intros; apply Hps, elem_of_app; by left).
      rewrite (sumOver_insert_in _ _ _ _ HL HpL), (Hsum L HL Hps').
      rewrite sumOver_app, sumOver_cons, sumOver_nil, Hδw.
      unfold Qdiv. ring.
Qed.

Lemma foldl_cons_eq {A B} (f : A → B → A) a x l :
  foldl f a (x :: l) = foldl f (f a x) l.
Proof. reflexivity. Qed.

Lemma sumOver_zero (m : gmap Z Q) l :
  (∀ k, getQ m k = 0%Q) → (sumOver m l == 0)%Q.
Proof.
  intros H. induction l as [| k l IH]; [by rewrite sumOver_nil |].
  rewrite sumOver_cons, H, IH. lra.
Qed.

Section Bound.
Context (g : DirectedGraph) (sourceID : Z)
        (σ : gmap Z Q) (π : gmap Z (list Z)) (stack : list nodeWithDist).
Context (Hσ : ∀ k, countLike (getQ σ k)).
Context (Hsrc : ∀ nd, nd ∈ stack → id nd ≠ sourceID).
Context (Hnodup : NoDup (id <$> stack)).
Context (Hpreds : ∀ i nd, stack !! i = Some nd →
           (¬ (getQ σ (id nd) == 0)%Q →
            (sumOver σ (getIDs π (id nd)) == getQ σ (id nd))%Q) ∧
           (∀ p, p ∈ getIDs π (id nd) →
              p = sourceID ∨ p ∈ id <$> take i stack)).

Lemma accumulate_bound : ∀ pre post, stack = pre ++ post →
  ∀ s bc j, accInv sourceID σ π pre j s →
  let r := foldl (accumulateStep sourceID) (s, bc) (reverse (id <$> pre)) in
  (∀ k, k ∉ id <$> pre → r.2 !! k = bc !! k) ∧
  (∀ k, k ∈ id <$> pre →
     r.2 !! k = bc !! k ∨
     ∃ x, r.2 !! k = Some x ∧
          (getQ bc k <= x)%Q ∧ (x <= getQ bc k + (j + lenQ pre - 1))%Q).
Proof.
  induction pre as [| nd pre IH] using rev_ind;
    intros post Hstack s bc j (Hs & Hp & Hnn & Hsum).
  - cbn. split; [done |]. by intros ? ?%elem_of_nil.
  - cbn zeta. rewrite fmap_app. cbn [fmap list_fmap].
    rewrite reverse_snoc, foldl_cons_eq.
    rewrite <- app_assoc in Hstack. cbn in Hstack.
    assert (stack !! length pre = Some nd) as Hlook.
    { rewrite Hstack. by apply list_lookup_middle. }
    assert (nd ∈ stack) as Hin by (by eapply list_elem_of_lookup_2).
    pose proof (Hsrc nd Hin) as Hw_src.
    assert (NoDup (id <$> pre) ∧ id nd ∉ id <$> pre) as [Hnd_pre Hw_pre].
    { pose proof Hnodup as Hnd. rewrite Hstack, fmap_app, fmap_cons in Hnd.
      apply NoDup_app in Hnd as (Hnd_pre & Hdisj & _). split; [done |].
      intros Hin'. apply (Hdisj _ Hin'). left. }
    destruct (Hpreds _ _ Hlook) as [Hsumσ Hπ].
    assert (take (length pre) stack = pre) as Htake.
    { rewrite Hstack. apply take_app_length. }
    rewrite Htake in Hπ.
    assert (sumOver (delta s) (sourceID :: (id <$> pre ++ [nd]))
            == sumOver (delta s) (sourceID :: (id <$> pre))
               + getQ (delta s) (id nd))%Q as Hsplit.
    { rewrite fmap_app, !sumOver_cons, sumOver_app. cbn [fmap list_fmap].
      rewrite sumOver_cons, sumOver_nil. lra. }
    pose proof (Hnn (id nd)) as Hδw0. pose proof (lenQ_snoc pre nd) as Hlen.
    pose proof (lenQ_nonneg pre) as Hlen0.
    assert (0 <= sumOver (delta s) (sourceID :: (id <$> pre)))%Q as Hsum0
      by (by apply sumOver_nonneg).
    remember (accumulateStep sourceID (s, bc) (id nd)) as st eqn:Hst.
    unfold accumulateStep in Hst. cbn [fst snd] in Hst.
    rewrite Hs, Hp in Hst.
    destruct (Qeq_bool (getQ σ (id nd)) 0) eqn:Ez; subst st.
    + destruct (IH (nd :: post) Hstack s bc j) as [Hout Hin'].
      { split; [done |]. split; [done |]. split; [done |]. lra. }
      split.
      * intros k Hk. apply Hout. intros Hk'. apply Hk.
        apply elem_of_app. by left.
      * intros k Hk.
        apply elem_of_app in Hk as [Hk | Hk%list_elem_of_singleton].
        -- destruct (Hin' k Hk) as [? | (x & Hx & Hlo & Hhi)]; [by left |].
           right. exists x. split; [done |]. split; [done |]. lra.
        -- left. subst k. by apply Hout.
    + apply Qeq_bool_neq in Ez.
      assert (1 <= getQ σ (id nd))%Q as Hσw.
      { destruct (Hσ (id nd)) as [? | ?]; [done | lra]. }
      assert (id nd ∉ getIDs π (id nd)) as Hself.
      { intros [? | ?]%Hπ; done. }
      destruct (deltaFold_spec σ (id nd) (getIDs π (id nd)) (delta s) Hself)
        as (Hout & Hnn' & Hsum'); [lra |].
      set (δ' := foldl (deltaStep σ (id nd)) (delta s) (getIDs π (id nd)))
        in *.
      assert (getQ δ' (id nd) = getQ (delta s) (id nd)) as Hδw.
      { unfold getQ. by rewrite Hout. }
      destruct (decide (id nd ≠ sourceID)) as [_ | ?]; [| done].
      destruct (IH (nd :: post) Hstack
                  {| sigma := σ; dist := dist s; delta := δ'; pred := π |}
                  (<[id nd := (getQ bc (id nd) + getQ δ' (id nd))%Q]> bc)
                  (j + 1)%Q) as [Hout' Hin'].
      { split; [done |]. split; [done |]. cbn [delta]. split.
        - apply Hnn'; [| done]. intros k. apply countLike_nonneg, Hσ.
        - rewrite Hsum'.
          + rewrite (Hsumσ Ez).
            assert (getQ σ (id nd) / getQ σ (id nd) == 1)%Q as ->
              by (field; lra).
            lra.
          + apply NoDup_cons. split; [| done].
            intros (nd' & Heq & Hnd')%list_elem_of_fmap.
            apply (Hsrc nd'); [| done]. rewrite Hstack.
            apply elem_of_app. by left.
          + intros p [-> | Hp']%Hπ; [left | by right]. }
      assert (getQ (delta s) (id nd) <= j)%Q as Hδw_j by lra.
      split.
      * intros k Hk.
        apply not_elem_of_app in Hk as [Hk Hkw].
        apply not_elem_of_cons in Hkw as [Hkw _]. cbn in Hkw.
        rewrite Hout' by done. by rewrite lookup_insert_ne.
      * intros k Hk.
        apply elem_of_app in Hk as [Hk | Hk%list_elem_of_singleton].
        -- assert (id nd ≠ k) as Hne by (by intros <-).
           destruct (Hin' k Hk) as [Heq | (x & Hx & Hlo & Hhi)].
           ++ left. by rewrite lookup_insert_ne in Heq.
           ++ rewrite getQ_insert_ne in Hlo, Hhi by done.
              right. exists x. split; [done |]. split; [done |]. lra.
        -- subst k. right. rewrite Hout' by done. rewrite lookup_insert_eq.
           eexists. split; [done |]. rewrite Hδw. split; lra.
Qed.

End Bound.

(** One pass from a node of the graph raises no score by more than n - 2,
    lowers none, and leaves the nodes outside its stack alone. *)
Lemma singleSource_bound g source (bc : gmap Z Q) k :
  source ∈ nodes g →
  singleSourceBetweenness g source bc !! k = bc !! k ∨
  ∃ x, singleSourceBetweenness g source bc !! k = Some x ∧
       (getQ bc k <= x)%Q ∧ (x <= getQ bc k + (lenQ (NodesOf g) - 2))%Q.
Proof.
  intros Hsrc. unfold singleSourceBetweenness, passFrom.
  pose proof (buildPhase_fresh g (DijkstraFrom source g) source)
    as [Hstack Hinv].
  cbn zeta in Hstack, Hinv.
  set (r := buildPhase (foldl initStep emptyScratch (NodesOf g)) g
                       (DijkstraFrom source g) source (NodesOf g)) in *.
  destruct Hinv as (_ & Hδ & Hcl & _ & _ & Hpreds).
  destruct (accumulate_bound source (sigma r.1) (pred r.1) r.2)
    with (pre := r.2) (post := @nil nodeWithDist) (s := r.1) (bc := bc)
         (j := 0%Q) as [Hout Hin].
  - done.
  - intros nd Hnd. rewrite Hstack in Hnd.
    by apply stack_ids in Hnd as [_ ?].
  - rewrite Hstack. apply stack_NoDup.
  - by rewrite Hstack.
  - by rewrite app_nil_r.
  - split; [done |]. split; [done |].
    assert (∀ k, getQ (delta r.1) k = 0%Q) as Hz.
    { intros k'. rewrite Hδ. apply (fresh_init (NodesOf g) source k'). }
    split; [intros k'; rewrite Hz; lra |].
    rewrite (sumOver_zero _ _ Hz). lra.
  - destruct (decide (k ∈ id <$> r.2)) as [Hk | Hk]; [| left; by apply Hout].
    destruct (Hin k Hk) as [? | (x & Hx & Hlo & Hhi)]; [by left |].
    right. exists x. split; [done |]. split; [done |].
    assert (lenQ r.2 + 1 <= lenQ (NodesOf g))%Q.
    { rewrite Hstack. pose proof (stack_length g (DijkstraFrom source g)
                                    source Hsrc) as Hlen.
      unfold lenQ, float64. change 1%Q with (inject_Z 1).
      rewrite <- inject_Z_plus, <- Zle_Qle. lia. }
    lra.
Qed.

End Accumulation.

End PassFacts.

(** ** ApproxBetweenness: the sampled scores *)

Section SampledFacts.
Import Gonum Analysis Betweenness.

Lemma swap_perm l i j : swap l i j ≡ₚ l.
Proof.
  unfold swap. destruct (l !! i) as [x |] eqn:Ei; [| done].
  destruct (l !! j) as [y |] eqn:Ej; [| done].
  by apply Permutation_insert_swap.
Qed.

Lemma shuffle_perm rnd is_ : ∀ l, foldl (shuffleStep rnd) l is_ ≡ₚ l.
Proof.
  induction is_ as [| i is_ IH]; intros l; [done |]. cbn.
  rewrite IH. unfold shuffleStep. apply swap_perm.
Qed.

Lemma sampleNodes_spec rnd nodes k pivots :
  sampleNodes rnd nodes k = Some pivots →
  0 ≤ k < Z.of_nat (length nodes) →
  length pivots = Z.to_nat k ∧ ∀ p, p ∈ pivots → p ∈ nodes.
Proof.
  unfold sampleNodes. intros Hs Hk.
  destruct (decide (Z.of_nat (length nodes) ≤ k)); [lia |].
  destruct (decide (k < 0)); [lia |]. injection Hs as <-.
  pose proof (shuffle_perm rnd (seq 0 (Z.to_nat k)) nodes) as Hperm.
  split.
  - rewrite length_take_le; [done |]. rewrite Hperm. lia.
  - intros p Hp. rewrite <- Hperm. by eapply subseteq_take.
Qed.

Lemma lenQ_cons {A} (x : A) l : (lenQ (x :: l) == lenQ l + 1)%Q.
Proof.
  unfold lenQ, float64. cbn [length].
  rewrite Nat2Z.inj_succ, <- Z.add_1_r, inject_Z_plus. reflexivity.
Qed.

Lemma pivots_bound g pivots : ∀ (bc : gmap Z Q) (B : Q),
  (∀ p, p ∈ pivots → p ∈ nodes g) →
  (2 <= lenQ (NodesOf g))%Q →
  (∀ k, 0 <= getQ bc k ∧ getQ bc k <= B)%Q →
  ∀ k, (0 <= getQ (foldl (λ bc pivot, singleSourceBetweenness g pivot bc)
                         bc pivots) k
        ∧ getQ (foldl (λ bc pivot, singleSourceBetweenness g pivot bc)
                      bc pivots) k
          <= B + lenQ pivots * (lenQ (NodesOf g) - 2))%Q.
Proof.
  induction pivots as [| p pivots IH]; intros bc B Hp Hn Hbc k.
  - change (0 <= getQ bc k
            ∧ getQ bc k <= B + 0 * (lenQ (NodesOf g) - 2))%Q.
    specialize (Hbc k). lra.
  - rewrite foldl_cons_eq.
    destruct (IH (singleSourceBetweenness g p bc)
                 (B + (lenQ (NodesOf g) - 2))%Q) with (k := k) as [Hlo Hhi].
    + intros q Hq. apply Hp. by right.
    + done.
    + intros k'. specialize (Hbc k').
      destruct (singleSource_bound g p bc k') as [Heq | (x & Hx & Hl & Hh)].
      * apply Hp. left.
      * unfold getQ at 1 2. rewrite Heq. fold (getQ bc k'). lra.
      * unfold getQ at 1 2. rewrite Hx. cbn. lra.
    + split; [done |]. rewrite lenQ_cons. lra.
Qed.

(** Without rounding: with a sample size of at least 1 and below the node
    count n, the scores of the sampled path computed over the rationals
    all lie between 0 and n (n - 2).  In binary64 rounding breaks the
    upper bound, see [ApproxBetweenness_binary64_rounding]. *)
Lemma ApproxBetweenness_exact_arithmetic_bound
    (exact : DirectedGraph → gmap Z Q) (rnd : nat → Z)
    (g : DirectedGraph) (sampleSize : Z) :
  1 ≤ sampleSize < Z.of_nat (length (NodesOf g)) →
  ∃ r, ApproxBetweenness exact rnd g sampleSize = Some r ∧
       Mode r = Config.BetweennessApproximate ∧
       ∀ nid x, Scores r !! nid = Some x →
         (0 <= x ∧ x <= lenQ (NodesOf g) * (lenQ (NodesOf g) - 2))%Q.
Proof.
  intros Hk. unfold ApproxBetweenness.
  destruct (decide (Z.of_nat (length (NodesOf g)) = 0)); [lia |].
  destruct (decide (Z.of_nat (length (NodesOf g)) ≤ sampleSize)); [lia |].
  destruct (sampleNodes rnd (NodesOf g) sampleSize) as [pivots |] eqn:Es.
  2: { unfold sampleNodes in Es.
       destruct (decide (Z.of_nat (length (NodesOf g)) ≤ sampleSize));
         [done |].
       destruct (decide (sampleSize < 0)); [lia | done]. }
  apply sampleNodes_spec in Es as [Hlen Hin]; [| lia].
  eexists. split; [done |]. cbn. split; [done |].
  intros nid x Hx. rewrite lookup_fmap in Hx.
  destruct (foldl (λ bc pivot, singleSourceBetweenness g pivot bc) ∅ pivots
              !! nid) as [y |] eqn:Ey; [| done].
  cbn in Hx. injection Hx as <-.
  assert (2 <= lenQ (NodesOf g))%Q as Hn.
  { unfold lenQ, float64. change 2%Q with (inject_Z 2).
    rewrite <- Zle_Qle. lia. }
  destruct (pivots_bound g pivots ∅ 0%Q) with (k := nid) as [Hlo Hhi].
  - intros p Hp. by apply elem_of_NodesOf, Hin.
  - done.
  - intros k. unfold getQ. rewrite lookup_empty. cbn. lra.
  - unfold getQ in Hlo, Hhi. rewrite Ey in Hlo, Hhi. cbn in Hlo, Hhi.
    assert (lenQ pivots == float64 sampleSize)%Q as HK.
    { unfold lenQ. rewrite Hlen, Z2Nat.id by lia. reflexivity. }
    rewrite HK in Hhi.
    assert (1 <= float64 sampleSize)%Q as HK1.
    { unfold float64. change 1%Q with (inject_Z 1).
      rewrite <- Zle_Qle. lia. }
    fold (lenQ (NodesOf g)).
    set (N := lenQ (NodesOf g)) in *. set (K := float64 sampleSize) in *.
    assert (0 <= N / K)%Q as Hscale by (apply Qle_shift_div_l; lra).
    split; [apply Qmult_le_0_compat; lra |].
    apply Qle_trans with ((0 + K * (N - 2)) * (N / K))%Q.
    + by apply Qmult_le_compat_r.
    + assert ((0 + K * (N - 2)) * (N / K) == N * (N - 2))%Q as ->
        by (field; lra).
      lra.
Qed.

End SampledFacts.

(** ** ApproxBetweenness in binary64: the sign of the scores *)

Section Binary64Facts.
Import PrimFloat SpecFloat.
Import Gonum Analysis Betweenness64.

Let allNN (m : gmap Z float) : Prop := map_Forall (λ _ x, notNeg x) m.
Let stateNN (s : Scratch) : Prop := allNN (sigma s) ∧ allNN (delta s).

(** *** Rounding keeps the sign *)

Lemma round_aux_sign sx mx ex lx :
  signIs sx (binary_round_aux FloatOps.prec FloatOps.emax sx mx ex lx).
Proof.
  unfold binary_round_aux.
  destruct (shr_fexp FloatOps.prec FloatOps.emax mx ex lx) as [mrs' e'].
  destruct (shr_fexp FloatOps.prec FloatOps.emax _ e' loc_Exact)
    as [mrs'' e''].
  destruct (shr_m mrs''); [done | | done].
  by destruct (Z.leb e'' (FloatOps.emax - FloatOps.prec)).
Qed.

Lemma round_sign sx mx ex :
  signIs sx (binary_round FloatOps.prec FloatOps.emax sx mx ex).
Proof.
  unfold binary_round. destruct (shl_align _ _ _) as [mz ez].
  apply round_aux_sign.
Qed.

Lemma notNeg_zero : notNeg 0%float.
Proof. by vm_compute. Qed.

Lemma notNeg_one : notNeg 1%float.
Proof. by vm_compute. Qed.

Lemma notNeg_add x y : notNeg x → notNeg y → notNeg (x + y)%float.
Proof.
  unfold notNeg. rewrite FloatAxioms.add_spec.
  unfold FloatAxioms.SF64add, SFadd.
  destruct (FloatOps.Prim2SF x) as [sx | sx | | sx mx ex],
           (FloatOps.Prim2SF y) as [sy | sy | | sy my ey]; cbn; try done;
    intros -> ->; try done.
  apply round_sign.
Qed.

Lemma notNeg_mul x y : notNeg x → notNeg y → notNeg (x * y)%float.
Proof.
  unfold notNeg. rewrite FloatAxioms.mul_spec.
  unfold FloatAxioms.SF64mul, SFmul.
  destruct (FloatOps.Prim2SF x) as [sx | sx | | sx mx ex],
           (FloatOps.Prim2SF y) as [sy | sy | | sy my ey]; cbn; try done;
    intros -> ->; try done.
  apply round_aux_sign.
Qed.

Lemma notNeg_div x y : notNeg x → notNeg y → notNeg (x / y)%float.
Proof.
  unfold notNeg. rewrite FloatAxioms.div_spec.
  unfold FloatAxioms.SF64div, SFdiv.
  destruct (FloatOps.Prim2SF x) as [sx | sx | | sx mx ex],
           (FloatOps.Prim2SF y) as [sy | sy | | sy my ey]; cbn; try done;
    intros -> ->; try done.
  destruct (SFdiv_core_binary _ _ _ _ _ _) as [[mz ez] lz].
  apply round_aux_sign.
Qed.

Lemma notNeg_of_int i : 0 ≤ i → notNeg (Float64.of_int i).
Proof.
  intros Hi. unfold Float64.of_int.
  destruct (Z.ltb_spec i 0); [lia |].
  unfold notNeg. rewrite FloatAxioms.of_uint63_spec. unfold binary_normalize.
  pose proof (Uint63.to_Z_bounded (Uint63.of_Z i)) as Hb.
  destruct (Uint63.to_Z (Uint63.of_Z i)) as [| p | p];
    [done | apply round_sign | lia].
Qed.

(** A value that is not negative does not compare below zero. *)
Lemma notNeg_ltb x : notNeg x → (x <? 0)%float = false.
Proof.
  unfold notNeg. rewrite FloatAxioms.ltb_spec.
  change (FloatOps.Prim2SF 0) with (S754_zero false).
  unfold SFltb, SFcompare.
  destruct (FloatOps.Prim2SF x) as [sx | sx | | sx mx ex]; cbn; try done;
    by intros ->.
Qed.

(** *** The maps of the pass hold no negative value *)

Lemma allNN_get m k : allNN m → notNeg (Float64.get m k).
Proof.
  intros Hm. unfold Float64.get.
  destruct (m !! k) as [x |] eqn:E; [by apply (Hm k) | apply notNeg_zero].
Qed.

Lemma allNN_insert m k x : allNN m → notNeg x → allNN (<[k := x]> m).
Proof. intros Hm Hx. by apply map_Forall_insert_2. Qed.

Lemma foldl_keeps {A B} (P : A → Prop) (f : A → B → A) l : ∀ a,
  (∀ a b, P a → P (f a b)) → P a → P (foldl f a l).
Proof.
  induction l as [| b l IH]; intros a Hf Ha; [done |].
  cbn. apply IH; [done |]. by apply Hf.
Qed.

Lemma initStep_notNeg s nid : stateNN s → stateNN (initStep s nid).
Proof.
  intros [Hs Hd]. split; cbn; apply allNN_insert; auto using notNeg_zero.
Qed.

Lemma sigmaStep_notNeg g sourceID s nd :
  stateNN s → stateNN (sigmaStep g sourceID s nd).
Proof.
  intros [Hs Hd]. unfold sigmaStep.
  destruct (decide (0 < length _)%nat).
  - split; [| done]. cbn. apply (foldl_keeps allNN); [| done].
    intros sg p Hsg. apply allNN_insert; [done |].
    apply notNeg_add; by apply allNN_get.
  - destruct (decide (id nd ≠ sourceID)); [| done].
    destruct (decide (sourceID ∈ To g (id nd))); [| done].
    split; [| done]. cbn. apply allNN_insert; [done | apply notNeg_one].
Qed.

Lemma buildPhase_notNeg s0 g pt sourceID nodes :
  stateNN s0 → stateNN (buildPhase s0 g pt sourceID nodes).1.
Proof.
  intros [Hs Hd]. unfold buildPhase, passStack. cbn.
  apply (foldl_keeps stateNN); [intros; by apply sigmaStep_notNeg |].
  split; cbn; [| done]. apply allNN_insert; [done | apply notNeg_one].
Qed.

Lemma deltaStep_notNeg σ nid δ pid :
  allNN σ → allNN δ → allNN (deltaStep σ nid δ pid).
Proof.
  intros Hs Hd. unfold deltaStep.
  destruct (0 <? Float64.get σ nid)%float; [| done].
  apply allNN_insert; [done |].
  apply notNeg_add; [by apply allNN_get |].
  apply notNeg_mul.
  - apply notNeg_div; by apply allNN_get.
  - apply notNeg_add; [apply notNeg_one | by apply allNN_get].
Qed.

Lemma accumulateStep_notNeg sourceID st nid :
  stateNN st.1 ∧ allNN st.2 →
  stateNN (accumulateStep sourceID st nid).1 ∧
  allNN (accumulateStep sourceID st nid).2.
Proof.
  intros [[Hs Hd] Hbc]. unfold accumulateStep.
  destruct (Float64.get (sigma st.1) nid =? 0)%float; [done |].
  assert (allNN (foldl (deltaStep (sigma st.1) nid) (delta st.1)
                       (getIDs (pred st.1) nid))) as Hd'.
  { apply (foldl_keeps allNN); [| done].
    intros δ p Hδ. by apply deltaStep_notNeg. }
  cbn. split; [done |].
  destruct (decide (nid ≠ sourceID)); [| done].
  apply allNN_insert; [done |]. apply notNeg_add; by apply allNN_get.
Qed.

Lemma singleSource_notNeg g source bc :
  allNN bc → allNN (singleSourceBetweenness g source bc).
Proof.
  intros Hbc. unfold singleSourceBetweenness, passFrom.
  apply (foldl_keeps (λ st, stateNN st.1 ∧ allNN st.2)).
  - intros st nid. apply accumulateStep_notNeg.
  - split; [| done]. apply buildPhase_notNeg.
    apply (foldl_keeps stateNN); [intros; by apply initStep_notNeg |].
    split; cbn; apply map_Forall_empty.
Qed.

(** C8 (counterexample): three nodes, node 0 joined to nodes 1 and 2 by
    edges in both directions, sample size 1, the draw picking node 1 as
    the only pivot.  Every operation of the pass is exact on this input;
    the score of node 0 is 3, above (n - 1)(n - 2) = 2. *)
Lemma ApproxBetweenness_binary64_above_bound :
  let g := {| nodes := {[0; 1; 2]};
              edges := {[(1, 0); (0, 1); (2, 0); (0, 2)]} |} in
  Z.of_nat (length (NodesOf g)) = 3 ∧
  Betweenness.sampleNodes (λ _, 1) (NodesOf g) 1 = Some [1] ∧
  ∃ r, ApproxBetweenness (λ _, ∅) (λ _, 1) g 1 = Some r ∧
       Scores r !! 0 = Some 3%float ∧
       (3 <=? Float64.of_int ((3 - 1) * (3 - 2)))%float = false.
Proof.
  intros g. split; [by vm_compute |]. split; [by vm_compute |].
  eexists. split; [vm_compute; reflexivity |].
  split; by vm_compute.
Qed.

(** Rounding lifts a sampled score above n (n - 2) as well, the bound
    that holds without rounding: nine nodes, node 0 joined to the other
    eight in both directions, seven of the eight as pivots.  The sum for
    node 0 is 49, the scale the double nearest to 9/7, and their product
    is the double next above 63. *)
Lemma ApproxBetweenness_binary64_rounding :
  let g := {| nodes := list_to_set [0; 1; 2; 3; 4; 5; 6; 7; 8];
              edges := list_to_set
                         (flat_map (λ i, [(0, i); (i, 0)])
                                   [1; 2; 3; 4; 5; 6; 7; 8]) |} in
  Z.of_nat (length (NodesOf g)) = 9 ∧
  ∃ r x, ApproxBetweenness (λ _, ∅) (λ _, 0) g 7 = Some r ∧
         Scores r !! 0 = Some x ∧
         (x <=? Float64.of_int (9 * (9 - 2)))%float = false ∧
         x = next_up (Float64.of_int 63).
Proof.
  intros g. split; [by vm_compute |].
  eexists _, _. split; [vm_compute; reflexivity |].
  split; [vm_compute; reflexivity |]. split; by vm_compute.
Qed.

(** C8 (amended): for a sample size of at least 1, ApproxBetweenness
    returns a result.  When the sample size reaches the node count the
    scores are those of the exact routine (none for a graph without
    nodes).  Below the node count the result is in approximate mode and
    none of its scores, scaled by nodeCount/sampleSize, is below zero. *)
Theorem ApproxBetweenness_scores_not_negative
    (exact : DirectedGraph → gmap Z float) (rnd : nat → Z)
    (g : DirectedGraph) (sampleSize : Z) :
  let n := Z.of_nat (length (NodesOf g)) in
  1 ≤ sampleSize →
  ∃ r, ApproxBetweenness exact rnd g sampleSize = Some r ∧
    (n ≤ sampleSize → Scores r = if decide (n = 0) then ∅ else exact g) ∧
    (sampleSize < n →
       Mode r = Config.BetweennessApproximate ∧
       ∀ nid x, Scores r !! nid = Some x → (x <? 0)%float = false).
Proof.
  intros n Hk. unfold ApproxBetweenness. fold n.
  destruct (decide (n = 0)) as [H0 | H0].
  { eexists. split; [done |]. cbn. split; [done |]. lia. }
  destruct (decide (n ≤ sampleSize)) as [Hge | Hlt].
  { eexists. split; [done |]. cbn. split; [done |]. lia. }
  destruct (Betweenness.sampleNodes rnd (NodesOf g) sampleSize)
    as [pivots |] eqn:Es.
  2: { unfold Betweenness.sampleNodes in Es.
       destruct (decide (Z.of_nat (length (NodesOf g)) ≤ sampleSize));
         [done |].
       destruct (decide (sampleSize < 0)); [lia | done]. }
  eexists. split; [done |]. cbn. split; [lia |]. intros _. split; [done |].
  intros nid x Hx. rewrite lookup_fmap in Hx.
  destruct (foldl (λ bc pivot, singleSourceBetweenness g pivot bc) ∅ pivots
              !! nid) as [y |] eqn:Ey; [| done].
  cbn in Hx. injection Hx as <-. apply notNeg_ltb, notNeg_mul.
  - revert Ey. apply (foldl_keeps allNN).
    + intros bc p Hbc. by apply singleSource_notNeg.
    + apply map_Forall_empty.
  - apply notNeg_div; apply notNeg_of_int; lia.
Qed.

Lemma ApproxBetweenness_scores_not_negative_witness :
  let g := {| nodes := {[0; 1; 2]};
              edges := {[(1, 0); (0, 1); (2, 0); (0, 2)]} |} in
  1 ≤ 1 ∧
  ∃ r, ApproxBetweenness (λ _, ∅) (λ _, 1) g 1 = Some r ∧
       ∀ nid x, Scores r !! nid = Some x → (x <? 0)%float = false.
Proof.
  intros g. assert (1 ≤ 1) as Hk by lia. split; [done |].
  destruct (ApproxBetweenness_scores_not_negative (λ _, ∅) (λ _, 1) g 1 Hk)
    as (r & Hr & _ & Hs).
  exists r. split; [done |]. apply Hs. by vm_compute.
Defined.

End Binary64Facts.

(** ** The single-source pass: divisions and skipped nodes *)

Section DivisionFacts.
Import Gonum Analysis Betweenness.

Lemma accumulateStep_sigma sourceID st nid :
  sigma (accumulateStep sourceID st nid).1 = sigma st.1 ∧
  pred (accumulateStep sourceID st nid).1 = pred st.1.
Proof. unfold accumulateStep. by destruct (Qeq_bool _ _). Qed.

Lemma accumulateStep_skip sourceID st nid :
  Qeq_bool (getQ (sigma st.1) nid) 0 = true →
  accumulateStep sourceID st nid = st.
Proof. unfold accumulateStep. intros ->. done. Qed.

Lemma accumulateStep_other sourceID st nid k :
  k ≠ nid → (accumulateStep sourceID st nid).2 !! k = st.2 !! k.
Proof.
  intros Hne. unfold accumulateStep. destruct (Qeq_bool _ _); [done |].
  cbn [snd]. destruct (decide (nid ≠ sourceID)); [| done].
  by rewrite lookup_insert_ne.
Qed.

Lemma accumulate_untouched sourceID l : ∀ st k,
  k ∉ l ∨ Qeq_bool (getQ (sigma st.1) k) 0 = true →
  (foldl (accumulateStep sourceID) st l).2 !! k = st.2 !! k.
Proof.
  induction l as [| nid l IH]; intros st k Hk; [done |].
  rewrite foldl_cons_eq, IH.
  - destruct (decide (k = nid)) as [-> | Hne].
    + destruct Hk as [Hk | Hk]; [by apply not_elem_of_cons in Hk as [? _] |].
      by rewrite accumulateStep_skip.
    + by apply accumulateStep_other.
  - destruct Hk as [Hk | Hk].
    + left. by apply not_elem_of_cons in Hk as [_ ?].
    + right. destruct (accumulateStep_sigma sourceID st nid) as [-> _]. done.
Qed.

Lemma accumulate_filter sourceID l : ∀ st,
  foldl (accumulateStep sourceID) st l =
  foldl (accumulateStep sourceID) st
        (filter (λ nid, Qeq_bool (getQ (sigma st.1) nid) 0 = false) l).
Proof.
  induction l as [| nid l IH]; intros st; [done |].
  rewrite foldl_cons_eq.
  destruct (Qeq_bool (getQ (sigma st.1) nid) 0) eqn:E.
  - rewrite filter_cons_False by (by rewrite E).
    rewrite accumulateStep_skip by done. apply IH.
  - rewrite filter_cons_True by done. rewrite foldl_cons_eq, IH.
    by destruct (accumulateStep_sigma sourceID st nid) as [-> _].
Qed.

(** C9: in a single-source pass, when the accumulation starts, every
    sigma is zero or at least one; so a node of the stack that is not
    skipped by the test [sigma[nid] == 0] has sigma at least 1, which is
    the divisor of every division done for it (the inner guard
    [sigma[nid] > 0] holds).  A skipped node leaves the dependencies and
    the accumulator as they are, the accumulation never changes a sigma,
    the accumulation is the same as the accumulation over the nodes that
    are not skipped, and the pass leaves the accumulator entry of every
    node with sigma zero, and of every node outside the stack,
    untouched. *)
Theorem singleSource_divisor_positive
    (g : DirectedGraph) (source : Z) (bc : gmap Z Q) :
  let nodes := NodesOf g in
  let r := buildPhase (foldl initStep emptyScratch nodes) g
                      (DijkstraFrom source g) source nodes in
  (∀ nid, (getQ (sigma r.1) nid == 0)%Q ∨ (1 <= getQ (sigma r.1) nid)%Q) ∧
  (∀ nid, nid ∈ id <$> r.2 →
     Qeq_bool (getQ (sigma r.1) nid) 0 = false →
     (1 <= getQ (sigma r.1) nid)%Q ∧ Qgtb (getQ (sigma r.1) nid) 0 = true) ∧
  (∀ st nid, Qeq_bool (getQ (sigma st.1) nid) 0 = true →
     accumulateStep source st nid = st) ∧
  (∀ st nid, sigma (accumulateStep source st nid).1 = sigma st.1) ∧
  singleSourceBetweenness g source bc =
    (foldl (accumulateStep source) (r.1, bc)
       (filter (λ nid, Qeq_bool (getQ (sigma r.1) nid) 0 = false)
               (reverse (id <$> r.2)))).2 ∧
  (∀ nid, Qeq_bool (getQ (sigma r.1) nid) 0 = true ∨ nid ∉ id <$> r.2 →
     singleSourceBetweenness g source bc !! nid = bc !! nid).
Proof.
  intros nodes r.
  destruct (buildPhase_fresh g (DijkstraFrom source g) source)
    as [_ (_ & _ & Hcl & _)].
  fold nodes r in Hcl.
  split; [exact Hcl |]. split; [| split; [| split; [| split]]].
  - intros nid _ Hnz. apply Qeq_bool_neq in Hnz.
    destruct (Hcl nid) as [? | Hge]; [done |].
    split; [done |]. apply Qltb_lt. lra.
  - apply accumulateStep_skip.
  - intros st nid. apply accumulateStep_sigma.
  - unfold singleSourceBetweenness, passFrom. fold nodes r.
    by rewrite accumulate_filter.
  - intros nid Hnid. unfold singleSourceBetweenness, passFrom.
    fold nodes r. rewrite accumulate_untouched; [done |].
    destruct Hnid as [? | Hout]; [by right | left].
    by rewrite elem_of_reverse.
Qed.

End DivisionFacts.

(** ** The pooled pass against the fresh pass *)

Section PoolFacts.
Import Gonum Analysis Betweenness.

Context (g : DirectedGraph) (sourceID : Z) (N : Z → Prop).
Context (HTo : ∀ nid p, p ∈ To g nid → N p).











End PoolFacts.

Section PoolTheorem.
Import Gonum Analysis Betweenness.



End PoolTheorem.

(** * Further properties of the code *)

(** ** The configurations *)

Section MoreConfigFacts.
Import Config.

(** X1: for a graph of 100 to 499 nodes ConfigForSize returns the default
    configuration, whatever the edge count. *)
Theorem ConfigForSize_medium_default (nodeCount edgeCount : Z) :
  100 <= nodeCount < 500 ->
  ConfigForSize nodeCount edgeCount = DefaultConfig.
Proof.
  intros [Hlo Hhi]. unfold ConfigForSize.
  destruct (Z.ltb_spec nodeCount 100); [lia |].
  destruct (Z.ltb_spec nodeCount 500); [reflexivity | lia].
Qed.

Lemma ConfigForSize_medium_default_witness :
  ConfigForSize 300 100000 = DefaultConfig.
Proof. apply ConfigForSize_medium_default. lia. Defined.

Lemma SkippedMetrics_elem (c : AnalysisConfig) (m : SkippedMetric) :
  m ∈ SkippedMetrics c ↔
    (ComputeBetweenness c = false ∧
     m = {| Name := "Betweenness"; Reason := BetweennessSkipReason c |}) ∨
    (ComputePageRank c = false ∧
     m = {| Name := "PageRank"; Reason := PageRankSkipReason c |}) ∨
    (ComputeHITS c = false ∧
     m = {| Name := "HITS"; Reason := HITSSkipReason c |}) ∨
    (ComputeCycles c = false ∧
     m = {| Name := "Cycles"; Reason := CyclesSkipReason c |}).
Proof.
  unfold SkippedMetrics.
  destruct (ComputeBetweenness c), (ComputePageRank c), (ComputeHITS c),
    (ComputeCycles c); cbn;
    rewrite ?elem_of_cons, ?elem_of_nil; intuition congruence.
Qed.

(** X2: every metric that SkippedMetrics reports for a configuration of
    ConfigForSize is Betweenness, HITS or Cycles (PageRank is never
    disabled) and carries a non-empty reason; and a disabled betweenness,
    HITS or cycle metric is reported. *)
Theorem ConfigForSize_skipped_have_reasons (nodeCount edgeCount : Z) :
  let c := ConfigForSize nodeCount edgeCount in
  (∀ m, m ∈ SkippedMetrics c →
     Reason m ≠ EmptyString ∧
     (Name m = "Betweenness" ∨ Name m = "HITS" ∨ Name m = "Cycles")%string) ∧
  ComputePageRank c = true ∧
  (ComputeBetweenness c = false →
     {| Name := "Betweenness"; Reason := BetweennessSkipReason c |}
       ∈ SkippedMetrics c) ∧
  (ComputeHITS c = false →
     {| Name := "HITS"; Reason := HITSSkipReason c |} ∈ SkippedMetrics c) ∧
  (ComputeCycles c = false →
     {| Name := "Cycles"; Reason := CyclesSkipReason c |}
       ∈ SkippedMetrics c).
Proof.
  intros c.
  assert (ComputePageRank c = true ∧
          (ComputeBetweenness c = false →
             BetweennessSkipReason c ≠ EmptyString) ∧
          (ComputeHITS c = false → HITSSkipReason c ≠ EmptyString) ∧
          (ComputeCycles c = false → CyclesSkipReason c ≠ EmptyString))
    as (Hpr & Hb & Hh & Hc).
  { subst c. unfold ConfigForSize.
    destruct (nodeCount <? 100); [by repeat split |].
    destruct (nodeCount <? 500); [by repeat split |].
    destruct (nodeCount <? 2000).
    - destruct (Qltb _ _); by repeat split.
    - cbn. destruct (Qltb _ _); by repeat split. }
  split; [| split; [done |]].
  - intros m [(H & ->) | [(H & ->) | [(H & ->) | (H & ->)]]]%SkippedMetrics_elem;
      cbn; [split; auto | congruence | split; auto | split; auto].
  - repeat split; intros H; apply SkippedMetrics_elem; auto 6.
Qed.

(** X3: SkippedMetrics is empty exactly when betweenness, PageRank, HITS
    and cycles are all enabled; the default and the full configuration
    skip nothing. *)
Theorem SkippedMetrics_nil_iff (c : AnalysisConfig) :
  (SkippedMetrics c = [] ↔
     ComputeBetweenness c = true ∧ ComputePageRank c = true ∧
     ComputeHITS c = true ∧ ComputeCycles c = true) ∧
  SkippedMetrics DefaultConfig = [] ∧
  SkippedMetrics FullAnalysisConfig = [].
Proof.
  split; [| by split].
  unfold SkippedMetrics.
  destruct (ComputeBetweenness c), (ComputePageRank c), (ComputeHITS c),
    (ComputeCycles c); cbn; split; intros H; try done;
    by destruct H as (? & ? & ? & ?).
Qed.

(** X4: in every configuration of ConfigForSize an enabled betweenness,
    PageRank, HITS or cycle metric has a positive timeout that does not
    exceed the one of the full configuration, and the cycle store is
    positive and no larger than the one of the full configuration, which
    enables every metric. *)
Theorem ConfigForSize_timeouts (nodeCount edgeCount : Z) :
  let c := ConfigForSize nodeCount edgeCount in
  let f := FullAnalysisConfig in
  (ComputeBetweenness c = true →
     0 < BetweennessTimeout c <= BetweennessTimeout f) ∧
  (ComputePageRank c = true → 0 < PageRankTimeout c <= PageRankTimeout f) ∧
  (ComputeHITS c = true → 0 < HITSTimeout c <= HITSTimeout f) ∧
  (ComputeCycles c = true → 0 < CyclesTimeout c <= CyclesTimeout f) ∧
  0 < MaxCyclesToStore c <= MaxCyclesToStore f ∧
  ComputeBetweenness f = true ∧ ComputePageRank f = true ∧
  ComputeHITS f = true ∧ ComputeCycles f = true ∧
  ComputeEigenvector f = true ∧ ComputeCriticalPath f = true.
Proof.
  intros c f. subst c f. unfold ConfigForSize.
  destruct (nodeCount <? 100); [by vm_compute |].
  destruct (nodeCount <? 500); [by vm_compute |].
  destruct (nodeCount <? 2000).
  - destruct (Qltb _ _); by vm_compute.
  - cbn. destruct (Qltb _ _); by vm_compute.
Qed.

(** X5: ConfigForSize computes betweenness exactly when the mode is not
    skip; the mode is exact below 500 nodes, approximate from 2000 nodes
    on (where cycle enumeration is disabled), and always one of exact,
    approximate and skip; eigenvector and critical path are always
    enabled. *)
Theorem ConfigForSize_mode_consistent (nodeCount edgeCount : Z) :
  let c := ConfigForSize nodeCount edgeCount in
  (ComputeBetweenness c = true ↔ BetweennessMode_ c ≠ BetweennessSkip) ∧
  (BetweennessMode_ c = BetweennessExact ∨
   BetweennessMode_ c = BetweennessApproximate ∨
   BetweennessMode_ c = BetweennessSkip) ∧
  (nodeCount < 500 ↔ BetweennessMode_ c = BetweennessExact) ∧
  (2000 <= nodeCount →
     BetweennessMode_ c = BetweennessApproximate ∧
     BetweennessSampleSize c = 200 ∧ ComputeCycles c = false) ∧
  ComputeEigenvector c = true ∧ ComputeCriticalPath c = true.
Proof.
  intros c. subst c. unfold ConfigForSize.
  destruct (Z.ltb_spec nodeCount 100).
  { cbn. repeat split; (done || lia || auto). }
  destruct (Z.ltb_spec nodeCount 500).
  { cbn. repeat split; (done || lia || auto). }
  destruct (Z.ltb_spec nodeCount 2000).
  - destruct (Qltb _ _); cbn; repeat split;
      (done || lia || auto || (intros; exfalso; lia)).
  - cbn. unfold RecommendSampleSize.
    destruct (Z.ltb_spec nodeCount 100); [lia |].
    destruct (Z.ltb_spec nodeCount 500); [lia |].
    destruct (Z.ltb_spec nodeCount 2000); [lia |].
    repeat split; (done || lia || auto).
Qed.

(** X6: for a non-negative node count RecommendSampleSize never exceeds the
    node count and equals it exactly below 100 nodes; from 100 nodes on it
    lies between 50 and 200. *)
Theorem RecommendSampleSize_bounds (nodeCount edgeCount : Z) :
  0 <= nodeCount ->
  0 <= RecommendSampleSize nodeCount edgeCount <= nodeCount ∧
  (RecommendSampleSize nodeCount edgeCount = nodeCount ↔ nodeCount < 100) ∧
  (100 <= nodeCount →
     50 <= RecommendSampleSize nodeCount edgeCount <= 200).
Proof.
  intros H0. unfold RecommendSampleSize.
  destruct (Z.ltb_spec nodeCount 100); [lia |].
  destruct (Z.ltb_spec nodeCount 500).
  - destruct (Z.gtb_spec (nodeCount ÷ 5) 50);
      Z.to_euclidean_division_equations; lia.
  - destruct (Z.ltb_spec nodeCount 2000); lia.
Qed.

End MoreConfigFacts.

Lemma RecommendSampleSize_bounds_witness :
  0 <= Config.RecommendSampleSize 250 0 <= 250 ∧
  (Config.RecommendSampleSize 250 0 = 250 ↔ 250 < 100) ∧
  (100 <= 250 → 50 <= Config.RecommendSampleSize 250 0 <= 200).
Proof. apply (RecommendSampleSize_bounds 250 0). lia. Defined.

(** ** Sampling and the approximate entry point *)

Section MoreSamplingFacts.
Import Gonum Analysis Betweenness.

Lemma sampleNodes_None rnd (nodes : list Z) k :
  sampleNodes rnd nodes k = None ↔ k < 0.
Proof.
  unfold sampleNodes.
  destruct (decide (Z.of_nat (length nodes) ≤ k)); [split; [done | lia] |].
  destruct (decide (k < 0)); [done |]. split; [done | lia].
Qed.

Lemma sampleNodes_length rnd (nodes : list Z) k pivots :
  sampleNodes rnd nodes k = Some pivots →
  length pivots = Nat.min (Z.to_nat k) (length nodes).
Proof.
  unfold sampleNodes.
  pose proof (shuffle_perm rnd (seq 0 (Z.to_nat k)) nodes) as Hperm.
  destruct (decide (Z.of_nat (length nodes) ≤ k)); [intros [= <-]; lia |].
  destruct (decide (k < 0)); [done |]. intros [= <-].
  rewrite length_take, Hperm. lia.
Qed.

(** X7: sampleNodes panics exactly for a negative k.  Otherwise, from a
    list of distinct nodes it returns min(k, len) distinct nodes of the
    list, and the list itself when k is at least its length. *)
Theorem sampleNodes_sample (rnd : nat → Z) (nodes : list Z) (k : Z) :
  NoDup nodes →
  (sampleNodes rnd nodes k = None ↔ k < 0) ∧
  ∀ pivots, sampleNodes rnd nodes k = Some pivots →
    length pivots = Nat.min (Z.to_nat k) (length nodes) ∧
    NoDup pivots ∧
    (∀ p, p ∈ pivots → p ∈ nodes) ∧
    (Z.of_nat (length nodes) ≤ k → pivots = nodes).
Proof.
  intros Hnd. unfold sampleNodes.
  pose proof (shuffle_perm rnd (seq 0 (Z.to_nat k)) nodes) as Hperm.
  destruct (decide (Z.of_nat (length nodes) ≤ k)) as [Hge | Hlt].
  - split; [split; [done | lia] |].
    intros pivots [= <-]. split; [lia |]. split; [done |]. by split.
  - destruct (decide (k < 0)) as [Hneg | Hpos].
    + split; [by split |]. done.
    + split; [split; [done | lia] |]. intros pivots [= <-].
      split; [rewrite length_take, Hperm; lia |]. split; [| split].
      * eapply sublist_NoDup; [| apply sublist_take]. by rewrite Hperm.
      * intros p Hp. rewrite <- Hperm. by eapply subseteq_take.
      * lia.
Qed.

Lemma sampleNodes_sample_witness :
  NoDup [10; 20; 30] ∧
  ∀ pivots, sampleNodes (λ i, Z.of_nat i + 1) [10; 20; 30] 2 = Some pivots →
    length pivots = 2%nat ∧ NoDup pivots.
Proof.
  assert (NoDup [10; 20; 30]) as Hnd.
  { apply NoDup_ListNoDup. repeat constructor; cbn; intros H; lia. }
  split; [done |]. intros pivots Hp.
  destruct (sampleNodes_sample (λ i, Z.of_nat i + 1) [10; 20; 30] 2 Hnd)
    as [_ H].
  destruct (H pivots Hp) as (Hlen & Hnd' & _). by split.
Defined.

Lemma singleSource_keys g source (bc : gmap Z Q) k :
  k ∉ nodes g ∨ k = source →
  singleSourceBetweenness g source bc !! k = bc !! k.
Proof.
  intros Hk. unfold singleSourceBetweenness, passFrom.
  destruct (buildPhase_fresh g (DijkstraFrom source g) source) as [Hst _].
  cbn zeta in Hst. apply accumulate_untouched. left.
  rewrite elem_of_reverse, Hst.
  intros (nd & -> & Hnd)%list_elem_of_fmap.
  apply stack_ids in Hnd as [Hin Hne]. destruct Hk; done.
Qed.

Lemma pivots_keys g pivots : ∀ (bc : gmap Z Q) k,
  k ∉ nodes g →
  foldl (λ bc pivot, singleSourceBetweenness g pivot bc) bc pivots !! k
  = bc !! k.
Proof.
  induction pivots as [| p pivots IH]; intros bc k Hk; [done |].
  rewrite foldl_cons_eq, IH by done. apply singleSource_keys. by left.
Qed.

(** X8: ApproxBetweenness panics exactly when the graph has nodes and the
    sample size is negative.  A result reports the node count; its mode
    is exact exactly when the graph has nodes and the sample size is at
    least their number (then the reported sample size is the node count),
    otherwise approximate with the requested sample size; the scores are
    empty for a graph without nodes and for a sample size of 0; and in
    approximate mode every scored id is a node of the graph. *)
Theorem ApproxBetweenness_result
    (exact : DirectedGraph → gmap Z Q) (rnd : nat → Z)
    (g : DirectedGraph) (sampleSize : Z) :
  let n := Z.of_nat (length (NodesOf g)) in
  (ApproxBetweenness exact rnd g sampleSize = None ↔ n ≠ 0 ∧ sampleSize < 0) ∧
  ∀ r, ApproxBetweenness exact rnd g sampleSize = Some r →
    TotalNodes r = n ∧
    (Mode r = Config.BetweennessExact ↔ n ≠ 0 ∧ n ≤ sampleSize) ∧
    (Mode r = Config.BetweennessExact ∧ SampleSize r = n ∨
     Mode r = Config.BetweennessApproximate ∧ SampleSize r = sampleSize) ∧
    (n = 0 ∨ sampleSize = 0 → Scores r = ∅) ∧
    (Mode r = Config.BetweennessApproximate →
       ∀ nid, is_Some (Scores r !! nid) → nid ∈ nodes g).
Proof.
  intros n. unfold ApproxBetweenness. fold n.
  destruct (decide (n = 0)) as [H0 | H0].
  { split; [split; [done | lia] |]. intros r [= <-]. cbn.
    split; [done |]. split; [split; [done | lia] |].
    split; [by right |]. split; [done |].
    intros _ nid [? H]. by rewrite lookup_empty in H. }
  destruct (decide (n ≤ sampleSize)) as [Hge | Hlt].
  { split; [split; [done | lia] |]. intros r [= <-]. cbn.
    split; [done |]. split; [done |]. split; [by left |].
    split; [intros [? | ?]; lia | done]. }
  pose proof (sampleNodes_None rnd (NodesOf g) sampleSize) as Hnone.
  destruct (sampleNodes rnd (NodesOf g) sampleSize) as [pivots |] eqn:Es.
  - cbn. split.
    { split; [done |]. intros [_ Hneg]. apply Hnone in Hneg. done. }
    intros r [= <-]. cbn. split; [done |].
    split; [split; [done | lia] |]. split; [by right |].
    pose proof (sampleNodes_length _ _ _ _ Es) as Hlen. split.
    + intros [? | ->]; [done |].
      destruct pivots; [| cbn in Hlen; lia]. cbn. apply fmap_empty.
    + intros _ nid [x Hx]. rewrite lookup_fmap in Hx.
      destruct (decide (nid ∈ nodes g)) as [| Hout]; [done |].
      rewrite pivots_keys, lookup_empty in Hx by done. done.
  - cbn. split; [| done]. split; [| done]. intros _. split; [done |].
    by apply Hnone.
Qed.

End MoreSamplingFacts.

Section MorePassFacts.
Import Gonum Analysis Betweenness.

(** X9: with the sample size RecommendSampleSize recommends for the node
    count of a non-empty graph, ApproxBetweenness always returns a result
    and reports the recommended sample size; it runs the exact routine
    exactly when the graph has fewer than 100 nodes, and samples
    otherwise. *)
Theorem ApproxBetweenness_recommended
    (exact : DirectedGraph → gmap Z Q) (rnd : nat → Z)
    (g : DirectedGraph) (edgeCount : Z) :
  let n := Z.of_nat (length (NodesOf g)) in
  n ≠ 0 →
  ∃ r, ApproxBetweenness exact rnd g
         (Config.RecommendSampleSize n edgeCount) = Some r ∧
       SampleSize r = Config.RecommendSampleSize n edgeCount ∧
       (Mode r = Config.BetweennessExact ↔ n < 100) ∧
       (Mode r = Config.BetweennessApproximate ↔ 100 ≤ n) ∧
       (n < 100 → Scores r = exact g).
Proof.
  intros n Hn.
  assert (0 ≤ n) as Hn0 by lia.
  assert (0 ≤ Config.RecommendSampleSize n edgeCount ≤ n ∧
          (Config.RecommendSampleSize n edgeCount = n ↔ n < 100))
    as ([Hlo Hhi] & Heq).
  { unfold Config.RecommendSampleSize.
    destruct (Z.ltb_spec n 100); [lia |].
    destruct (Z.ltb_spec n 500).
    - destruct (Z.gtb_spec (n ÷ 5) 50);
        Z.to_euclidean_division_equations; lia.
    - destruct (Z.ltb_spec n 2000); lia. }
  unfold ApproxBetweenness. fold n.
  destruct (decide (n = 0)); [done |].
  destruct (decide (n ≤ Config.RecommendSampleSize n edgeCount)) as [Hge | Hlt].
  - assert (Config.RecommendSampleSize n edgeCount = n) as Hrec by lia.
    pose proof (proj1 Heq Hrec). eexists. split; [done |]. cbn.
    split; [done |]. split; [done |]. split; [split; [done | lia] | done].
  - assert (¬ n < 100) as Hbig by (intros ?%Heq; lia).
    destruct (sampleNodes rnd (NodesOf g)
                (Config.RecommendSampleSize n edgeCount)) as [pivots |] eqn:Es.
    + eexists. split; [done |]. cbn. split; [done |].
      split; [done |]. split; [split; [lia | done] | lia].
    + exfalso. unfold sampleNodes in Es.
      destruct (decide (Z.of_nat (length (NodesOf g))
                        ≤ Config.RecommendSampleSize n edgeCount)); [done |].
      destruct (decide (Config.RecommendSampleSize n edgeCount < 0));
        [lia | done].
Qed.

Lemma ApproxBetweenness_recommended_witness :
  let g := {| nodes := {[0; 1; 2]};
              edges := {[(1, 0); (0, 1); (2, 0); (0, 2)]} |} in
  Z.of_nat (length (NodesOf g)) ≠ 0 ∧
  ∃ r, ApproxBetweenness (λ _, ∅) (λ _, 0) g
         (Config.RecommendSampleSize (Z.of_nat (length (NodesOf g))) 4)
       = Some r ∧ SampleSize r = 3.
Proof.
  intros g.
  assert (Z.of_nat (length (NodesOf g)) ≠ 0) as Hn by (by vm_compute).
  split; [done |].
  destruct (ApproxBetweenness_recommended (λ _, ∅) (λ _, 0) g 4 Hn)
    as (r & Hr & Hs & _).
  exists r. split; [done |]. rewrite Hs. by vm_compute.
Defined.

Lemma accumulate_keeps sourceID l : ∀ st k,
  is_Some (st.2 !! k) →
  is_Some ((foldl (accumulateStep sourceID) st l).2 !! k).
Proof.
  induction l as [| nid l IH]; intros st k Hk; [done |].
  rewrite foldl_cons_eq. apply IH. unfold accumulateStep.
  destruct (Qeq_bool _ _); [done |]. cbn [snd].
  destruct (decide (nid ≠ sourceID)); [| done].
  apply lookup_insert_is_Some'. by right.
Qed.

(** X10: a single-source pass never removes an entry of the accumulator,
    and it leaves alone the entry of the source, of every id that is not
    a node of the graph, and of every node the source does not reach. *)
Theorem singleSource_effect (g : DirectedGraph) (source : Z)
    (bc : gmap Z Q) :
  let bc' := singleSourceBetweenness g source bc in
  (∀ k, is_Some (bc !! k) → is_Some (bc' !! k)) ∧
  bc' !! source = bc !! source ∧
  (∀ k, k ∉ nodes g → bc' !! k = bc !! k) ∧
  (∀ k, DijkstraFrom source g !! k = None → bc' !! k = bc !! k).
Proof.
  intros bc'. subst bc'. split; [| split; [| split]].
  - intros k Hk. unfold singleSourceBetweenness, passFrom.
    by apply accumulate_keeps.
  - apply singleSource_keys. by right.
  - intros k Hk. apply singleSource_keys. by left.
  - intros k Hk. unfold singleSourceBetweenness, passFrom.
    destruct (buildPhase_fresh g (DijkstraFrom source g) source) as [Hst _].
    cbn zeta in Hst. apply accumulate_untouched. left.
    rewrite elem_of_reverse, Hst.
    intros (nd & -> & Hnd)%list_elem_of_fmap.
    apply stack_elem, stackOf_ids in Hnd as (_ & _ & Hw).
    unfold WeightTo in Hw. by rewrite Hk in Hw.
Qed.

Lemma Dijkstra_sink g source :
  From g source = [] → DijkstraFrom source g = {[source := 0%nat]}.
Proof.
  intros Hfrom. unfold DijkstraFrom.
  destruct (size (nodes g)) as [| fuel]; [done |].
  cbn [bfs]. unfold bfsLayer. cbn [mbind list_bind].
  rewrite Hfrom. done.
Qed.

Lemma stackOf_sink source nodes :
  stackOf {[source := 0%nat]} source nodes = [].
Proof.
  induction nodes as [| n nodes IH]; [done |].
  unfold stackOf. cbn. fold (stackOf {[source := 0%nat]} source nodes).
  destruct (decide (n = source)) as [| Hne]; [done |].
  unfold WeightTo. by rewrite lookup_singleton_ne.
Qed.

(** X11: a pass from a pivot without outgoing edges changes nothing, and
    on a graph without edges the sampled scores are empty. *)
Theorem singleSource_sink
    (exact : DirectedGraph → gmap Z Q) (rnd : nat → Z)
    (g : DirectedGraph) :
  (∀ source (bc : gmap Z Q), From g source = [] →
     singleSourceBetweenness g source bc = bc) ∧
  (edges g = ∅ →
   ∀ sampleSize r, ApproxBetweenness exact rnd g sampleSize = Some r →
     Mode r = Config.BetweennessApproximate → Scores r = ∅).
Proof.
  assert (∀ source (bc : gmap Z Q), From g source = [] →
            singleSourceBetweenness g source bc = bc) as Hsink.
  { intros source bc Hfrom. unfold singleSourceBetweenness, passFrom.
    destruct (buildPhase_fresh g (DijkstraFrom source g) source) as [-> _].
    by rewrite (Dijkstra_sink _ _ Hfrom), stackOf_sink. }
  split; [done |]. intros He sampleSize r Hr Hmode.
  assert (∀ source, From g source = []) as Hno.
  { intros source. unfold From. rewrite He.
    induction (NodesOf g) as [| v l IH]; [done |].
    rewrite filter_cons_False; [done |]. apply not_elem_of_empty. }
  assert (∀ (pivots : list Z) (bc : gmap Z Q),
            foldl (λ bc pivot, singleSourceBetweenness g pivot bc) bc pivots
            = bc) as Hid.
  { induction pivots as [| p pivots IH]; intros bc; [done |].
    rewrite foldl_cons_eq. rewrite (Hsink p bc (Hno p)). apply IH. }
  unfold ApproxBetweenness in Hr.
  destruct (decide (Z.of_nat (length (NodesOf g)) = 0)).
  { by injection Hr as <-. }
  destruct (decide (Z.of_nat (length (NodesOf g)) ≤ sampleSize)).
  { injection Hr as <-. done. }
  destruct (sampleNodes rnd (NodesOf g) sampleSize) as [pivots |]; [| done].
  injection Hr as <-. cbn. rewrite Hid. apply fmap_empty.
Qed.


End MorePassFacts.

(** ** The analyzer's graph and id maps *)

Section MoreNewAnalyzerFacts.
Import Gonum Model Analysis.

Lemma addNodes_forward issues : ∀ a a',
  addNodes issues a = Some a' →
  (∀ s n, idToNode a !! s = Some n →
     n ∈ nodes (g a) ∧ nodeToID a !! n = Some s) →
  (∀ s n, idToNode a' !! s = Some n →
     n ∈ nodes (g a') ∧ nodeToID a' !! n = Some s) ∧
  size (nodes (g a')) = (size (nodes (g a)) + length issues)%nat.
Proof.
  induction issues as [| issue issues IH]; intros a a' Ha Hinv; cbn in Ha.
  - injection Ha as <-. split; [done |]. cbn. lia.
  - destruct (AddNode (g a) (NewNode (g a))) as [g1 |] eqn:E1; [| done].
    cbn in Ha. apply AddNode_nodes in E1 as [Hfresh Hg1].
    apply IH in Ha as [Hfw Hsize]; cbn.
    + split; [done |]. rewrite Hsize. cbn. rewrite Hg1.
      rewrite size_union, size_singleton; [lia |].
      intros x ->%elem_of_singleton. done.
    + intros s n [[<- <-] | [Hne Hs]]%lookup_insert_Some.
      * split; [| apply lookup_insert_eq]. rewrite Hg1.
        apply elem_of_union. left. by apply elem_of_singleton.
      * destruct (Hinv s n Hs) as [Hin Hid]. split.
        -- rewrite Hg1. apply elem_of_union. by right.
        -- rewrite lookup_insert_ne; [done |]. by intros <-.
Qed.

Lemma addNodes_backward issues : ∀ a a',
  addNodes issues a = Some a' →
  NoDup (ID <$> issues) →
  (∀ i, i ∈ issues → idToNode a !! ID i = None) →
  (∀ n, n ∈ nodes (g a) →
     ∃ s, nodeToID a !! n = Some s ∧ idToNode a !! s = Some n) →
  ∀ n, n ∈ nodes (g a') →
    ∃ s, nodeToID a' !! n = Some s ∧ idToNode a' !! s = Some n.
Proof.
  induction issues as [| issue issues IH]; intros a a' Ha Hnd Hnew Hinv;
    cbn in Ha.
  - by injection Ha as <-.
  - destruct (AddNode (g a) (NewNode (g a))) as [g1 |] eqn:E1; [| done].
    cbn in Ha. apply AddNode_nodes in E1 as [Hfresh Hg1].
    rewrite fmap_cons in Hnd. apply NoDup_cons in Hnd as [Hid Hnd].
    eapply IH; [exact Ha | exact Hnd | |]; cbn.
    + intros i Hi. rewrite lookup_insert_ne.
      * apply Hnew. by right.
      * intros Heq. apply Hid. rewrite Heq. apply list_elem_of_fmap.
        by exists i.
    + intros n. rewrite Hg1, elem_of_union, elem_of_singleton.
      intros [-> | Hn].
      * exists (ID issue). by rewrite !lookup_insert_eq.
      * destruct (Hinv n Hn) as (s & Hs & Hback). exists s.
        rewrite !lookup_insert_ne; [done | |].
        -- intros <-. rewrite Hnew in Hback; [done | left].
        -- by intros <-.
Qed.

Lemma addDependencies_nodes_eq m u deps : ∀ g g',
  u ∈ nodes g → (∀ s n, m !! s = Some n → n ∈ nodes g) →
  addDependencies m u deps g = Some g' → nodes g' = nodes g.
Proof.
  induction deps as [| dep deps IH]; intros g0 g' Hu Hm Hg; cbn in Hg.
  - by injection Hg as <-.
  - destruct (m !! DependsOnID dep) as [v |] eqn:Ev; [| by eapply IH].
    destruct (SetEdge g0 u v) as [g1 |] eqn:E1; [| done]. cbn in Hg.
    apply SetEdge_nodes in E1.
    assert (nodes g1 = nodes g0) as Heq.
    { rewrite E1. apply set_eq. intros x.
      rewrite !elem_of_union, !elem_of_singleton.
      split; [intros [[-> | ->] | ?]; eauto | auto]. }
    rewrite <- Heq. apply (IH g1); [by rewrite Heq | | done].
    intros s n Hs. rewrite Heq. by eapply Hm.
Qed.

Lemma addEdges_nodes_eq m issues : ∀ g g',
  (∀ s n, m !! s = Some n → n ∈ nodes g) →
  addEdges m issues g = Some g' → nodes g' = nodes g.
Proof.
  induction issues as [| issue issues IH]; intros g0 g' Hm Hg; cbn in Hg.
  - by injection Hg as <-.
  - destruct (m !! ID issue) as [u |] eqn:Eu; [| by eapply IH].
    destruct (addDependencies m u (Dependencies issue) g0) as [g1 |] eqn:E1;
      [| done].
    cbn in Hg. apply addDependencies_nodes_eq in E1; [| by eapply Hm | done].
    rewrite <- E1. apply (IH g1); [| done].
    intros s n Hs. rewrite E1. by eapply Hm.
Qed.

(** X13: NewAnalyzer makes one node per issue; idToNode holds exactly the
    issue ids and nodeToID leads back from the node of an id to that id;
    when the issue ids are distinct, every node carries the id of an issue
    whose entry in idToNode is that node. *)
Theorem NewAnalyzer_id_maps (issues : list Issue) (a : Analyzer) :
  NewAnalyzer issues = Some a →
  size (nodes (g a)) = length issues ∧
  (∀ s, is_Some (idToNode a !! s) ↔ ∃ i, i ∈ issues ∧ ID i = s) ∧
  (∀ s n, idToNode a !! s = Some n →
     n ∈ nodes (g a) ∧ nodeToID a !! n = Some s) ∧
  (NoDup (ID <$> issues) →
   ∀ n, n ∈ nodes (g a) →
     ∃ i, i ∈ issues ∧ nodeToID a !! n = Some (ID i) ∧
          idToNode a !! ID i = Some n).
Proof.
  unfold NewAnalyzer. intros Ha.
  destruct (addNodes issues _) as [a1 |] eqn:E1; [| done]. cbn in Ha.
  destruct (addEdges (idToNode a1) issues (g a1)) as [g1 |] eqn:E2; [| done].
  injection Ha as <-. cbn.
  destruct (addNodes_forward _ _ _ E1) as [Hfw Hsize].
  { cbn. intros s n Hs. by rewrite lookup_empty in Hs. }
  cbn in Hsize. rewrite size_empty in Hsize.
  assert (nodes g1 = nodes (g a1)) as Hnodes.
  { eapply addEdges_nodes_eq; [| done]. intros s n Hs. by eapply Hfw. }
  rewrite Hnodes. split; [done |]. split; [| split; [done |]].
  - intros s. destruct (addNodes_spec _ _ _ E1) as [_ Hs]. rewrite Hs. cbn.
    split; [intros [[? H] | ?]; [by rewrite lookup_empty in H | done] | auto].
  - intros Hnd n Hn.
    destruct (addNodes_backward _ _ _ E1 Hnd) with (n := n)
      as (s & Hs & Hback); [done | | done |].
    { cbn. intros n' Hn'. by apply not_elem_of_empty in Hn'. }
    destruct (addNodes_spec _ _ _ E1) as [_ Hdom].
    destruct (proj1 (Hdom s)) as [[? H] | (i & Hi & <-)]; [by eexists | |].
    { cbn in H. by rewrite lookup_empty in H. }
    by exists i.
Qed.

Lemma NewAnalyzer_id_maps_witness :
  let issues :=
    [ {| ID := "A";
         Dependencies := [ {| IssueID := "A"; DependsOnID := "B";
                              Type_ := DepBlocks |} ] |};
      {| ID := "B"; Dependencies := [] |} ]%string in
  ∃ a, NewAnalyzer issues = Some a ∧ size (nodes (g a)) = 2%nat.
Proof.
  intros issues. eexists. split; [vm_compute; reflexivity |].
  eapply (NewAnalyzer_id_maps issues). vm_compute. reflexivity.
Defined.

Lemma addDependencies_fail m u deps : ∀ g,
  (∃ d, d ∈ deps ∧ m !! DependsOnID d = Some u) ↔
  addDependencies m u deps g = None.
Proof.
  induction deps as [| dep deps IH]; intros g0; cbn.
  - split; [intros (d & Hd & _); by apply elem_of_nil in Hd | done].
  - destruct (m !! DependsOnID dep) as [v |] eqn:Ev.
    + unfold SetEdge. destruct (decide (u = v)) as [-> | Hne]; cbn.
      * split; [done |]. intros _. exists dep. split; [left | done].
      * rewrite <- IH. split.
        -- intros (d & [-> | Hd]%elem_of_cons & Hm); [congruence | eauto].
        -- intros (d & Hd & Hm). exists d. split; [by right | done].
    + rewrite <- IH. split.
      * intros (d & [-> | Hd]%elem_of_cons & Hm); [congruence | eauto].
      * intros (d & Hd & Hm). exists d. split; [by right | done].
Qed.

Lemma addEdges_fail m issues : ∀ g,
  (∃ i d u, i ∈ issues ∧ d ∈ Dependencies i ∧
            m !! ID i = Some u ∧ m !! DependsOnID d = Some u) ↔
  addEdges m issues g = None.
Proof.
  induction issues as [| issue issues IH]; intros g0; cbn.
  - split; [intros (i & d & u & Hi & _); by apply elem_of_nil in Hi | done].
  - destruct (m !! ID issue) as [u |] eqn:Eu.
    + destruct (addDependencies m u (Dependencies issue) g0) as [g1 |] eqn:E1;
        cbn.
      * rewrite <- IH. split.
        -- intros (i & d & v & [-> | Hi]%elem_of_cons & Hd & Hu & Hv);
             [| eauto 10].
           exfalso. assert (v = u) as -> by congruence.
           assert (addDependencies m u (Dependencies issue) g0 = None)
             as Hnone by (apply addDependencies_fail; eauto).
           congruence.
        -- intros (i & d & v & Hi & H). exists i, d, v.
           split; [by right | done].
      * split; [done |]. intros _.
        apply addDependencies_fail in E1 as (d & Hd & Hm).
        exists issue, d, u. split; [left | done].
    + rewrite <- IH. split.
      * intros (i & d & v & [-> | Hi]%elem_of_cons & Hd & Hu & Hv);
          [congruence | eauto 10].
      * intros (i & d & v & Hi & H). exists i, d, v.
        split; [by right | done].
Qed.

(** X14: NewAnalyzer panics whenever some issue of the list declares a
    dependency on its own id (the graph library refuses the self edge),
    wherever the issue stands in the list and whatever else the list
    holds. *)
Theorem NewAnalyzer_self_dependency_panics (issues : list Issue) :
  (∃ i d, i ∈ issues ∧ d ∈ Dependencies i ∧ DependsOnID d = ID i) →
  NewAnalyzer issues = None.
Proof.
  intros (i & d & Hi & Hd & Hself). unfold NewAnalyzer.
  destruct (addNodes_total issues
              {| g := NewDirectedGraph; idToNode := ∅; nodeToID := ∅;
                 issueMap := ∅ |}) as (a1 & E1 & Hinj).
  { cbn. intros s n Hs. by rewrite lookup_empty in Hs. }
  { cbn. intros s1 s2 n Hs. by rewrite lookup_empty in Hs. }
  rewrite E1. cbn. destruct (addNodes_spec _ _ _ E1) as [_ Hdom].
  assert (is_Some (idToNode a1 !! ID i)) as [u Hu].
  { apply Hdom. right. by exists i. }
  assert (addEdges (idToNode a1) issues (g a1) = None) as ->; [| done].
  apply addEdges_fail. exists i, d, u. rewrite Hself. done.
Qed.

Lemma NewAnalyzer_self_dependency_panics_witness :
  NewAnalyzer
    [ {| ID := "B"; Dependencies := [] |};
      {| ID := "A";
         Dependencies := [ {| IssueID := "A"; DependsOnID := "Q";
                              Type_ := DepBlocks |};
                           {| IssueID := "A"; DependsOnID := "A";
                              Type_ := DepRelated |} ] |} ]%string
  = None.
Proof.
  apply NewAnalyzer_self_dependency_panics.
  eexists _, _. split; [right; left |]. split; [right; left | done].
Defined.

Lemma addDependencies_simple m u deps : ∀ g g',
  u ∈ nodes g →
  (∀ x y, (x, y) ∈ edges g → x ≠ y ∧ x ∈ nodes g ∧ y ∈ nodes g) →
  addDependencies m u deps g = Some g' →
  ∀ x y, (x, y) ∈ edges g' → x ≠ y ∧ x ∈ nodes g' ∧ y ∈ nodes g'.
Proof.
  induction deps as [| dep deps IH]; intros g0 g' Hu Hwf Hg; cbn in Hg.
  - by injection Hg as <-.
  - destruct (m !! DependsOnID dep) as [v |] eqn:Ev; [| by eapply IH].
    unfold SetEdge in Hg. destruct (decide (u = v)) as [| Hne]; [done |].
    cbn in Hg. eapply IH; [| | exact Hg]; cbn.
    + apply elem_of_union. by right.
    + intros x y. rewrite !elem_of_union, !elem_of_singleton.
      intros [[= -> ->] | Hxy]; [by auto 10 |].
      destruct (Hwf x y Hxy) as (? & ? & ?). auto.
Qed.

Lemma addEdges_simple m issues : ∀ g g',
  (∀ s n, m !! s = Some n → n ∈ nodes g) →
  (∀ x y, (x, y) ∈ edges g → x ≠ y ∧ x ∈ nodes g ∧ y ∈ nodes g) →
  addEdges m issues g = Some g' →
  ∀ x y, (x, y) ∈ edges g' → x ≠ y ∧ x ∈ nodes g' ∧ y ∈ nodes g'.
Proof.
  induction issues as [| issue issues IH]; intros g0 g' Hm Hwf Hg; cbn in Hg.
  - by injection Hg as <-.
  - destruct (m !! ID issue) as [u |] eqn:Eu; [| by eapply IH].
    destruct (addDependencies m u (Dependencies issue) g0) as [g1 |] eqn:E1;
      [| done].
    cbn in Hg. apply (IH g1); [| | done].
    + intros s n Hs. eapply addDependencies_nodes; [done |]. by eapply Hm.
    + eapply addDependencies_simple; [| done | done]. by eapply Hm.
Qed.

(** X15: the graph NewAnalyzer returns has no self edge and both end
    points of each of its edges are nodes, so the successor and
    predecessor lists show every edge. *)
Theorem NewAnalyzer_graph_simple (issues : list Issue) (a : Analyzer) :
  NewAnalyzer issues = Some a →
  ∀ u v, HasEdgeFromTo (g a) u v →
    u ≠ v ∧ u ∈ nodes (g a) ∧ v ∈ nodes (g a) ∧
    v ∈ From (g a) u ∧ u ∈ To (g a) v.
Proof.
  unfold NewAnalyzer. intros Ha u v Huv.
  destruct (addNodes issues _) as [a1 |] eqn:E1; [| done]. cbn in Ha.
  destruct (addEdges (idToNode a1) issues (g a1)) as [g1 |] eqn:E2; [| done].
  injection Ha as <-. cbn in *.
  destruct (addNodes_forward _ _ _ E1) as [Hfw _].
  { cbn. intros s n Hs. by rewrite lookup_empty in Hs. }
  destruct (addNodes_spec _ _ _ E1) as [He _]. cbn in He.
  assert (∀ x y, (x, y) ∈ edges (g a1) →
            x ≠ y ∧ x ∈ nodes (g a1) ∧ y ∈ nodes (g a1)) as Hwf.
  { intros x y Hxy. rewrite He in Hxy. by apply not_elem_of_empty in Hxy. }
  destruct (addEdges_simple _ _ _ _ (λ s n Hs, proj1 (Hfw s n Hs))
              Hwf E2 u v Huv) as (Hne & Hu & Hv).
  split; [done |]. split; [done |]. split; [done |].
  split; [by apply elem_of_From | by apply elem_of_To].
Qed.

Lemma NewAnalyzer_graph_simple_witness :
  let issues :=
    [ {| ID := "A";
         Dependencies := [ {| IssueID := "A"; DependsOnID := "B";
                              Type_ := DepBlocks |} ] |};
      {| ID := "B"; Dependencies := [] |} ]%string in
  ∃ a, NewAnalyzer issues = Some a ∧ 1 ∈ From (g a) 0.
Proof.
  intros issues. eexists. split; [vm_compute; reflexivity |].
  eapply (NewAnalyzer_graph_simple issues); [vm_compute; reflexivity |].
  by vm_compute.
Defined.

End MoreNewAnalyzerFacts.

(** ** Analyze on the graph of NewAnalyzer *)

Section MoreAnalyzeFacts.
Import Gonum Model Analysis.

Lemma NewAnalyzer_edges_raw issues a :
  NewAnalyzer issues = Some a →
  ∀ u v, (u, v) ∈ edges (g a) ↔
    ∃ i d, i ∈ issues ∧ d ∈ Dependencies i ∧
           idToNode a !! ID i = Some u ∧
           idToNode a !! DependsOnID d = Some v.
Proof.
  unfold NewAnalyzer. intros Ha u v.
  destruct (addNodes issues _) as [a1 |] eqn:E1; [| done]. cbn in Ha.
  destruct (addEdges (idToNode a1) issues (g a1)) as [g1 |] eqn:E2; [| done].
  injection Ha as <-. cbn.
  apply addNodes_spec in E1 as [He _]. cbn in He.
  rewrite (addEdges_edges _ _ _ _ E2), He. split; [| by right].
  intros [H | H]; [by apply not_elem_of_empty in H | done].
Qed.

(** With distinct issue ids the two maps of the analyzer are inverse
    bijections between the issues and the nodes. *)
Lemma NewAnalyzer_distinct issues a :
  NewAnalyzer issues = Some a → NoDup (ID <$> issues) →
  (∀ i, i ∈ issues →
     ∃ n, idToNode a !! ID i = Some n ∧ n ∈ nodes (g a) ∧
          nodeToID a !! n = Some (ID i)) ∧
  (∀ n, n ∈ nodes (g a) →
     ∃ i, i ∈ issues ∧ nodeToID a !! n = Some (ID i) ∧
          idToNode a !! ID i = Some n) ∧
  size (nodes (g a)) = length issues ∧
  (∀ x y, (x, y) ∈ edges (g a) → x ≠ y ∧ x ∈ nodes (g a) ∧ y ∈ nodes (g a)).
Proof.
  unfold NewAnalyzer. intros Ha Hnd.
  destruct (addNodes issues _) as [a1 |] eqn:E1; [| done]. cbn in Ha.
  destruct (addEdges (idToNode a1) issues (g a1)) as [g1 |] eqn:E2; [| done].
  injection Ha as <-. cbn.
  destruct (addNodes_forward _ _ _ E1) as [Hfw Hsize].
  { cbn. intros s n Hs. by rewrite lookup_empty in Hs. }
  cbn in Hsize. rewrite size_empty in Hsize.
  destruct (addNodes_spec _ _ _ E1) as [He Hdom]. cbn in He, Hdom.
  assert (nodes g1 = nodes (g a1)) as Hnodes.
  { eapply addEdges_nodes_eq; [| done]. intros s n Hs. by eapply Hfw. }
  rewrite Hnodes. split; [| split; [| split; [done |]]].
  - intros i Hi.
    destruct (proj2 (Hdom (ID i))) as [n Hn]; [right; by exists i |].
    exists n. destruct (Hfw _ _ Hn). done.
  - intros n Hn.
    destruct (addNodes_backward _ _ _ E1 Hnd) with (n := n)
      as (s & Hs & Hback); [done | | done |].
    { cbn. intros n' Hn'. by apply not_elem_of_empty in Hn'. }
    destruct (proj1 (Hdom s)) as [[? H] | (i & Hi & <-)]; [by eexists | |].
    { by rewrite lookup_empty in H. }
    by exists i.
  - rewrite <- Hnodes. eapply addEdges_simple; [| | done].
    + intros s n Hs. by eapply Hfw.
    + intros x y Hxy. rewrite He in Hxy. by apply not_elem_of_empty in Hxy.
Qed.

Lemma NewAnalyzer_names_inj issues a :
  NewAnalyzer issues = Some a → NoDup (ID <$> issues) →
  ∀ u v, u ∈ nodes (g a) → v ∈ nodes (g a) →
    getString (nodeToID a) u = getString (nodeToID a) v → u = v.
Proof.
  intros Ha Hnd u v Hu Hv.
  destruct (NewAnalyzer_distinct _ _ Ha Hnd) as (_ & Hback & _).
  destruct (Hback u Hu) as (i & _ & Hi & Hi').
  destruct (Hback v Hv) as (j & _ & Hj & Hj').
  unfold getString. rewrite Hi, Hj. cbn. intros Heq.
  rewrite Heq in Hi'. congruence.
Qed.

Lemma map_list_fmap {A B} (f : A → B) (l : list A) : map f l = f <$> l.
Proof. induction l as [| x l IH]; cbn; congruence. Qed.

(** X16: when the issue ids are distinct and topo.Sort succeeds, the
    topological order Analyze reports is a rearrangement of the issue ids,
    and an issue comes after every issue of the list it declares a
    dependency on. *)
Theorem Analyze_order_prerequisites_first
    (issues : list Issue) (a : Analyzer) (lib : Library) (sorted : list Z) :
  NewAnalyzer issues = Some a → NoDup (ID <$> issues) →
  topoSort lib = Some sorted → topo_order (g a) sorted →
  let order := TopologicalOrder (Analyze a lib) in
  order ≡ₚ ID <$> issues ∧
  ∀ i j d, i ∈ issues → j ∈ issues → d ∈ Dependencies i →
    DependsOnID d = ID j →
    ∃ p q, order !! p = Some (ID j) ∧ order !! q = Some (ID i) ∧
           (p < q)%nat.
Proof.
  intros Ha Hnd Hsort (Hnds & Hall & Hord) order.
  assert (order = getString (nodeToID a) <$> reverse sorted) as ->.
  { subst order. unfold Analyze. cbn. rewrite Hsort. apply map_list_fmap. }
  destruct (NewAnalyzer_distinct _ _ Ha Hnd) as (Hfw & Hback & _).
  pose proof (NewAnalyzer_names_inj _ _ Ha Hnd) as Hinj.
  split.
  - rewrite reverse_Permutation. apply NoDup_Permutation; [| done |].
    + apply NoDup_fmap_2_strong; [| done].
      intros u v Hu Hv. apply Hinj; by apply Hall.
    + intros s. rewrite !list_elem_of_fmap. split.
      * intros (n & -> & Hn). apply Hall in Hn.
        destruct (Hback n Hn) as (i & Hi & Hid & _).
        exists i. unfold getString. by rewrite Hid.
      * intros (i & -> & Hi).
        destruct (Hfw i Hi) as (n & _ & Hn & Hid).
        exists n. unfold getString. rewrite Hid. split; [done |].
        by apply Hall.
  - intros i j d Hi Hj Hd Hdep.
    destruct (Hfw i Hi) as (u & Hu & Hun & Hui).
    destruct (Hfw j Hj) as (v & Hv & Hvn & Hvj).
    assert ((u, v) ∈ edges (g a)) as Huv.
    { apply (NewAnalyzer_edges_raw _ _ Ha). exists i, d. by rewrite Hdep. }
    apply Hall, list_elem_of_lookup in Hun as [p Hp].
    apply Hall, list_elem_of_lookup in Hvn as [q Hq].
    pose proof (Hord p q u v Hp Hq Huv) as Hpq.
    pose proof (lookup_lt_Some _ _ _ Hp) as Hplt.
    pose proof (lookup_lt_Some _ _ _ Hq) as Hqlt.
    exists (length sorted - S q)%nat, (length sorted - S p)%nat.
    rewrite !list_lookup_fmap.
    rewrite !reverse_lookup by lia.
    replace (length sorted - S (length sorted - S q))%nat with q by lia.
    replace (length sorted - S (length sorted - S p))%nat with p by lia.
    rewrite Hp, Hq. cbn. unfold getString. rewrite Hui, Hvj. cbn.
    split; [done |]. split; [done | lia].
Qed.

Lemma Analyze_order_prerequisites_first_witness :
  let issues :=
    [ {| ID := "A";
         Dependencies := [ {| IssueID := "A"; DependsOnID := "B";
                              Type_ := DepBlocks |} ] |};
      {| ID := "B"; Dependencies := [] |} ]%string in
  let a := {| g := {| nodes := {[0; 1]}; edges := {[(0, 1)]} |};
              idToNode := {[ "A"%string := 0; "B"%string := 1 ]};
              nodeToID := {[ 0 := "A"%string; 1 := "B"%string ]};
              issueMap := list_to_map ((λ i, (ID i, i)) <$> issues) |} in
  let lib := {| pageRank := [(0, 1 # 2); (1, 1 # 2)];
                betweenness := [];
                directedCyclesIn := [];
                topoSort := Some [0; 1];
                topoSortHeights := [0; 1] |} in
  NewAnalyzer issues = Some a ∧ NoDup (ID <$> issues) ∧
  topo_order (g a) [0; 1] ∧
  TopologicalOrder (Analyze a lib) ≡ₚ ID <$> issues.
Proof.
  intros issues a lib.
  assert (NewAnalyzer issues = Some a) as Hnew by (by vm_compute).
  assert (NoDup (ID <$> issues)) as Hnd.
  { apply NoDup_ListNoDup. repeat constructor; cbn; intros H; intuition done. }
  assert (topo_order (g a) [0; 1]) as Htopo.
  { split; [| split].
    - apply NoDup_ListNoDup. repeat constructor; cbn; intros H; lia.
    - intros n. cbn. rewrite !elem_of_cons, elem_of_nil, elem_of_union,
        !elem_of_singleton. tauto.
    - intros i j u v Hi Hj He. unfold HasEdgeFromTo in He. cbn in He.
      apply elem_of_singleton in He. injection He as -> ->.
      destruct i as [| [| i]]; cbn in Hi; try done.
      destruct j as [| [| j]]; cbn in Hj; try done. lia. }
  split; [done |]. split; [done |]. split; [done |].
  by destruct (Analyze_order_prerequisites_first issues a lib [0; 1]
                 Hnew Hnd eq_refl Htopo) as [H _].
Defined.

Lemma maxChild_cases (H : gmap Z Q) l : ∀ acc,
  foldl (maxChild H) acc l = acc ∨
  ∃ v, v ∈ l ∧ H !! v = Some (foldl (maxChild H) acc l).
Proof.
  induction l as [| v l IH]; intros acc; [by left |]. cbn.
  destruct (IH (maxChild H acc v)) as [Heq | (w & Hw & Hm)].
  - rewrite Heq. unfold maxChild.
    destruct (H !! v) as [h |] eqn:E; [| by left].
    destruct (Qgtb h acc); [| by left].
    right. exists v. split; [left | done].
  - right. exists w. split; [by right | done].
Qed.

Lemma heightsOf_range a l :
  (∀ u h, (heightsOf a l).1 !! u = Some h →
     ∃ k : Z, (h == inject_Z k)%Q ∧ 1 ≤ k ≤ Z.of_nat (length l)) ∧
  (∀ s h, (heightsOf a l).2 !! s = Some h →
     (∃ k : Z, (h == inject_Z k)%Q ∧ 1 ≤ k ≤ Z.of_nat (length l)) ∧
     ∃ u, u ∈ l ∧ getString (nodeToID a) u = s).
Proof.
  induction l as [| u l [IH1 IH2]].
  - split; intros ? h Hh; cbn in Hh; by rewrite lookup_empty in Hh.
  - rewrite heightsOf_cons. unfold heightStep. cbn [fst snd].
    set (H := (heightsOf a l).1) in *.
    assert (∃ k : Z,
              ((1 + foldl (maxChild H) 0 (From (g a) u))%Q == inject_Z k)%Q ∧
              1 ≤ k ≤ Z.of_nat (length (u :: l))) as (k & Hk & Hrange).
    { destruct (maxChild_cases H (From (g a) u) 0%Q) as [-> | (v & _ & Hv)].
      - exists 1. split; [reflexivity | cbn [length]; lia].
      - destruct (IH1 _ _ Hv) as (k & Hk & Hr). exists (1 + k). split.
        + rewrite inject_Z_plus, Hk. reflexivity.
        + cbn [length]. lia. }
    split.
    + intros w h [[<- <-] | [_ Hw]]%lookup_insert_Some; [by exists k |].
      destruct (IH1 w h Hw) as (k' & ? & ?). exists k'.
      split; [done | cbn [length]; lia].
    + intros s h [[<- <-] | [_ Hs]]%lookup_insert_Some.
      * split; [| exists u; split; [left | done]].
        exists k. unfold getQ. rewrite lookup_insert_eq. done.
      * destruct (IH2 s h Hs) as ((k' & ? & ?) & w & Hw & Hid). split.
        -- exists k'. split; [done | cbn [length]; lia].
        -- exists w. split; [by right | done].
Qed.

Lemma topo_order_length g sorted :
  topo_order g sorted → length sorted = size (nodes g).
Proof.
  intros (Hnd & Hall & _). change (size (nodes g)) with (length (NodesOf g)).
  apply Permutation_length, NoDup_Permutation; [done | apply NoDup_NodesOf |].
  intros n. by rewrite Hall, elem_of_NodesOf.
Qed.

(** X17: when the sort of computeHeights succeeds, every critical-path
    score Analyze reports is a whole number between 1 and the number of
    nodes, filed under the id of a node. *)
Theorem Analyze_critical_path_range (a : Analyzer) (lib : Library) :
  topo_order (g a) (topoSortHeights lib) →
  ∀ s h, CriticalPathScore (Analyze a lib) !! s = Some h →
    (∃ k : Z, (h == inject_Z k)%Q ∧
              1 ≤ k ≤ Z.of_nat (size (nodes (g a)))) ∧
    ∃ u, u ∈ nodes (g a) ∧ getString (nodeToID a) u = s.
Proof.
  intros Ht s h Hs. unfold Analyze in Hs. cbn in Hs.
  destruct (topoSort lib); [| by rewrite lookup_empty in Hs].
  destruct (heightsOf_range a (topoSortHeights lib)) as [_ Hr].
  destruct (Hr s h Hs) as (Hk & u & Hu & Hid).
  rewrite (topo_order_length _ _ Ht) in Hk. split; [done |].
  exists u. split; [| done]. destruct Ht as (_ & Hall & _). by apply Hall.
Qed.

Lemma Analyze_critical_path_range_witness :
  let a := {| g := {| nodes := {[0; 1; 2]}; edges := {[(0, 1); (1, 2)]} |};
              idToNode := ∅;
              nodeToID := {[ 0 := "A"%string; 1 := "B"%string;
                             2 := "C"%string ]};
              issueMap := ∅ |} in
  let lib := {| pageRank := []; betweenness := []; directedCyclesIn := [];
                topoSort := Some [0; 1; 2];
                topoSortHeights := [0; 1; 2] |} in
  topo_order (g a) (topoSortHeights lib) ∧
  ∃ k : Z, (3 == inject_Z k)%Q ∧ 1 ≤ k ≤ 3.
Proof.
  intros a lib. split; [apply chain_topo_order |].
  by destruct (Analyze_critical_path_range a lib chain_topo_order
                 "A"%string 3%Q) as [H _]; [by vm_compute |].
Defined.

Lemma simple_edges_bound (N : gset Z) (E : gset (Z * Z)) :
  (∀ x y, (x, y) ∈ E → x ≠ y ∧ x ∈ N ∧ y ∈ N) →
  (size E + size N ≤ size N * size N)%nat.
Proof.
  intros Hs.
  assert (NoDup (elements E ++ ((λ u, (u, u)) <$> elements N))) as Hnd.
  { apply NoDup_app. split; [apply NoDup_elements |]. split.
    - intros [x y] Hxy (u & [= -> ->] & _)%list_elem_of_fmap.
      apply elem_of_elements in Hxy. by destruct (Hs _ _ Hxy).
    - apply NoDup_fmap_2_strong; [| apply NoDup_elements].
      intros x y _ _. congruence. }
  assert (elements E ++ ((λ u, (u, u)) <$> elements N)
          ⊆+ cprod (elements N) (elements N)) as Hsub.
  { apply NoDup_submseteq; [done |]. intros [x y] Hxy.
    apply list_elem_of_cprod. cbn. apply elem_of_app in Hxy as [Hxy | Hxy].
    - apply elem_of_elements in Hxy. destruct (Hs _ _ Hxy) as (_ & ? & ?).
      split; by apply elem_of_elements.
    - by apply list_elem_of_fmap in Hxy as (u & [= -> ->] & Hu). }
  apply submseteq_length in Hsub.
  rewrite list_cprod_list_prod, length_prod, length_app, length_fmap in Hsub.
  exact Hsub.
Qed.

Lemma renameScores_snoc a l e :
  renameScores a (l ++ [e])
  = <[getString (nodeToID a) e.1 := e.2]> (renameScores a l).
Proof. unfold renameScores. by rewrite foldl_snoc. Qed.

Lemma renameScores_lookup a l :
  NoDup l.*1 →
  (∀ u v, u ∈ l.*1 → v ∈ l.*1 →
     getString (nodeToID a) u = getString (nodeToID a) v → u = v) →
  size (renameScores a l) = length l ∧
  ∀ n x, (n, x) ∈ l →
    renameScores a l !! getString (nodeToID a) n = Some x.
Proof.
  induction l as [| [m y] l IH] using rev_ind; intros Hnd Hinj.
  - split; [done |]. by intros ? ? ?%elem_of_nil.
  - rewrite fmap_app in Hnd, Hinj. cbn in Hnd, Hinj.
    apply NoDup_app in Hnd as (Hnd & Hm & _).
    destruct IH as [IHs IHl]; [done | |].
    { intros u v Hu Hv. apply Hinj; apply elem_of_app; by left. }
    assert (∀ n x, (n, x) ∈ l →
              getString (nodeToID a) m ≠ getString (nodeToID a) n) as Hne.
    { intros n x Hn Heq.
      assert (n ∈ l.*1) as Hn'.
      { apply list_elem_of_fmap. by exists (n, x). }
      apply Hinj in Heq; [| apply elem_of_app; right; left
                          | apply elem_of_app; by left ].
      subst. apply (Hm n); [done | left]. }
    rewrite renameScores_snoc. cbn [fst snd]. split.
    + rewrite map_size_insert_None, length_app, IHs; [cbn; lia |].
      destruct (renameScores a l !! getString (nodeToID a) m) as [x |] eqn:E;
        [| done].
      apply (renameScores_spec a l) in E as (n & Hn & Heq).
      exfalso. by eapply Hne.
    + intros n x [Hn | Hn%list_elem_of_singleton]%elem_of_app.
      * rewrite lookup_insert_ne by (by eapply Hne). by apply IHl.
      * injection Hn as -> ->. apply lookup_insert_eq.
Qed.

(** X18: when the issue ids are distinct and the PageRank of the library
    has one score per node (it panics for an empty graph), Analyze counts
    as many PageRank scores as there are issues, and the number of edges
    lies between 0 and n (n - 1) for n issues; the density is the rounded
    quotient of the two for n > 1 and zero otherwise. *)
Theorem Analyze_density_operands
    (issues : list Issue) (a : Analyzer) (lib : Library) :
  NewAnalyzer issues = Some a → NoDup (ID <$> issues) → issues ≠ [] →
  NoDup (pageRank lib).*1 →
  (∀ n, n ∈ (pageRank lib).*1 ↔ n ∈ nodes (g a)) →
  let stats := Analyze a lib in
  let n := Z.of_nat (length issues) in
  size (PageRank stats) = length issues ∧
  0 ≤ EdgesLen (g a) ≤ n * (n - 1) ∧
  Density stats =
    if PrimFloat.ltb PrimFloat.one (Float64.of_int n)
    then PrimFloat.div (Float64.of_int (EdgesLen (g a)))
           (PrimFloat.mul (Float64.of_int n)
              (PrimFloat.sub (Float64.of_int n) PrimFloat.one))
    else PrimFloat.zero.
Proof.
  intros Ha Hnd _ Hpr Hkeys stats n.
  destruct (NewAnalyzer_distinct _ _ Ha Hnd) as (_ & _ & Hsize & Hsimple).
  pose proof (NewAnalyzer_names_inj _ _ Ha Hnd) as Hinj.
  assert (size (renameScores a (pageRank lib)) = length issues) as Hn.
  { destruct (renameScores_lookup a (pageRank lib)) as [-> _]; [done | |].
    - intros u v Hu Hv. apply Hinj; by apply Hkeys.
    - rewrite <- Hsize, <- (length_fmap fst).
      change (size (nodes (g a))) with (length (NodesOf (g a))).
      apply Permutation_length, NoDup_Permutation;
        [done | apply NoDup_NodesOf |].
      intros m. by rewrite Hkeys, elem_of_NodesOf. }
  pose proof (simple_edges_bound _ _ Hsimple) as Hbound.
  rewrite Hsize in Hbound.
  split; [done |]. split.
  - unfold EdgesLen. subst n. nia.
  - subst stats n. unfold Analyze. cbn [Density PageRank]. by rewrite Hn.
Qed.

Lemma Analyze_density_operands_witness :
  let issues :=
    [ {| ID := "A";
         Dependencies := [ {| IssueID := "A"; DependsOnID := "B";
                              Type_ := DepBlocks |} ] |};
      {| ID := "B"; Dependencies := [] |} ]%string in
  let a := {| g := {| nodes := {[0; 1]}; edges := {[(0, 1)]} |};
              idToNode := {[ "A"%string := 0; "B"%string := 1 ]};
              nodeToID := {[ 0 := "A"%string; 1 := "B"%string ]};
              issueMap := list_to_map ((λ i, (ID i, i)) <$> issues) |} in
  let lib := {| pageRank := [(0, 1 # 2); (1, 1 # 2)];
                betweenness := [];
                directedCyclesIn := [];
                topoSort := Some [0; 1];
                topoSortHeights := [0; 1] |} in
  NewAnalyzer issues = Some a ∧ NoDup (ID <$> issues) ∧ issues ≠ [] ∧
  NoDup (pageRank lib).*1 ∧
  size (PageRank (Analyze a lib)) = 2%nat ∧
  0 ≤ EdgesLen (g a) ≤ 2 * (2 - 1).
Proof.
  intros issues a lib.
  assert (NewAnalyzer issues = Some a) as Hnew by (by vm_compute).
  assert (NoDup (ID <$> issues)) as Hnd.
  { apply NoDup_ListNoDup. repeat constructor; cbn; intros H; intuition done. }
  assert (issues ≠ []) as Hne by done.
  assert (NoDup (pageRank lib).*1) as Hpr.
  { apply NoDup_ListNoDup. repeat constructor; cbn; intros H; lia. }
  assert (∀ n, n ∈ (pageRank lib).*1 ↔ n ∈ nodes (g a)) as Hkeys.
  { intros n. cbn. rewrite !elem_of_cons, elem_of_nil, elem_of_union,
      !elem_of_singleton. tauto. }
  split; [done |]. split; [done |]. split; [done |]. split; [done |].
  destruct (Analyze_density_operands issues a lib Hnew Hnd Hne Hpr Hkeys)
    as (H1 & H2 & _).
  split; [exact H1 | exact H2].
Defined.

Lemma NewAnalyzer_forward issues a :
  NewAnalyzer issues = Some a →
  ∀ s n, idToNode a !! s = Some n →
    n ∈ nodes (g a) ∧ nodeToID a !! n = Some s.
Proof.
  unfold NewAnalyzer. intros Ha.
  destruct (addNodes issues _) as [a1 |] eqn:E1; [| done]. cbn in Ha.
  destruct (addEdges (idToNode a1) issues (g a1)) as [g1 |] eqn:E2; [| done].
  injection Ha as <-. cbn.
  destruct (addNodes_forward _ _ _ E1) as [Hfw _].
  { cbn. intros s n Hs. by rewrite lookup_empty in Hs. }
  intros s n Hs. destruct (Hfw s n Hs) as [Hn Hid]. split; [| done].
  by eapply addEdges_nodes.
Qed.

Lemma NoDup_fmap_inj {A B} (f : A → B) (l : list A) x y :
  NoDup (f <$> l) → x ∈ l → y ∈ l → f x = f y → x = y.
Proof.
  intros Hnd [p Hp]%list_elem_of_lookup [q Hq]%list_elem_of_lookup Heq.
  rewrite NoDup_alt in Hnd.
  assert (p = q) as ->; [| congruence].
  apply (Hnd p q (f x)); rewrite list_lookup_fmap.
  - by rewrite Hp.
  - rewrite Hq. cbn. by rewrite Heq.
Qed.

(** X19: when the issue ids are distinct, the in-degree Analyze reports
    for an issue is the number of issues of the list that declare a
    dependency on its id, and the out-degree is the number of issues of
    the list whose id is among its declared dependencies. *)
Theorem Analyze_degrees_count
    (issues : list Issue) (a : Analyzer) (lib : Library) :
  NewAnalyzer issues = Some a → NoDup (ID <$> issues) →
  ∀ i, i ∈ issues →
    InDegree (Analyze a lib) !! ID i
    = Some (Z.of_nat (length (filter
        (λ j, Exists (λ d, DependsOnID d = ID i) (Dependencies j))
        issues))) ∧
    OutDegree (Analyze a lib) !! ID i
    = Some (Z.of_nat (length (filter
        (λ j, Exists (λ d, DependsOnID d = ID j) (Dependencies i))
        issues))).
Proof.
  intros Ha Hnd i Hi.
  destruct (NewAnalyzer_distinct _ _ Ha Hnd) as (Hfw & Hback & _).
  pose proof (NewAnalyzer_names_inj _ _ Ha Hnd) as Hinj.
  pose proof (NewAnalyzer_forward _ _ Ha) as Hfwd.
  pose proof (NewAnalyzer_edges_raw _ _ Ha) as Hedges.
  destruct (Hfw i Hi) as (n & Hn & Hnn & Hni).
  set (nodeOf := λ j : Issue, default 0 (idToNode a !! ID j)).
  assert (∀ j, j ∈ issues →
            idToNode a !! ID j = Some (nodeOf j) ∧ nodeOf j ∈ nodes (g a))
    as HnodeOf.
  { intros j Hj. destruct (Hfw j Hj) as (u & Hu & Hun & _).
    unfold nodeOf. by rewrite Hu. }
  assert (∀ j j', j ∈ issues → j' ∈ issues → nodeOf j = nodeOf j' → j = j')
    as HnodeOf_inj.
  { intros j j' Hj Hj' Heq.
    destruct (HnodeOf j Hj) as [Hu _]. destruct (HnodeOf j' Hj') as [Hu' _].
    rewrite <- Heq in Hu'.
    destruct (Hfwd _ _ Hu) as [_ H1]. destruct (Hfwd _ _ Hu') as [_ H2].
    apply (NoDup_fmap_inj ID issues); [done | done | done | congruence]. }
  assert (NoDup issues) as Hndi by (by eapply NoDup_fmap_1).
  destruct (degrees_spec a (NodesOf (g a)) n) as (n' & Hn' & Hid & Hin & Hout).
  { by apply elem_of_NodesOf. }
  apply elem_of_NodesOf in Hn'. apply Hinj in Hid; [| done | done]. subst n'.
  assert (getString (nodeToID a) n = ID i) as Hname.
  { unfold getString. by rewrite Hni. }
  rewrite Hname in Hin, Hout.
  unfold Analyze. cbn [InDegree OutDegree]. rewrite Hin, Hout.
  split; do 3 f_equal.
  - rewrite <- (length_fmap nodeOf).
    apply Permutation_length, NoDup_Permutation.
    + apply NoDup_filter, NoDup_NodesOf.
    + apply NoDup_fmap_2_strong; [| by apply NoDup_filter].
      intros j j' [_ Hj]%list_elem_of_filter [_ Hj']%list_elem_of_filter.
      by apply HnodeOf_inj.
    + intros u. rewrite elem_of_To, list_elem_of_fmap. unfold HasEdgeFromTo.
      split.
      * intros [(j & d & Hj & Hd & Hu & Hv)%Hedges Hun].
        exists j. destruct (HnodeOf j Hj) as [Hu' _].
        split; [congruence |]. apply list_elem_of_filter.
        split; [| done]. apply Exists_exists. exists d. split; [done |].
        destruct (Hfwd _ _ Hv) as [_ H1]. congruence.
      * intros (j & -> & [(d & Hd & Hdep)%Exists_exists Hj]%list_elem_of_filter).
        destruct (HnodeOf j Hj) as [Hu Hun]. split; [| done].
        apply Hedges. exists j, d. by rewrite Hdep.
  - rewrite <- (length_fmap nodeOf).
    apply Permutation_length, NoDup_Permutation.
    + apply NoDup_filter, NoDup_NodesOf.
    + apply NoDup_fmap_2_strong; [| by apply NoDup_filter].
      intros j j' [_ Hj]%list_elem_of_filter [_ Hj']%list_elem_of_filter.
      by apply HnodeOf_inj.
    + intros v. rewrite elem_of_From, list_elem_of_fmap. unfold HasEdgeFromTo.
      split.
      * intros [(i' & d & Hi' & Hd & Hu & Hv)%Hedges Hvn].
        assert (i' = i) as ->.
        { destruct (Hfwd _ _ Hu) as [_ H1].
          apply (NoDup_fmap_inj ID issues); [done | done | done | congruence]. }
        destruct (Hback v Hvn) as (j & Hj & Hvj & Hjv).
        exists j. destruct (HnodeOf j Hj) as [Hv' _].
        split; [congruence |]. apply list_elem_of_filter.
        split; [| done]. apply Exists_exists. exists d. split; [done |].
        destruct (Hfwd _ _ Hv) as [_ H1]. congruence.
      * intros (j & -> & [(d & Hd & Hdep)%Exists_exists Hj]%list_elem_of_filter).
        destruct (HnodeOf j Hj) as [Hv Hvn]. split; [| done].
        apply Hedges. exists i, d. by rewrite Hdep.
Qed.

Lemma Analyze_degrees_count_witness :
  let issues :=
    [ {| ID := "A";
         Dependencies := [ {| IssueID := "A"; DependsOnID := "B";
                              Type_ := DepBlocks |};
                           {| IssueID := "A"; DependsOnID := "B";
                              Type_ := DepRelated |};
                           {| IssueID := "A"; DependsOnID := "Z";
                              Type_ := DepBlocks |} ] |};
      {| ID := "B"; Dependencies := [] |} ]%string in
  let a := {| g := {| nodes := {[0; 1]}; edges := {[(0, 1)]} |};
              idToNode := {[ "A"%string := 0; "B"%string := 1 ]};
              nodeToID := {[ 0 := "A"%string; 1 := "B"%string ]};
              issueMap := list_to_map ((λ i, (ID i, i)) <$> issues) |} in
  let lib := {| pageRank := []; betweenness := []; directedCyclesIn := [];
                topoSort := Some [0; 1]; topoSortHeights := [0; 1] |} in
  NewAnalyzer issues = Some a ∧ NoDup (ID <$> issues) ∧
  InDegree (Analyze a lib) !! "B"%string = Some 1 ∧
  OutDegree (Analyze a lib) !! "A"%string = Some 1.
Proof.
  intros issues a lib.
  assert (NewAnalyzer issues = Some a) as Hnew by (by vm_compute).
  assert (NoDup (ID <$> issues)) as Hnd.
  { apply NoDup_ListNoDup. repeat constructor; cbn; intros H; intuition done. }
  split; [done |]. split; [done |]. split.
  - destruct (Analyze_degrees_count issues a lib Hnew Hnd
                {| ID := "B"; Dependencies := [] |}) as [H _].
    { right. left. }
    etrans; [exact H |]. by vm_compute.
  - destruct (Analyze_degrees_count issues a lib Hnew Hnd
                (List.hd {| ID := "B"; Dependencies := [] |} issues))
      as [_ H].
    { left. }
    etrans; [exact H |]. by vm_compute.
Defined.

(** X20: when the issue ids are distinct and the library scores each node
    at most once, and nodes only, the PageRank and the betweenness Analyze
    reports under the id of an issue are exactly the scores the library
    gave to the node of that issue, and only issue ids carry a score. *)
Theorem Analyze_scores_by_issue
    (issues : list Issue) (a : Analyzer) (lib : Library) :
  NewAnalyzer issues = Some a → NoDup (ID <$> issues) →
  NoDup (pageRank lib).*1 → NoDup (betweenness lib).*1 →
  (∀ m, m ∈ (pageRank lib).*1 ∨ m ∈ (betweenness lib).*1 →
     m ∈ nodes (g a)) →
  let stats := Analyze a lib in
  (∀ i n x, i ∈ issues → idToNode a !! ID i = Some n →
     (PageRank stats !! ID i = Some x ↔ (n, x) ∈ pageRank lib) ∧
     (Betweenness stats !! ID i = Some x ↔ (n, x) ∈ betweenness lib)) ∧
  (∀ s, is_Some (PageRank stats !! s) ∨ is_Some (Betweenness stats !! s) →
     ∃ i, i ∈ issues ∧ ID i = s).
Proof.
  intros Ha Hnd Hpr Hbw Hkeys stats.
  destruct (NewAnalyzer_distinct _ _ Ha Hnd) as (Hfw & Hback & _).
  pose proof (NewAnalyzer_names_inj _ _ Ha Hnd) as Hinj.
  pose proof (NewAnalyzer_forward _ _ Ha) as Hfwd.
  assert (∀ l, NoDup l.*1 → (∀ m, m ∈ l.*1 → m ∈ nodes (g a)) →
            (∀ i n x, i ∈ issues → idToNode a !! ID i = Some n →
               renameScores a l !! ID i = Some x ↔ (n, x) ∈ l) ∧
            (∀ s, is_Some (renameScores a l !! s) →
               ∃ i, i ∈ issues ∧ ID i = s)) as Hgen.
  { intros l Hl Hnodes.
    destruct (renameScores_lookup a l Hl) as [_ Hlook].
    { intros u v Hu Hv. apply Hinj; by apply Hnodes. }
    split.
    - intros i n x Hi Hn. destruct (Hfwd _ _ Hn) as [Hnn Hni].
      assert (getString (nodeToID a) n = ID i) as Hname.
      { unfold getString. by rewrite Hni. }
      split.
      + intros (m & Hm & Hid)%(renameScores_spec a l).
        assert (m = n) as ->; [| done].
        apply Hinj; [| done | congruence].
        apply Hnodes, list_elem_of_fmap. by exists (m, x).
      + intros Hx. rewrite <- Hname. by apply Hlook.
    - intros s [x (m & Hm & <-)%(renameScores_spec a l)].
      assert (m ∈ nodes (g a)) as Hmn.
      { apply Hnodes, list_elem_of_fmap. by exists (m, x). }
      destruct (Hback m Hmn) as (i & Hi & Hid & _).
      exists i. split; [done |]. unfold getString. by rewrite Hid. }
  destruct (Hgen (pageRank lib) Hpr) as [Hp1 Hp2]; [by auto |].
  destruct (Hgen (betweenness lib) Hbw) as [Hb1 Hb2]; [by auto |].
  subst stats. unfold Analyze. cbn [PageRank Betweenness]. split.
  - intros i n x Hi Hn. split; [by apply Hp1 | by apply Hb1].
  - intros s [Hs | Hs]; auto.
Qed.

Lemma Analyze_scores_by_issue_witness :
  let issues :=
    [ {| ID := "A";
         Dependencies := [ {| IssueID := "A"; DependsOnID := "B";
                              Type_ := DepBlocks |} ] |};
      {| ID := "B"; Dependencies := [] |} ]%string in
  let a := {| g := {| nodes := {[0; 1]}; edges := {[(0, 1)]} |};
              idToNode := {[ "A"%string := 0; "B"%string := 1 ]};
              nodeToID := {[ 0 := "A"%string; 1 := "B"%string ]};
              issueMap := list_to_map ((λ i, (ID i, i)) <$> issues) |} in
  let lib := {| pageRank := [(0, 1 # 3); (1, 2 # 3)];
                betweenness := [(1, 0%Q)];
                directedCyclesIn := [];
                topoSort := Some [0; 1];
                topoSortHeights := [0; 1] |} in
  NewAnalyzer issues = Some a ∧ NoDup (ID <$> issues) ∧
  NoDup (pageRank lib).*1 ∧ NoDup (betweenness lib).*1 ∧
  PageRank (Analyze a lib) !! "B"%string = Some (2 # 3)%Q.
Proof.
  intros issues a lib.
  assert (NewAnalyzer issues = Some a) as Hnew by (by vm_compute).
  assert (NoDup (ID <$> issues)) as Hnd.
  { apply NoDup_ListNoDup. repeat constructor; cbn; intros H; intuition done. }
  assert (NoDup (pageRank lib).*1) as Hpr.
  { apply NoDup_ListNoDup. repeat constructor; cbn; intros H; lia. }
  assert (NoDup (betweenness lib).*1) as Hbw.
  { apply NoDup_ListNoDup. repeat constructor; cbn; intros H; lia. }
  assert (∀ m, m ∈ (pageRank lib).*1 ∨ m ∈ (betweenness lib).*1 →
            m ∈ nodes (g a)) as Hkeys.
  { intros m. cbn. rewrite !elem_of_cons, elem_of_nil, elem_of_union,
      !elem_of_singleton. tauto. }
  split; [done |]. split; [done |]. split; [done |]. split; [done |].
  destruct (Analyze_scores_by_issue issues a lib Hnew Hnd Hpr Hbw Hkeys)
    as [H _].
  destruct (H {| ID := "B"; Dependencies := [] |} 1 (2 # 3)%Q) as [[_ Hp] _].
  - right. left.
  - by vm_compute.
  - apply Hp. right. left.
Defined.

End MoreAnalyzeFacts.
